(** * Faypath: scoring engine, pipeline automation and alert delivery

    A shallow embedding of the merit-ranking, risk-scoring and
    notification-delivery code of the Faypath hiring marketplace
    (TypeScript), with the properties its specification states.

    Conventions of the embedding.
    - JavaScript strings are modelled as [string] over ASCII text: case
      folding and whitespace are the ASCII ones.
    - [Date] values are integers, the milliseconds of [getTime()].
    - Counts and scores that the code keeps in [number] variables and
      that only ever hold integers are [Z]. The ranking formula is
      computed as the code computes it, in IEEE 754 binary64 (the
      primitive floats of Rocq). The quotients that the code only
      compares with whole-number bounds (ages in hours and days, the
      average interviewer load) are computed exactly in [Q].
    - Database tables are lists of rows in table order; primary-key
      uniqueness is a hypothesis of the theorems that need it. *)

From Stdlib Require Import ZArith QArith Qround Lia Bool Ascii String List DecimalString.
From Stdlib Require Floats.PrimFloat Floats.SpecFloat Floats.FloatOps.
From stdpp Require Import base list gmap strings.
Import ListNotations.

Local Open Scope Z_scope.

(** ** JavaScript string primitives *)

Module Js.

Definition isUpper (c : ascii) : bool :=
  let n := nat_of_ascii c in (65 <=? n)%nat && (n <=? 90)%nat.

Definition isLowerAlnum (c : ascii) : bool :=
  let n := nat_of_ascii c in
  ((97 <=? n)%nat && (n <=? 122)%nat) || ((48 <=? n)%nat && (n <=? 57)%nat).

(* White space removed by [String.prototype.trim]: TAB, LF, VT, FF, CR, SP. *)
Definition isSpace (c : ascii) : bool :=
  let n := nat_of_ascii c in
  ((9 <=? n)%nat && (n <=? 13)%nat) || (n =? 32)%nat.

Definition lowerChar (c : ascii) : ascii :=
  if isUpper c then ascii_of_nat (nat_of_ascii c + 32) else c.

Fixpoint toLowerCase (s : string) : string :=
  match s with
  | EmptyString => EmptyString
  | String c r => String (lowerChar c) (toLowerCase r)
  end.

Fixpoint trimStart (s : string) : string :=
  match s with
  | EmptyString => EmptyString
  | String c r => if isSpace c then trimStart r else s
  end.

(* Drops the trailing white space: a character is kept when it is not a
   space or when something is kept after it. *)
Fixpoint trimEnd (s : string) : string :=
  match s with
  | EmptyString => EmptyString
  | String c r =>
      match trimEnd r with
      | EmptyString => if isSpace c then EmptyString else String c EmptyString
      | r' => String c r'
      end
  end.

Definition trim (s : string) : string := trimEnd (trimStart s).

(* [!value] for a string: true exactly for the empty string. *)
Definition isEmpty (s : string) : bool :=
  match s with EmptyString => true | _ => false end.

Definition startsWith (s p : string) : bool := String.prefix p s.

(* [hay.includes(needle)] *)
Fixpoint includes (hay needle : string) : bool :=
  String.prefix needle hay ||
  match hay with
  | EmptyString => false
  | String _ r => includes r needle
  end.

(* [s.slice(0, n)] *)
Definition slice0 (n : nat) (s : string) : string := String.substring 0 n s.

(* [l.join(sep)] *)
Definition join (sep : string) (l : list string) : string := String.concat sep l.

(* [s.split(/[...]/)] with a one-character separator class: one piece
   per separator occurrence, empty pieces kept. *)
Fixpoint splitChars (isSep : ascii -> bool) (cur : string) (s : string) : list string :=
  match s with
  | EmptyString => [cur]
  | String c r =>
      if isSep c then cur :: splitChars isSep EmptyString r
      else splitChars isSep (String.append cur (String c EmptyString)) r
  end.

(* [s.split(/[...]+/)]: a maximal run of separators splits once.
   [inSep] records that the previous character was a separator. *)
Fixpoint splitRuns (isSep : ascii -> bool) (cur : string) (inSep : bool) (s : string)
  : list string :=
  match s with
  | EmptyString => [cur]
  | String c r =>
      if isSep c then
        if inSep then splitRuns isSep EmptyString true r
        else cur :: splitRuns isSep EmptyString true r
      else splitRuns isSep (String.append cur (String c EmptyString)) false r
  end.

(* Template-literal rendering of an integer. *)
Definition showZ (z : Z) : string :=
  DecimalString.NilZero.string_of_int (Z.to_int z).

End Js.

(** ** lib/list-codec *)

Module ListCodec.

Definition isListSep (c : ascii) : bool :=
  let n := nat_of_ascii c in (n =? 44)%nat || (n =? 10)%nat || (n =? 124)%nat.

Definition parseList (value : string) : list string :=
  if Js.isEmpty value then []
  else List.filter (fun e => negb (Js.isEmpty e))
         (List.map Js.trim (Js.splitChars isListSep EmptyString value)).

(* The loop of [parseUniqueList]: [seen] is the [Set] of lower-cased keys. *)
Fixpoint uniqueLoop (seen : gset string) (entries : list string) : list string :=
  match entries with
  | [] => []
  | entry :: rest =>
      let key := Js.toLowerCase entry in
      if decide (key ∈ seen) then uniqueLoop seen rest
      else entry :: uniqueLoop ({[ key ]} ∪ seen) rest
  end.

Definition parseUniqueList (value : string) : list string :=
  uniqueLoop ∅ (parseList value).

Definition encodeList (values : list string) : string :=
  Js.join ", " (List.filter (fun e => negb (Js.isEmpty e)) (List.map Js.trim values)).

Definition normalizeToken (value : string) : string :=
  Js.toLowerCase (Js.trim value).

End ListCodec.


(** ** JavaScript numbers

    A [number] is an IEEE 754 binary64 value; its arithmetic is that of the
    primitive floats. *)

Module Num.
Import PrimFloat SpecFloat FloatOps.

(* The number nearest to a whole number (ties to even). *)
Definition ofZ (z : Z) : float := SF2Prim (binary_normalize prec emax z 0 false).

(* [Number.isFinite] *)
Definition isFinite (x : float) : bool := negb (is_nan x) && negb (is_infinity x).

(* The rational a finite number stands for. *)
Definition valueOf (x : float) : Q :=
  match Prim2SF x with
  | S754_finite negative m e =>
      let magnitude :=
        if 0 <=? e then inject_Z (Zpos m * 2 ^ e)
        else Zpos m # Pos.pow 2 (Z.to_pos (- e)) in
      if negative then Qopp magnitude else magnitude
  | _ => 0%Q
  end.

(* [Math.round] of a finite number: the nearest whole number, the upper
   one of two that are equally near. *)
Definition round (x : float) : Z := Qfloor (valueOf x + (1 # 2)).

End Num.

(** ** lib/application-scoring: the scoring engine *)

Module Scoring.
Import ListCodec PrimFloat.

(* A decimal literal is the number nearest to it, as in JavaScript. *)
#[local] Set Warnings "-inexact-float".

Record ScreenerAnswer := {
  question : string;
  answer : string
}.

Record ScoringJob := {
  meritFit : Z;
  requiredScreeners : string;
  preferredScreeners : string;
  requiredSkills : string;
  preferredSkills : string;
  title : string;
  company : string
}.

Record ScoringUser := {
  profileSkills : string;
  profileCompleteness : Z;
  createdAt : Z;
  email : string;
  isFlagged : bool
}.

(* [now] is the resolved evaluation time ([input.now ?? new Date()]). *)
Record ScoringInput := {
  job : ScoringJob;
  user : ScoringUser;
  answers : list ScreenerAnswer;
  recentApplicationCount : Z;
  priorFraudEventsForIp : Z;
  now : Z
}.

Record ApplicationScoringResult := {
  requiredPassed : bool;
  requiredScore : Z;
  preferredScore : Z;
  autoRankScore : Z;
  matchExplanation : string;
  missingSkills : list string;
  profileFixSuggestions : list string;
  submittedAnswers : string;
  riskScore : Z;
  riskFlags : list string;
  needsManualReview : bool;
  blockForAbuse : bool
}.

Definition isTokenSep (c : ascii) : bool := negb (Js.isLowerAlnum c).

Definition tokenize (value : string) : list string :=
  List.filter (fun token => (3 <=? String.length token)%nat)
    (List.map Js.trim (Js.splitRuns isTokenSep EmptyString false (Js.toLowerCase value))).

Definition answerMatchesPrompt (prompt : string) (answers : list ScreenerAnswer) : bool :=
  let tokens := firstn 8 (tokenize prompt) in
  match tokens with
  | [] => false
  | _ =>
      existsb (fun entry =>
        let answer := normalizeToken (answer entry) in
        if Js.isEmpty answer then false
        else if String.eqb answer "yes" || Js.startsWith answer "yes " then true
        else existsb (fun token => Js.includes answer token) tokens) answers
  end.

Definition extractSkillsFromAnswers (answers : list ScreenerAnswer) : list string :=
  let skillSeeds :=
    List.filter (fun token => (4 <=? String.length token)%nat)
      (List.flat_map
         (fun entry => tokenize (question entry +:+ " " +:+ answer entry)) answers) in
  parseUniqueList (Js.join ", " skillSeeds).

Definition clampScore (value : float) : Z :=
  if negb (Num.isFinite value) then 0
  else Z.max 0 (Z.min 100 (Num.round value)).

(* The two accumulators of the risk rules, [riskFlags] and [riskScore]. *)
Record Risk := {
  flags : list string;
  score : Z
}.

Definition addRisk (cond : bool) (flag : string) (points : Z) (r : Risk) : Risk :=
  if cond then {| flags := flags r ++ [flag]; score := score r + points |} else r.

Definition countMatches (screeners : list string) (answers : list ScreenerAnswer) : Z :=
  fold_left (fun acc screener =>
               if answerMatchesPrompt screener answers then acc + 1 else acc)
            screeners 0.

Definition Qltb (x y : Q) : bool := if Qlt_le_dec x y then true else false.

Definition accountAgeHours (input : ScoringInput) : Q :=
  (inject_Z (now input - createdAt (user input)) / inject_Z (1000 * 60 * 60))%Q.

Definition lenZ {A} (l : list A) : Z := Z.of_nat (length l).

Definition riskRules (input : ScoringInput) (requiredCount : Z) : Risk :=
  let r := {| flags := []; score := 0 |} in
  let r := addRisk (6 <=? recentApplicationCount input)
                   "high_application_velocity" 22 r in
  let r := addRisk (12 <=? recentApplicationCount input)
                   "extreme_application_velocity" 20 r in
  let r := addRisk (Qltb (accountAgeHours input) 1) "new_account" 18 r in
  let r := addRisk (Qltb (accountAgeHours input) (17 # 100)) "very_new_account" 18 r in
  let r := addRisk (0 <? priorFraudEventsForIp input) "ip_history_flagged"
                   (Z.min 24 (priorFraudEventsForIp input * 6)) r in
  let r := addRisk (isFlagged (user input)) "user_previously_flagged" 26 r in
  let r := addRisk ((lenZ (answers input) =? 0) && (0 <? requiredCount))
                   "missing_required_answers" 10 r in
  r.

Definition pushIf (cond : bool) (text : string) (l : list string) : list string :=
  if cond then l ++ [text] else l.

Definition evaluateApplication (input : ScoringInput) : ApplicationScoringResult :=
  let requiredScreeners := parseUniqueList (requiredScreeners (job input)) in
  let preferredScreeners := parseUniqueList (preferredScreeners (job input)) in
  let requiredSkills := parseUniqueList (requiredSkills (job input)) in
  let preferredSkills := parseUniqueList (preferredSkills (job input)) in
  let answerSkills := extractSkillsFromAnswers (answers input) in
  let profileSkills := parseUniqueList (profileSkills (user input)) in
  let candidateSkills := parseUniqueList (Js.join ", " (profileSkills ++ answerSkills)) in
  let candidateSkillIndex : gset string :=
    list_to_set (List.map normalizeToken candidateSkills) in
  let requiredScore := countMatches requiredScreeners (answers input) in
  let preferredScore := countMatches preferredScreeners (answers input) in
  let missingSkills :=
    List.filter (fun skill => negb (bool_decide (normalizeToken skill ∈ candidateSkillIndex)))
                requiredSkills in
  let missingPreferredSkills :=
    List.filter (fun skill => negb (bool_decide (normalizeToken skill ∈ candidateSkillIndex)))
                preferredSkills in
  let requiredPassed :=
    (lenZ requiredScreeners =? 0) || (lenZ requiredScreeners <=? requiredScore) in
  let risk := riskRules input (lenZ requiredScreeners) in
  let riskFlags := flags risk in
  let riskScore := score risk in
  let requiredRatio : float :=
    if 0 <? lenZ requiredScreeners
    then (Num.ofZ requiredScore / Num.ofZ (lenZ requiredScreeners))%float else 1%float in
  let preferredRatio : float :=
    if 0 <? lenZ preferredScreeners
    then (Num.ofZ preferredScore / Num.ofZ (lenZ preferredScreeners))%float
    else 0.6%float in
  let rawRank : float :=
    (Num.ofZ (meritFit (job input)) * 0.52 +
     requiredRatio * 28 +
     preferredRatio * 12 +
     Num.ofZ (profileCompleteness (user input)) * 0.12 -
     Num.ofZ (lenZ missingSkills) * 7 -
     Num.ofZ (lenZ missingPreferredSkills) * 2 -
     Num.ofZ riskScore * 0.24)%float in
  let profileFixSuggestions :=
    let l := pushIf (profileCompleteness (user input) <? 80)
               "Increase profile completeness to at least 80%." [] in
    let l := pushIf (0 <? lenZ missingSkills)
               ("Add evidence for required skills: " +:+ Js.join ", " missingSkills +:+ ".") l in
    let l := pushIf (0 <? lenZ missingPreferredSkills)
               ("Strengthen preferred skills coverage: " +:+
                Js.join ", " (firstn 3 missingPreferredSkills) +:+ ".") l in
    let l := pushIf (requiredScore <? lenZ requiredScreeners)
               "Provide stronger examples for required screener prompts." l in
    pushIf (lenZ l =? 0)
      "Profile is strong. Add fresh outcome metrics to stay competitive." l in
  let autoRankScore := clampScore rawRank in
  let needsManualReview := (45 <=? riskScore) || negb requiredPassed in
  let blockForAbuse := 72 <=? riskScore in
  let matchExplanation :=
    Js.join " "
      [ (if requiredPassed then "Passed" else "Missed") +:+ " required screeners (" +:+
          Js.showZ requiredScore +:+ "/" +:+ Js.showZ (lenZ requiredScreeners) +:+ ").";
        "Preferred screener alignment " +:+ Js.showZ preferredScore +:+ "/" +:+
          Js.showZ (lenZ preferredScreeners) +:+ ".";
        (if 0 <? lenZ missingSkills
         then "Missing required skills: " +:+ Js.join ", " missingSkills +:+ "."
         else "No required skill gaps detected.");
        "Auto-rank " +:+ Js.showZ autoRankScore +:+ "/100 for " +:+ title (job input) +:+
          " at " +:+ company (job input) +:+ "." ] in
  let submittedAnswers :=
    encodeList (List.map (fun entry =>
                  question entry +:+ ": " +:+ Js.slice0 220 (answer entry))
                (answers input)) in
  {| requiredPassed := requiredPassed;
     requiredScore := requiredScore;
     preferredScore := preferredScore;
     autoRankScore := autoRankScore;
     matchExplanation := matchExplanation;
     missingSkills := missingSkills;
     profileFixSuggestions := profileFixSuggestions;
     submittedAnswers := submittedAnswers;
     riskScore := clampScore (Num.ofZ riskScore);
     riskFlags := riskFlags;
     needsManualReview := needsManualReview;
     blockForAbuse := blockForAbuse |}.

End Scoring.

(** ** app/api/applications/route.ts: the submission handler *)

Module Applications.
Import ListCodec.

Record JobRow := {
  job_id : Z;
  job_meritFit : Z;
  job_requiredScreeners : string;
  job_preferredScreeners : string;
  job_requiredSkills : string;
  job_preferredSkills : string;
  job_title : string;
  job_company : string
}.

Record UserRow := {
  user_id : string;
  user_email : string;
  user_createdAt : Z;
  user_profileSkills : string;
  user_profileCompleteness : Z;
  user_isFlagged : bool
}.

Record ApplicationRow := {
  app_id : Z;
  jobId : Z;
  userId : string;
  status : string;
  appliedAt : Z;
  screenerRequiredPassed : bool;
  screenerRequiredScore : Z;
  screenerPreferredScore : Z;
  autoRankScore : Z;
  matchExplanation : string;
  missingSkills : string;
  profileFixSuggestions : string;
  submittedAnswers : string;
  riskScore : Z;
  riskFlags : string;
  needsManualReview : bool;
  sourceIp : string;
  userAgent : option string
}.

Record FraudEventRow := {
  fe_flow : string;
  fe_userId : string;
  fe_sourceIp : string;
  fe_severity : string;
  fe_decision : string;
  fe_detail : string;
  fe_createdAt : Z
}.

Record Db := {
  jobs : list JobRow;
  users : list UserRow;
  applications : list ApplicationRow;
  fraudEvents : list FraudEventRow
}.

(* The [Application] view that [mapApplication] sends to the client. *)
Record Application := {
  v_id : Z;
  v_jobId : Z;
  v_status : string;
  v_appliedAt : Z;
  v_screenerRequiredPassed : bool;
  v_screenerRequiredScore : Z;
  v_screenerPreferredScore : Z;
  v_autoRankScore : Z;
  v_matchExplanation : string;
  v_missingSkills : list string;
  v_profileFixSuggestions : list string;
  v_riskScore : Z;
  v_riskFlags : list string;
  v_needsManualReview : bool
}.

Definition mapApplication (record : ApplicationRow) : Application :=
  {| v_id := app_id record;
     v_jobId := jobId record;
     v_status := status record;
     v_appliedAt := appliedAt record;
     v_screenerRequiredPassed := screenerRequiredPassed record;
     v_screenerRequiredScore := screenerRequiredScore record;
     v_screenerPreferredScore := screenerPreferredScore record;
     v_autoRankScore := autoRankScore record;
     v_matchExplanation := matchExplanation record;
     v_missingSkills := parseUniqueList (missingSkills record);
     v_profileFixSuggestions := parseUniqueList (profileFixSuggestions record);
     v_riskScore := riskScore record;
     v_riskFlags := parseUniqueList (riskFlags record);
     v_needsManualReview := needsManualReview record |}.

(* What [consumeRateLimit] returned for this request. *)
Record RateLimitResult := {
  limit : Z;
  remaining : Z;
  resetAt : Z;
  retryAfterSeconds : Z;
  allowed : bool
}.

Record Session := {
  session_userId : string;
  session_role : string
}.

(* An element of the JSON array [body.answers]: an object with its
   [question] and [answer] members when they are strings, or anything else. *)
Inductive RawAnswer :=
| RawObject (question answer : option string)
| RawOther.

(* The clock readings of one request, in the order the handler takes them. *)
Record Clock := {
  velocityNow : Z;
  fraudWindowNow : Z;
  scoringNow : Z;
  fraudEventNow : Z;
  applicationNow : Z
}.

(* A JSON number: a whole number, or one with a fractional part. *)
Inductive JsonNumber :=
| Whole (z : Z)
| Fractional (q : Q).

(* What [await req.json()] gives: nothing, when the text of the request
   is not JSON and the promise rejects; [null]; or another value, of which
   the handler reads the member [jobId], here when it is a number, and the
   member [answers], here when it is an array. *)
Inductive RawBody :=
| BodyUnreadable
| BodyNull
| BodyValue (number : option JsonNumber) (answers : option (list RawAnswer)).

(* [refusedId] is Prisma's check of the [id] argument of
   [job.findUnique]: a number that it does not take for the integer column
   raises an exception. Which numbers those are is Prisma's business; the id
   of a stored job is found whatever this check says of other numbers. *)
Record Request := {
  throttle : RateLimitResult;
  session : option Session;
  body : RawBody;
  refusedId : JsonNumber -> bool;
  clientIdentifier : string;
  userAgentHeader : option string;
  clock : Clock
}.

(* [session] when [session?.user?.id] is truthy. *)
Definition signedIn (req : Request) : option Session :=
  match session req with
  | Some sess => if Js.isEmpty (session_userId sess) then None else Some sess
  | None => None
  end.

(* [body.jobId] and [body.answers] of a body that is a value. *)
Definition body_jobId (req : Request) : option JsonNumber :=
  match body req with
  | BodyValue number _ => number
  | _ => None
  end.

Definition body_answers (req : Request) : option (list RawAnswer) :=
  match body req with
  | BodyValue _ answers => answers
  | _ => None
  end.

Inductive ResponseBody :=
| ErrorBody (error : string)
| ApplicationBody (application : Application).

Record Response := {
  resp_body : ResponseBody;
  resp_status : Z;
  resp_throttle : RateLimitResult
}.

(* How a call of the handler ends: with a response, or with an exception
   that the handler does not catch. *)
Inductive Outcome :=
| Answered (response : Response)
| Thrown.

Definition jsonWithThrottle (body : ResponseBody) (t : RateLimitResult) (status : Z)
  : Response :=
  {| resp_body := body; resp_status := status; resp_throttle := t |}.

Definition parseScreenerAnswers (value : option (list RawAnswer))
  : list Scoring.ScreenerAnswer :=
  match value with
  | None => []
  | Some entries =>
      List.flat_map (fun entry =>
        match entry with
        | RawOther => []
        | RawObject q a =>
            let question := match q with Some s => Js.trim s | None => EmptyString end in
            let answer := match a with Some s => Js.trim s | None => EmptyString end in
            if Js.isEmpty question || Js.isEmpty answer then []
            else [ {| Scoring.question := question; Scoring.answer := answer |} ]
        end) entries
  end.

Definition findJob (db : Db) (id : Z) : option JobRow :=
  List.find (fun j => job_id j =? id) (jobs db).

Definition findUser (db : Db) (id : string) : option UserRow :=
  List.find (fun u => String.eqb (user_id u) id) (users db).

(* [prisma.application.findFirst({ where: { userId, jobId } })] *)
Definition findExisting (db : Db) (uid : string) (jid : Z) : option ApplicationRow :=
  List.find (fun a => String.eqb (userId a) uid && (jobId a =? jid)) (applications db).

Definition countRecentApplications (db : Db) (uid : string) (since : Z) : Z :=
  Scoring.lenZ (List.filter (fun a => String.eqb (userId a) uid && (since <=? appliedAt a))
                            (applications db)).

Definition countFraudEvents (db : Db) (ip : string) (since : Z) : Z :=
  Scoring.lenZ (List.filter (fun e =>
                  String.eqb (fe_sourceIp e) ip && (since <=? fe_createdAt e) &&
                  (String.eqb (fe_decision e) "manual_review" ||
                   String.eqb (fe_decision e) "block"))
                (fraudEvents db)).

(* Auto-increment key of a new application row. *)
Definition nextApplicationId (db : Db) : Z :=
  1 + fold_right Z.max 0 (List.map app_id (applications db)).

Definition scoringInput (job : JobRow) (user : UserRow)
    (answers : list Scoring.ScreenerAnswer) (recent prior : Z) (now : Z)
  : Scoring.ScoringInput :=
  {| Scoring.job :=
       {| Scoring.meritFit := job_meritFit job;
          Scoring.requiredScreeners := job_requiredScreeners job;
          Scoring.preferredScreeners := job_preferredScreeners job;
          Scoring.requiredSkills := job_requiredSkills job;
          Scoring.preferredSkills := job_preferredSkills job;
          Scoring.title := job_title job;
          Scoring.company := job_company job |};
     Scoring.user :=
       {| Scoring.profileSkills := user_profileSkills user;
          Scoring.profileCompleteness := user_profileCompleteness user;
          Scoring.createdAt := user_createdAt user;
          Scoring.email := user_email user;
          Scoring.isFlagged := user_isFlagged user |};
     Scoring.answers := answers;
     Scoring.recentApplicationCount := recent;
     Scoring.priorFraudEventsForIp := prior;
     Scoring.now := now |}.

Definition fraudEventFor (req : Request) (uid : string) (jid : Z)
    (scoring : Scoring.ApplicationScoringResult) : FraudEventRow :=
  let fraudDecision :=
    if Scoring.blockForAbuse scoring then "block"
    else if Scoring.needsManualReview scoring then "manual_review" else "allow" in
  {| fe_flow := "application_create";
     fe_userId := uid;
     fe_sourceIp := clientIdentifier req;
     fe_severity :=
       if 72 <=? Scoring.riskScore scoring then "high"
       else if 45 <=? Scoring.riskScore scoring then "medium" else "low";
     fe_decision := fraudDecision;
     fe_detail :=
       "jobId=" +:+ Js.showZ jid +:+ ";risk=" +:+ Js.showZ (Scoring.riskScore scoring) +:+
       ";flags=" +:+ encodeList (Scoring.riskFlags scoring);
     fe_createdAt := fraudEventNow (clock req) |}.

Definition applicationFor (db : Db) (req : Request) (uid : string) (jid : Z)
    (scoring : Scoring.ApplicationScoringResult) : ApplicationRow :=
  {| app_id := nextApplicationId db;
     jobId := jid;
     userId := uid;
     status := "Applied";
     appliedAt := applicationNow (clock req);
     screenerRequiredPassed := Scoring.requiredPassed scoring;
     screenerRequiredScore := Scoring.requiredScore scoring;
     screenerPreferredScore := Scoring.preferredScore scoring;
     autoRankScore := Scoring.autoRankScore scoring;
     matchExplanation := Scoring.matchExplanation scoring;
     missingSkills := encodeList (Scoring.missingSkills scoring);
     profileFixSuggestions := encodeList (Scoring.profileFixSuggestions scoring);
     submittedAnswers := Scoring.submittedAnswers scoring;
     riskScore := Scoring.riskScore scoring;
     riskFlags := encodeList (Scoring.riskFlags scoring);
     needsManualReview := Scoring.needsManualReview scoring;
     sourceIp := clientIdentifier req;
     userAgent := option_map (Js.slice0 400) (userAgentHeader req) |}.

Definition addFraudEvent (e : FraudEventRow) (db : Db) : Db :=
  {| jobs := jobs db; users := users db; applications := applications db;
     fraudEvents := fraudEvents db ++ [e] |}.

Definition addApplication (a : ApplicationRow) (db : Db) : Db :=
  {| jobs := jobs db; users := users db; applications := applications db ++ [a];
     fraudEvents := fraudEvents db |}.

(* The scoring the handler runs for a submission that is not a re-submission. *)
Definition scoreSubmission (db : Db) (req : Request) (uid : string)
    (job : JobRow) (user : UserRow) : Scoring.ApplicationScoringResult :=
  let answers := parseScreenerAnswers (body_answers req) in
  let recentApplicationCount :=
    countRecentApplications db uid (velocityNow (clock req) - 15 * 60 * 1000) in
  let priorFraudEventsForIp :=
    countFraudEvents db (clientIdentifier req)
                     (fraudWindowNow (clock req) - 24 * 60 * 60 * 1000) in
  Scoring.evaluateApplication
    (scoringInput job user answers recentApplicationCount priorFraudEventsForIp
                  (scoringNow (clock req))).

(* [job.findUnique] for the number of the body: the stored job with that
   id, together with the id. *)
Definition lookupJob (db : Db) (number : JsonNumber) : option (Z * JobRow) :=
  match number with
  | Whole id => option_map (pair id) (findJob db id)
  | Fractional _ => None
  end.

(* The handler on a seeded store. [ensureSeedData] and [consumeRateLimit]
   have run when the body starts: the request carries the throttle result,
   and [db] is the store after seeding. *)
Definition POST (db : Db) (req : Request) : Outcome * Db :=
  let throttle := throttle req in
  if negb (allowed throttle) then
    (Answered (jsonWithThrottle (ErrorBody "Too many application requests. Try again shortly.")
                                throttle 429), db)
  else
  match signedIn req with
  | None => (Answered (jsonWithThrottle (ErrorBody "Authentication required") throttle 401), db)
  | Some sess =>
  if negb (String.eqb (session_role sess) "CANDIDATE") &&
     negb (String.eqb (session_role sess) "ADMIN") then
    (Answered (jsonWithThrottle (ErrorBody "Candidate access required") throttle 403), db)
  else
  match body req with
  | BodyUnreadable => (Thrown, db)
  | BodyNull => (Thrown, db)
  | BodyValue None _ =>
      (Answered (jsonWithThrottle (ErrorBody "jobId is required") throttle 400), db)
  | BodyValue (Some number) _ =>
  let uid := session_userId sess in
  match lookupJob db number with
  | None =>
      if refusedId req number then (Thrown, db)
      else (Answered (jsonWithThrottle (ErrorBody "Job not found") throttle 404), db)
  | Some (jid, job) =>
  match findUser db uid with
  | None => (Answered (jsonWithThrottle (ErrorBody "User not found") throttle 404), db)
  | Some user =>
  match findExisting db uid jid with
  | Some existing =>
      (Answered (jsonWithThrottle (ApplicationBody (mapApplication existing)) throttle 200),
       db)
  | None =>
  let scoring := scoreSubmission db req uid job user in
  let db1 :=
    if 0 <? Scoring.lenZ (Scoring.riskFlags scoring)
    then addFraudEvent (fraudEventFor req uid jid scoring) db else db in
  if Scoring.blockForAbuse scoring then
    (Answered
       (jsonWithThrottle
          (ErrorBody
             "Application blocked due to abuse risk. Contact support if this is a mistake.")
          throttle 429), db1)
  else
    let record := applicationFor db1 req uid jid scoring in
    (Answered (jsonWithThrottle (ApplicationBody (mapApplication record)) throttle 201),
     addApplication record db1)
  end end end end end.

End Applications.

(** ** lib/pipeline-automation: stage recommendations and interviewer load *)

Module Pipeline.

Inductive PipelineScope := employer | admin.

Inductive AppStatus := Applied | Interview | Offer | Rejected.

Inductive Priority := high | medium | low.

Inductive LoadLevel := LoadHigh | LoadLow | LoadBalanced.

Definition AppStatus_eqb (a b : AppStatus) : bool :=
  match a, b with
  | Applied, Applied | Interview, Interview | Offer, Offer | Rejected, Rejected => true
  | _, _ => false
  end.

Definition toAppStatus (value : string) : AppStatus :=
  if String.eqb value "Interview" then Interview
  else if String.eqb value "Offer" then Offer
  else if String.eqb value "Rejected" then Rejected
  else Applied.

Definition ageInDays (value now : Z) : Q :=
  (inject_Z (now - value) / inject_Z (1000 * 60 * 60 * 24))%Q.

Definition priorityRank (priority : Priority) : Z :=
  match priority with high => 3 | medium => 2 | low => 1 end.

Record Derived := {
  d_recommendedStatus : AppStatus;
  d_priority : Priority;
  d_confidence : Q;
  d_reason : string
}.

Definition deriveRecommendation (currentStatus : AppStatus) (appliedAt : Z) (meritFit : Z)
    (now : Z) : option Derived :=
  let days := ageInDays appliedAt now in
  let merit := meritFit in
  let fromApplied :=
    match currentStatus with
    | Applied =>
        if 90 <=? merit then
          Some {| d_recommendedStatus := Interview; d_priority := high;
                  d_confidence := 92 # 100;
                  d_reason := "Top merit fit cleared threshold for immediate interview." |}
        else if (82 <=? merit) && Qle_bool 4 days then
          Some {| d_recommendedStatus := Interview; d_priority := medium;
                  d_confidence := 81 # 100;
                  d_reason := "Strong fit with enough pipeline age to move forward." |}
        else if (merit <? 70) && Qle_bool 12 days then
          Some {| d_recommendedStatus := Rejected; d_priority := medium;
                  d_confidence := 76 # 100;
                  d_reason := "Low fit and stale application beyond review window." |}
        else None
    | _ => None
    end in
  match fromApplied with
  | Some r => Some r
  | None =>
      match currentStatus with
      | Interview =>
          if (88 <=? merit) && Qle_bool 10 days then
            Some {| d_recommendedStatus := Offer; d_priority := high;
                    d_confidence := 87 # 100;
                    d_reason := "Interview-stage candidate has high fit and long dwell time." |}
          else if (merit <? 75) && Qle_bool 21 days then
            Some {| d_recommendedStatus := Rejected; d_priority := low;
                    d_confidence := 68 # 100;
                    d_reason := "Interview-stage candidate is stale with below-target fit." |}
          else None
      | _ => None
      end
  end.

(* Rows as the queries of the snapshot return them. *)
Record JobRow := {
  job_id : Z;
  job_title : string;
  job_company : string;
  job_meritFit : Z
}.

Record ApplicationRow := {
  app_id : Z;
  app_status : string;
  app_appliedAt : Z;
  app_userEmail : string;
  app_job : JobRow
}.

Record InterviewRow := {
  interview_id : Z;
  person : string;
  owner : string;
  time : Z
}.

Record PipelineStageRecommendation := {
  applicationId : Z;
  jobId : Z;
  jobTitle : string;
  company : string;
  candidateEmail : string;
  currentStatus : AppStatus;
  recommendedStatus : AppStatus;
  priority : Priority;
  confidence : Q;
  reason : string;
  appliedAt : Z
}.

Record InterviewLoadStat := {
  ls_owner : string;
  ls_scheduled : Z;
  ls_nextInterviewAt : option Z;
  ls_loadLevel : LoadLevel
}.

Record InterviewRebalanceSuggestion := {
  rs_interviewId : Z;
  rs_person : string;
  rs_currentOwner : string;
  rs_suggestedOwner : string;
  rs_time : Z;
  rs_reason : string
}.

Record Totals := {
  t_applications : Z;
  t_recommendations : Z;
  t_scheduledInterviews : Z
}.

Record PipelineAutomationSnapshot := {
  scope : PipelineScope;
  generatedAt : Z;
  totals : Totals;
  recommendations : list PipelineStageRecommendation;
  loadStats : list InterviewLoadStat;
  rebalanceSuggestions : list InterviewRebalanceSuggestion
}.

(** [Array.prototype.sort] is stable: [le x y] holds when the comparator
    does not put [y] before [x]. *)
Section StableSort.
Context {A : Type} (le : A -> A -> bool).

Fixpoint insertSorted (x : A) (l : list A) : list A :=
  match l with
  | [] => [x]
  | y :: r => if le x y then x :: y :: r else y :: insertSorted x r
  end.

Definition stableSort (l : list A) : list A := fold_right insertSorted [] l.

End StableSort.

Definition recommendationsFor (applications : list ApplicationRow) (now : Z)
  : list PipelineStageRecommendation :=
  List.flat_map (fun application =>
    let currentStatus := toAppStatus (app_status application) in
    match deriveRecommendation currentStatus (app_appliedAt application)
                               (job_meritFit (app_job application)) now with
    | None => []
    | Some recommendation =>
        if AppStatus_eqb (d_recommendedStatus recommendation) currentStatus then []
        else [ {| applicationId := app_id application;
                  jobId := job_id (app_job application);
                  jobTitle := job_title (app_job application);
                  company := job_company (app_job application);
                  candidateEmail := app_userEmail application;
                  currentStatus := currentStatus;
                  recommendedStatus := d_recommendedStatus recommendation;
                  priority := d_priority recommendation;
                  confidence := d_confidence recommendation;
                  reason := d_reason recommendation;
                  appliedAt := app_appliedAt application |} ]
    end) applications.

(* The comparator of [recommendations.sort]: negative or zero keeps [a] first. *)
Definition recommendationLe (a b : PipelineStageRecommendation) : bool :=
  let priorityDiff := priorityRank (priority b) - priorityRank (priority a) in
  if negb (priorityDiff =? 0) then priorityDiff <=? 0
  else Qle_bool (confidence b - confidence a) 0.

(* One value of the [interviewsByOwner] map. *)
Record OwnerLoad := {
  scheduled : Z;
  nextInterviewAt : option Z
}.

(* [interviewsByOwner] is a [Map] that is later iterated: an association
   list in insertion order, updated in place for a known owner. *)
Fixpoint bumpOwner (interview : InterviewRow) (m : list (string * OwnerLoad))
  : option (list (string * OwnerLoad)) :=
  match m with
  | [] => None
  | (o, existing) :: r =>
      if String.eqb o (owner interview) then
        let next :=
          match nextInterviewAt existing with
          | None => Some (time interview)
          | Some t => if time interview <? t then Some (time interview) else Some t
          end in
        Some ((o, {| scheduled := scheduled existing + 1; nextInterviewAt := next |}) :: r)
      else option_map (cons (o, existing)) (bumpOwner interview r)
  end.

Definition recordInterview (m : list (string * OwnerLoad)) (interview : InterviewRow)
  : list (string * OwnerLoad) :=
  match bumpOwner interview m with
  | Some m' => m'
  | None => m ++ [(owner interview,
                   {| scheduled := 1; nextInterviewAt := Some (time interview) |})]
  end.

Definition interviewsByOwner (upcomingInterviews : list InterviewRow)
  : list (string * OwnerLoad) :=
  fold_left recordInterview upcomingInterviews [].

Definition avgLoad (loadEntries : list (string * OwnerLoad)) : Q :=
  let totalInterviews := fold_left (fun sum entry => sum + scheduled (snd entry)) loadEntries 0 in
  match loadEntries with
  | [] => 0%Q
  | _ => (inject_Z totalInterviews / inject_Z (Z.of_nat (length loadEntries)))%Q
  end.

Definition loadLevelOf (avg : Q) (sched : Z) : LoadLevel :=
  if Qle_bool (avg + 1) (inject_Z sched) then LoadHigh
  else if Qle_bool (inject_Z sched) (avg - 1) then LoadLow
  else LoadBalanced.

Definition loadStatsOf (loadEntries : list (string * OwnerLoad)) : list InterviewLoadStat :=
  let avg := avgLoad loadEntries in
  stableSort (fun a b => ls_scheduled b - ls_scheduled a <=? 0)
    (List.map (fun entry =>
       {| ls_owner := fst entry;
          ls_scheduled := scheduled (snd entry);
          ls_nextInterviewAt := nextInterviewAt (snd entry);
          ls_loadLevel := loadLevelOf avg (scheduled (snd entry)) |}) loadEntries).

Definition isHigh (l : LoadLevel) : bool := match l with LoadHigh => true | _ => false end.
Definition isLow (l : LoadLevel) : bool := match l with LoadLow => true | _ => false end.

(* [virtualCounts.get(owner) ?? 0] *)
Definition getCount (virtualCounts : gmap string Z) (o : string) : Z :=
  default 0 (virtualCounts !! o).

(* The variables the rebalancing loops mutate. *)
Record Rebalance := {
  virtualCounts : gmap string Z;
  underloadedOwners : list string;
  suggestions : list InterviewRebalanceSuggestion
}.

(* The [while] loop for one overloaded owner. Every iteration shifts one
   interview off the owner's pool, so the pool is its own measure. *)
Fixpoint drainOwner (overloadedOwner : string) (pool : list InterviewRow) (st : Rebalance)
  : Rebalance :=
  match underloadedOwners st with
  | [] => st
  | _ :: _ =>
      match pool with
      | [] => st
      | nextInterview :: pool' =>
          let sorted :=
            stableSort (fun a b =>
                          getCount (virtualCounts st) a - getCount (virtualCounts st) b <=? 0)
                       (underloadedOwners st) in
          match sorted with
          | [] => st
          | targetOwner :: _ =>
              let sourceCount := getCount (virtualCounts st) overloadedOwner in
              let targetCount := getCount (virtualCounts st) targetOwner in
              if sourceCount - targetCount <=? 1 then
                {| virtualCounts := virtualCounts st;
                   underloadedOwners := sorted;
                   suggestions := suggestions st |}
              else
                drainOwner overloadedOwner pool'
                  {| virtualCounts :=
                       <[targetOwner := targetCount + 1]>
                         (<[overloadedOwner := sourceCount - 1]> (virtualCounts st));
                     underloadedOwners := sorted;
                     suggestions := suggestions st ++
                       [ {| rs_interviewId := interview_id nextInterview;
                            rs_person := person nextInterview;
                            rs_currentOwner := overloadedOwner;
                            rs_suggestedOwner := targetOwner;
                            rs_time := time nextInterview;
                            rs_reason :=
                              "Reduce interviewer load from " +:+ Js.showZ sourceCount +:+
                              " to " +:+ Js.showZ (sourceCount - 1) +:+ ", and raise " +:+
                              targetOwner +:+ " from " +:+ Js.showZ targetCount +:+
                              " to " +:+ Js.showZ (targetCount + 1) +:+ "." |} ] |}
          end
      end
  end.

Definition rebalance (loadStats : list InterviewLoadStat)
    (upcomingInterviews : list InterviewRow) : Rebalance :=
  let overloadedOwners :=
    List.map ls_owner (List.filter (fun e => isHigh (ls_loadLevel e)) loadStats) in
  let underloaded :=
    List.map ls_owner (List.filter (fun e => isLow (ls_loadLevel e)) loadStats) in
  let counts : gmap string Z :=
    list_to_map (reverse (List.map (fun e => (ls_owner e, ls_scheduled e)) loadStats)) in
  fold_left (fun st overloadedOwner =>
               drainOwner overloadedOwner
                 (List.filter (fun i => String.eqb (owner i) overloadedOwner) upcomingInterviews)
                 st)
            overloadedOwners
            {| virtualCounts := counts; underloadedOwners := underloaded; suggestions := [] |}.

(* [jobs], [applications] and [upcomingInterviews] are the results of the
   three queries: the jobs of the scope, their applications by
   [appliedAt], and the interviews from [now] on by [time]. *)
Definition getPipelineAutomationSnapshot (sc : PipelineScope) (now : Z)
    (jobs : list JobRow) (applications : list ApplicationRow)
    (upcomingInterviews : list InterviewRow) : PipelineAutomationSnapshot :=
  match jobs with
  | [] =>
      {| scope := sc; generatedAt := now;
         totals := {| t_applications := 0; t_recommendations := 0;
                      t_scheduledInterviews := 0 |};
         recommendations := []; loadStats := []; rebalanceSuggestions := [] |}
  | _ :: _ =>
      let recs := stableSort recommendationLe (recommendationsFor applications now) in
      let stats := loadStatsOf (interviewsByOwner upcomingInterviews) in
      {| scope := sc; generatedAt := now;
         totals := {| t_applications := Z.of_nat (length applications);
                      t_recommendations := Z.of_nat (length recs);
                      t_scheduledInterviews := Z.of_nat (length upcomingInterviews) |};
         recommendations := recs;
         loadStats := stats;
         rebalanceSuggestions := suggestions (rebalance stats upcomingInterviews) |}
  end.

End Pipeline.

(** ** lib/alert-delivery: multi-channel, cadence-aware alert delivery *)

Module Alerts.

Inductive DeliveryScope := self | all.
Inductive AlertKind := KindInstant | KindDigest.
Inductive DigestCadence := instant | daily | weekly.
Inductive Channel := Email | InApp | Push.

Definition Channel_eqb (a b : Channel) : bool :=
  match a, b with
  | Email, Email | InApp, InApp | Push, Push => true
  | _, _ => false
  end.

Definition normalizeCadence (value : string) : DigestCadence :=
  if String.eqb value "instant" then instant
  else if String.eqb value "weekly" then weekly
  else daily.

Definition cadenceIntervalHours (cadence : DigestCadence) : Z :=
  match cadence with weekly => 7 * 24 | _ => 24 end.

(** The collaborators of the engine: the local-time rule of the process
    ([Date.prototype.getHours]) and the two channel providers. A provider
    is outside the program, so its answer may depend on the message and on
    how many provider calls the run has made before. *)
Record EmailInput := {
  to : string;
  subject : string;
  text : string
}.

Inductive PushData :=
| DigestData (savedSearchId : Z) (alertIds : list Z) (digestCadence : DigestCadence)
| InstantData (savedSearchId : Z) (alertId : Z) (jobTitle : string).

Record PushInput := {
  recipient : string;
  push_title : string;
  body : string;
  data : PushData
}.

Record ProviderResult := {
  provider : string;
  accepted : bool;
  providerMessageId : option string;
  error : option string
}.

Record World := {
  getHours : Z -> Z;
  sendIntegrationEmail : nat -> EmailInput -> ProviderResult;
  sendIntegrationPush : nat -> PushInput -> ProviderResult
}.

Definition isDigestDue (w : World) (cadence : DigestCadence) (digestHour : Z)
    (lastDigestAt : option Z) (now : Z) : bool :=
  if getHours w now <? digestHour then false
  else match lastDigestAt with
       | None => true
       | Some last =>
           let elapsedHours := (inject_Z (now - last) / inject_Z (1000 * 60 * 60))%Q in
           Qle_bool (inject_Z (cadenceIntervalHours cadence)) elapsedHours
       end.

(** *** Rows *)

Record JobInfo := {
  title : string;
  company : string;
  location : string;
  salary : string;
  meritFit : Z
}.

Record JobAlert := {
  alert_id : Z;
  alert_savedSearchId : Z;
  reason : string;
  emailSentAt : option Z;
  inAppSentAt : option Z;
  pushSentAt : option Z;
  job : JobInfo
}.

Record SavedSearch := {
  search_id : Z;
  userId : string;
  label : string;
  search_digestCadence : string;
  digestHour : Z;
  lastDigestAt : option Z;
  emailEnabled : bool;
  inAppEnabled : bool;
  pushEnabled : bool;
  pushDeferred : bool;
  user_email : string
}.

Record SavedSearchWithPendingAlerts := {
  search : SavedSearch;
  alerts : list JobAlert
}.

Record AlertDeliveryLog := {
  log_userId : string;
  log_alertId : option Z;
  log_savedSearchId : Z;
  log_channel : Channel;
  log_kind : AlertKind;
  log_provider : string;
  log_providerMessageId : option string;
  log_accepted : bool;
  log_recipient : string;
  log_subject : string;
  log_payload : string;
  log_deliveredAt : Z
}.

Record Store := {
  savedSearches : list SavedSearch;
  jobAlerts : list JobAlert;
  deliveryLogs : list AlertDeliveryLog
}.

(** *** Message texts *)

Definition nl : string := String (ascii_of_nat 10) EmptyString.

Definition subjectForInstant (title company : string) : string :=
  "New Faypath match: " +:+ title +:+ " at " +:+ company.

Definition payloadForInstant (a : JobAlert) : string :=
  Js.join nl
    [ "Role: " +:+ title (job a);
      "Company: " +:+ company (job a);
      "Location: " +:+ location (job a);
      "Salary: " +:+ salary (job a);
      "Merit fit: " +:+ Js.showZ (meritFit (job a));
      "Reason: " +:+ reason a ].

Definition subjectForDigest (label : string) (cadence : DigestCadence) (count : Z) : string :=
  let prefix := match cadence with weekly => "Weekly" | _ => "Daily" end in
  prefix +:+ " Faypath digest: " +:+ label +:+ " (" +:+ Js.showZ count +:+ " new matches)".

Definition payloadForDigest (label : string) (cadence : DigestCadence)
    (alerts : list JobAlert) : string :=
  let cadenceLabel := match cadence with weekly => "WEEKLY" | _ => "DAILY" end in
  let lines :=
    [cadenceLabel +:+ " DIGEST"; "Saved search: " +:+ label; EmptyString] ++
    List.flat_map (fun alert =>
      [ title (job alert) +:+ " | " +:+ company (job alert) +:+ " | " +:+
          location (job alert) +:+ " | " +:+ salary (job alert) +:+ " | fit " +:+
          Js.showZ (meritFit (job alert));
        "Reason: " +:+ reason alert;
        EmptyString ]) alerts in
  Js.join nl lines.

Definition pushBodyForAlert (alert : JobAlert) (searchLabel : string) : string :=
  Js.join " | "
    [ title (job alert); company (job alert); location (job alert); salary (job alert);
      "Fit " +:+ Js.showZ (meritFit (job alert));
      "Search: " +:+ searchLabel ].

Definition pushDigestBody (searchLabel : string) (alerts : list JobAlert)
    (cadence : DigestCadence) : string :=
  let prefix :=
    match cadence with
    | weekly => "Weekly digest"
    | daily => "Daily digest"
    | instant => "Queued digest"
    end in
  let top := List.map (fun alert => title (job alert) +:+ " (" +:+ company (job alert) +:+ ")")
                      (firstn 3 alerts) in
  prefix +:+ " for " +:+ searchLabel +:+ ": " +:+ Js.showZ (Z.of_nat (length alerts)) +:+
  " new matches" +:+
  match top with [] => EmptyString | _ => " | " +:+ Js.join ", " top end.

(** *** Queries and writes *)

Definition isNull {A} (o : option A) : bool :=
  match o with None => true | Some _ => false end.

Definition fetchPendingSearches (userId' : option string) (st : Store)
  : list SavedSearchWithPendingAlerts :=
  let wanted (s : SavedSearch) :=
    match userId' with
    | Some u => if Js.isEmpty u then true else String.eqb (userId s) u
    | None => true
    end in
  List.map (fun s =>
      {| search := s;
         alerts :=
           List.filter (fun a =>
               (alert_savedSearchId a =? search_id s) &&
               (isNull (emailSentAt a) || isNull (inAppSentAt a) || isNull (pushSentAt a)))
             (jobAlerts st) |})
    (List.filter (fun s => wanted s && (emailEnabled s || inAppEnabled s || pushEnabled s))
                 (savedSearches st)).

Definition sentAt (c : Channel) (a : JobAlert) : option Z :=
  match c with
  | Email => emailSentAt a
  | InApp => inAppSentAt a
  | Push => pushSentAt a
  end.

Definition setSentAt (c : Channel) (t : Z) (a : JobAlert) : JobAlert :=
  {| alert_id := alert_id a;
     alert_savedSearchId := alert_savedSearchId a;
     reason := reason a;
     emailSentAt := match c with Email => Some t | _ => emailSentAt a end;
     inAppSentAt := match c with InApp => Some t | _ => inAppSentAt a end;
     pushSentAt := match c with Push => Some t | _ => pushSentAt a end;
     job := job a |}.

Definition memZ (x : Z) (l : list Z) : bool := existsb (Z.eqb x) l.

(* [prisma.jobAlert.updateMany({ where: { id: { in: ids } }, data })];
   [update({ where: { id } })] is the case of one id. *)
Definition updateAlerts (ids : list Z) (c : Channel) (t : Z) (st : Store) : Store :=
  {| savedSearches := savedSearches st;
     jobAlerts := List.map (fun a => if memZ (alert_id a) ids then setSentAt c t a else a)
                           (jobAlerts st);
     deliveryLogs := deliveryLogs st |}.

Definition createLogs (logs : list AlertDeliveryLog) (st : Store) : Store :=
  {| savedSearches := savedSearches st;
     jobAlerts := jobAlerts st;
     deliveryLogs := deliveryLogs st ++ logs |}.

Definition setLastDigestAt (t : Z) (s : SavedSearch) : SavedSearch :=
  {| search_id := search_id s; userId := userId s; label := label s;
     search_digestCadence := search_digestCadence s; digestHour := digestHour s;
     lastDigestAt := Some t;
     emailEnabled := emailEnabled s; inAppEnabled := inAppEnabled s;
     pushEnabled := pushEnabled s; pushDeferred := pushDeferred s;
     user_email := user_email s |}.

Definition updateSearchDigest (id : Z) (t : Z) (st : Store) : Store :=
  {| savedSearches := List.map (fun s => if search_id s =? id then setLastDigestAt t s else s)
                               (savedSearches st);
     jobAlerts := jobAlerts st;
     deliveryLogs := deliveryLogs st |}.

Record ChannelPending := {
  emailAlerts : list JobAlert;
  inAppAlerts : list JobAlert;
  pushAlerts : list JobAlert;
  pendingUniqueCount : Z
}.

Definition channelPendingCounts (sw : SavedSearchWithPendingAlerts) : ChannelPending :=
  let pendingOn (enabled : bool) (c : Channel) :=
    if enabled then List.filter (fun alert => isNull (sentAt c alert)) (alerts sw) else [] in
  let emailAlerts := pendingOn (emailEnabled (search sw)) Email in
  let inAppAlerts := pendingOn (inAppEnabled (search sw)) InApp in
  let pushAlerts := pendingOn (pushEnabled (search sw)) Push in
  let uniquePending : gset Z :=
    list_to_set (List.map alert_id emailAlerts ++ List.map alert_id inAppAlerts ++
                 List.map alert_id pushAlerts) in
  {| emailAlerts := emailAlerts;
     inAppAlerts := inAppAlerts;
     pushAlerts := pushAlerts;
     pendingUniqueCount := Z.of_nat (size uniquePending) |}.

(** *** The run: store, provider-call count and summary counters

    [emitDeliveryWebhookEvent] is left out: the event goes to an outside
    listener, its failure is caught and only logged, and neither the store
    nor the summary depends on it. *)

Inductive Counter :=
| searchesScanned | attemptedDeliveries | alertsDelivered | instantAlertsDelivered
| digestAlertsDelivered | failedDeliveries | digestRuns | logsCreated
| waitingDigestSearches | emailChannelDelivered | inAppChannelDelivered
| pushChannelDelivered.

Definition Counter_eqb (a b : Counter) : bool :=
  match a, b with
  | searchesScanned, searchesScanned | attemptedDeliveries, attemptedDeliveries
  | alertsDelivered, alertsDelivered | instantAlertsDelivered, instantAlertsDelivered
  | digestAlertsDelivered, digestAlertsDelivered | failedDeliveries, failedDeliveries
  | digestRuns, digestRuns | logsCreated, logsCreated
  | waitingDigestSearches, waitingDigestSearches
  | emailChannelDelivered, emailChannelDelivered
  | inAppChannelDelivered, inAppChannelDelivered
  | pushChannelDelivered, pushChannelDelivered => true
  | _, _ => false
  end.

Record Run := {
  store : Store;
  calls : nat;
  counters : Counter -> Z
}.

(* [counter += n] *)
Definition add (k : Counter) (n : Z) (r : Run) : Run :=
  {| store := store r; calls := calls r;
     counters := fun k' => if Counter_eqb k k' then counters r k' + n else counters r k' |}.

Definition onStore (f : Store -> Store) (r : Run) : Run :=
  {| store := f (store r); calls := calls r; counters := counters r |}.

Definition called (r : Run) : Run :=
  {| store := store r; calls := S (calls r); counters := counters r |}.

Definition lenZ {A} (l : list A) : Z := Z.of_nat (length l).

(* The row written for an attempt through a channel provider. *)
Definition deliveryLog (s : SavedSearch) (alertId : option Z) (c : Channel) (kind : AlertKind)
    (result : ProviderResult) (subject payload : string) (now : Z) : AlertDeliveryLog :=
  {| log_userId := userId s;
     log_alertId := alertId;
     log_savedSearchId := search_id s;
     log_channel := c;
     log_kind := kind;
     log_provider := provider result;
     log_providerMessageId := providerMessageId result;
     log_accepted := accepted result;
     log_recipient := user_email s;
     log_subject := subject;
     log_payload := payload;
     log_deliveredAt := now |}.

(* The row written for an alert delivered inside the application. *)
Definition inAppLog (s : SavedSearch) (kind : AlertKind) (subject payload : string) (now : Z)
    (alert : JobAlert) : AlertDeliveryLog :=
  {| log_userId := userId s;
     log_alertId := Some (alert_id alert);
     log_savedSearchId := search_id s;
     log_channel := InApp;
     log_kind := kind;
     log_provider := "in_app";
     log_providerMessageId := None;
     log_accepted := true;
     log_recipient := "user:" +:+ userId s;
     log_subject := subject;
     log_payload := payload;
     log_deliveredAt := now |}.

Definition createInternalDeliveryLogs (s : SavedSearch) (alerts : list JobAlert) (now : Z)
    (kind : AlertKind) (subject payload : string) (st : Store) : Z * Store :=
  let data := List.map (inAppLog s kind subject payload now) alerts in
  match data with
  | [] => (0, st)
  | _ => (lenZ data, createLogs data st)
  end.

Record PushOutcome := {
  po_accepted : bool;
  po_deliveredAlerts : Z;
  po_failedAttempts : Z;
  po_logsCreated : Z
}.

Definition deliverPushDigest (w : World) (s : SavedSearch) (alerts : list JobAlert) (now : Z)
    (cadence : DigestCadence) (r : Run) : PushOutcome * Run :=
  match alerts with
  | [] =>
      ({| po_accepted := true; po_deliveredAlerts := 0; po_failedAttempts := 0;
          po_logsCreated := 0 |}, r)
  | _ :: _ =>
      let subject :=
        "Faypath " +:+ match cadence with weekly => "weekly" | _ => "daily" end +:+
        " push digest" in
      let payload := pushDigestBody (label s) alerts cadence in
      let result :=
        sendIntegrationPush w (calls r)
          {| recipient := user_email s; push_title := subject; body := payload;
             data := DigestData (search_id s) (List.map alert_id alerts) cadence |} in
      let r := called r in
      let r := onStore (createLogs
                 [deliveryLog s None Push KindDigest result subject payload now]) r in
      let r :=
        if accepted result
        then onStore (updateAlerts (List.map alert_id alerts) Push now) r else r in
      ({| po_accepted := accepted result;
          po_deliveredAlerts := if accepted result then lenZ alerts else 0;
          po_failedAttempts := if accepted result then 0 else 1;
          po_logsCreated := 1 |}, r)
  end.

(* One iteration of the loop of [deliverPushInstantPerAlert]; the three
   local tallies travel in the outcome. *)
Definition pushOneAlert (w : World) (s : SavedSearch) (now : Z)
    (acc : PushOutcome * Run) (alert : JobAlert) : PushOutcome * Run :=
  let '(o, r) := acc in
  let subject := "Faypath match: " +:+ title (job alert) in
  let payload := pushBodyForAlert alert (label s) in
  let result :=
    sendIntegrationPush w (calls r)
      {| recipient := user_email s; push_title := subject; body := payload;
         data := InstantData (search_id s) (alert_id alert) (title (job alert)) |} in
  let r := called r in
  let r := onStore (createLogs
             [deliveryLog s (Some (alert_id alert)) Push KindInstant result subject payload
                          now]) r in
  if accepted result then
    ({| po_accepted := po_accepted o;
        po_deliveredAlerts := po_deliveredAlerts o + 1;
        po_failedAttempts := po_failedAttempts o;
        po_logsCreated := po_logsCreated o + 1 |},
     onStore (updateAlerts [alert_id alert] Push now) r)
  else
    ({| po_accepted := po_accepted o;
        po_deliveredAlerts := po_deliveredAlerts o;
        po_failedAttempts := po_failedAttempts o + 1;
        po_logsCreated := po_logsCreated o + 1 |}, r).

Definition deliverPushInstantPerAlert (w : World) (s : SavedSearch) (alerts : list JobAlert)
    (now : Z) (r : Run) : PushOutcome * Run :=
  fold_left (pushOneAlert w s now) alerts
    ({| po_accepted := true; po_deliveredAlerts := 0; po_failedAttempts := 0;
        po_logsCreated := 0 |}, r).

(* One iteration of the instant e-mail loop of [runAlertDeliveryJob]. *)
Definition emailOneAlert (w : World) (s : SavedSearch) (now : Z) (r : Run) (alert : JobAlert)
  : Run :=
  let subject := subjectForInstant (title (job alert)) (company (job alert)) in
  let payload := payloadForInstant alert in
  let r := add attemptedDeliveries 1 r in
  let emailResult :=
    sendIntegrationEmail w (calls r)
      {| to := user_email s; subject := subject; text := payload |} in
  let r := called r in
  let r := onStore (createLogs
             [deliveryLog s (Some (alert_id alert)) Email KindInstant emailResult subject
                          payload now]) r in
  let r := add logsCreated 1 r in
  if accepted emailResult then
    let r := onStore (updateAlerts [alert_id alert] Email now) r in
    let r := add alertsDelivered 1 r in
    let r := add instantAlertsDelivered 1 r in
    add emailChannelDelivered 1 r
  else add failedDeliveries 1 r.

Definition instantInApp (s : SavedSearch) (pending : list JobAlert) (now : Z) (r : Run) : Run :=
  match pending with
  | [] => r
  | _ :: _ =>
      let n := lenZ pending in
      let r := add attemptedDeliveries n r in
      let '(created, st) :=
        createInternalDeliveryLogs s pending now KindInstant
          ("In-app match alerts: " +:+ label s)
          ("Delivered " +:+ Js.showZ n +:+ " instant in-app alerts.") (store r) in
      let r := onStore (fun _ => st) r in
      let r := add logsCreated created r in
      let r := add inAppChannelDelivered n r in
      let r := add alertsDelivered n r in
      let r := add instantAlertsDelivered n r in
      onStore (updateAlerts (List.map alert_id pending) InApp now) r
  end.

Definition instantPush (w : World) (s : SavedSearch) (pending : list JobAlert) (now : Z)
    (r : Run) : Run :=
  match pending with
  | [] => r
  | _ :: _ =>
      if pushDeferred s then
        let r := add attemptedDeliveries 1 r in
        let '(result, r) := deliverPushDigest w s pending now instant r in
        let r := add logsCreated (po_logsCreated result) r in
        let r := add failedDeliveries (po_failedAttempts result) r in
        let r := add pushChannelDelivered (po_deliveredAlerts result) r in
        let r := add alertsDelivered (po_deliveredAlerts result) r in
        add digestAlertsDelivered (po_deliveredAlerts result) r
      else
        let r := add attemptedDeliveries (lenZ pending) r in
        let '(result, r) := deliverPushInstantPerAlert w s pending now r in
        let r := add logsCreated (po_logsCreated result) r in
        let r := add failedDeliveries (po_failedAttempts result) r in
        let r := add pushChannelDelivered (po_deliveredAlerts result) r in
        let r := add alertsDelivered (po_deliveredAlerts result) r in
        add instantAlertsDelivered (po_deliveredAlerts result) r
  end.

Definition digestEmail (w : World) (s : SavedSearch) (cadence : DigestCadence)
    (pending : list JobAlert) (now : Z) (r : Run) : Run :=
  match pending with
  | [] => r
  | _ :: _ =>
      let digestSubject := subjectForDigest (label s) cadence (lenZ pending) in
      let digestPayload := payloadForDigest (label s) cadence pending in
      let r := add attemptedDeliveries 1 r in
      let emailResult :=
        sendIntegrationEmail w (calls r)
          {| to := user_email s; subject := digestSubject; text := digestPayload |} in
      let r := called r in
      let r := onStore (createLogs
                 [deliveryLog s None Email KindDigest emailResult digestSubject
                              digestPayload now]) r in
      let r := add logsCreated 1 r in
      if accepted emailResult then
        let r := onStore (updateAlerts (List.map alert_id pending) Email now) r in
        let r := add alertsDelivered (lenZ pending) r in
        let r := add digestAlertsDelivered (lenZ pending) r in
        let r := add emailChannelDelivered (lenZ pending) r in
        add digestRuns 1 r
      else add failedDeliveries 1 r
  end.

Definition digestInApp (s : SavedSearch) (cadence : DigestCadence) (pending : list JobAlert)
    (now : Z) (r : Run) : Run :=
  match pending with
  | [] => r
  | _ :: _ =>
      let r := add attemptedDeliveries 1 r in
      let '(created, st) :=
        createInternalDeliveryLogs s pending now KindDigest
          ("In-app digest: " +:+ label s)
          (payloadForDigest (label s) cadence pending) (store r) in
      let r := onStore (fun _ => st) r in
      let r := add logsCreated created r in
      let r := add inAppChannelDelivered (lenZ pending) r in
      let r := add alertsDelivered (lenZ pending) r in
      let r := add digestAlertsDelivered (lenZ pending) r in
      onStore (updateAlerts (List.map alert_id pending) InApp now) r
  end.

Definition digestPush (w : World) (s : SavedSearch) (cadence : DigestCadence)
    (pending : list JobAlert) (now : Z) (r : Run) : Run :=
  match pending with
  | [] => r
  | _ :: _ =>
      let r := add attemptedDeliveries 1 r in
      let '(result, r) := deliverPushDigest w s pending now cadence r in
      let r := add logsCreated (po_logsCreated result) r in
      let r := add failedDeliveries (po_failedAttempts result) r in
      let r := add pushChannelDelivered (po_deliveredAlerts result) r in
      let r := add alertsDelivered (po_deliveredAlerts result) r in
      add digestAlertsDelivered (po_deliveredAlerts result) r
  end.

(* The body of the [for (const search of searches)] loop. *)
Definition processSearch (w : World) (now : Z) (r : Run) (sw : SavedSearchWithPendingAlerts)
  : Run :=
  let s := search sw in
  let r := add searchesScanned 1 r in
  let channelCounts := channelPendingCounts sw in
  if pendingUniqueCount channelCounts =? 0 then r
  else
    let cadence := normalizeCadence (search_digestCadence s) in
    match cadence with
    | instant =>
        let r := fold_left (emailOneAlert w s now) (emailAlerts channelCounts) r in
        let r := instantInApp s (inAppAlerts channelCounts) now r in
        instantPush w s (pushAlerts channelCounts) now r
    | _ =>
        if negb (isDigestDue w cadence (digestHour s) (lastDigestAt s) now) then
          add waitingDigestSearches 1 r
        else
          let r := digestEmail w s cadence (emailAlerts channelCounts) now r in
          let r := digestInApp s cadence (inAppAlerts channelCounts) now r in
          let r := digestPush w s cadence (pushAlerts channelCounts) now r in
          onStore (updateSearchDigest (search_id s) now) r
    end.

Record ChannelDeliveries := {
  cd_email : Z;
  cd_inApp : Z;
  cd_push : Z
}.

Record AlertDeliveryRunSummary := {
  rs_scope : DeliveryScope;
  rs_runAt : Z;
  rs_searchesScanned : Z;
  rs_attemptedDeliveries : Z;
  rs_alertsDelivered : Z;
  rs_instantAlertsDelivered : Z;
  rs_digestAlertsDelivered : Z;
  rs_failedDeliveries : Z;
  rs_digestRuns : Z;
  rs_logsCreated : Z;
  rs_waitingDigestSearches : Z;
  rs_channelDeliveries : ChannelDeliveries
}.

Definition summaryOf (sc : DeliveryScope) (now : Z) (c : Counter -> Z)
  : AlertDeliveryRunSummary :=
  {| rs_scope := sc;
     rs_runAt := now;
     rs_searchesScanned := c searchesScanned;
     rs_attemptedDeliveries := c attemptedDeliveries;
     rs_alertsDelivered := c alertsDelivered;
     rs_instantAlertsDelivered := c instantAlertsDelivered;
     rs_digestAlertsDelivered := c digestAlertsDelivered;
     rs_failedDeliveries := c failedDeliveries;
     rs_digestRuns := c digestRuns;
     rs_logsCreated := c logsCreated;
     rs_waitingDigestSearches := c waitingDigestSearches;
     rs_channelDeliveries :=
       {| cd_email := c emailChannelDelivered;
          cd_inApp := c inAppChannelDelivered;
          cd_push := c pushChannelDelivered |} |}.

(* The loop of [runAlertDeliveryJob] over the searches fetched at its start. *)
Definition runLoop (w : World) (now : Z) (searches : list SavedSearchWithPendingAlerts)
    (st : Store) : Run :=
  fold_left (processSearch w now) searches
            {| store := st; calls := 0%nat; counters := fun _ => 0 |}.

Definition runAlertDeliveryJob (w : World) (sc : DeliveryScope) (userId' : option string)
    (now : Z) (st : Store) : AlertDeliveryRunSummary * Store :=
  let r := runLoop w now (fetchPendingSearches userId' st) st in
  (summaryOf sc now (counters r), store r).

Record AlertDeliveryPreview := {
  pv_scope : DeliveryScope;
  pendingAlerts : Z;
  pendingEmailAlerts : Z;
  pendingInAppAlerts : Z;
  pendingPushAlerts : Z;
  pendingInstantAlerts : Z;
  dueDigestSearches : Z;
  pv_waitingDigestSearches : Z
}.

(* The body of the preview loop: the running totals are the preview itself. *)
Definition previewSearch (w : World) (now : Z) (p : AlertDeliveryPreview)
    (sw : SavedSearchWithPendingAlerts) : AlertDeliveryPreview :=
  let channelCounts := channelPendingCounts sw in
  if pendingUniqueCount channelCounts =? 0 then p
  else
    let cadence := normalizeCadence (search_digestCadence (search sw)) in
    let isInstant := match cadence with instant => true | _ => false end in
    let due :=
      isDigestDue w cadence (digestHour (search sw)) (lastDigestAt (search sw)) now in
    {| pv_scope := pv_scope p;
       pendingAlerts := pendingAlerts p + pendingUniqueCount channelCounts;
       pendingEmailAlerts := pendingEmailAlerts p + lenZ (emailAlerts channelCounts);
       pendingInAppAlerts := pendingInAppAlerts p + lenZ (inAppAlerts channelCounts);
       pendingPushAlerts := pendingPushAlerts p + lenZ (pushAlerts channelCounts);
       pendingInstantAlerts :=
         if isInstant then pendingInstantAlerts p + pendingUniqueCount channelCounts
         else pendingInstantAlerts p;
       dueDigestSearches :=
         if negb isInstant && due then dueDigestSearches p + 1 else dueDigestSearches p;
       pv_waitingDigestSearches :=
         if negb isInstant && negb due then pv_waitingDigestSearches p + 1
         else pv_waitingDigestSearches p |}.

Definition getAlertDeliveryPreview (w : World) (sc : DeliveryScope) (userId' : option string)
    (now : Z) (st : Store) : AlertDeliveryPreview :=
  fold_left (previewSearch w now) (fetchPendingSearches userId' st)
    {| pv_scope := sc; pendingAlerts := 0; pendingEmailAlerts := 0;
       pendingInAppAlerts := 0; pendingPushAlerts := 0; pendingInstantAlerts := 0;
       dueDigestSearches := 0; pv_waitingDigestSearches := 0 |}.

End Alerts.

(** ** lib/rate-limit: fixed-window request throttling *)

Module RateLimit.

Record Bucket := {
  count : Z;
  bucket_resetAt : Z
}.

Record RateLimitResult := {
  namespace : string;
  identifier : string;
  limit : Z;
  remaining : Z;
  resetAt : Z;
  retryAfterSeconds : Z;
  allowed : bool
}.

(* [globalThis.__faypathRateLimits]: a store of buckets per namespace. *)
Abbreviation Root := (gmap string (gmap string Bucket)).

(* [namespaceStore]: the store of a namespace, created empty on first use. *)
Definition namespaceStore (ns : string) (root : Root) : gmap string Bucket :=
  default ∅ (root !! ns).

Definition expired (now : Z) (bucket : Bucket) : bool := bucket_resetAt bucket <=? now.

(* Stores of fewer than 500 buckets are left alone; larger ones lose
   every bucket whose window is over. *)
Definition cleanupExpired (store : gmap string Bucket) (now : Z) : gmap string Bucket :=
  if (size store <? 500)%nat then store
  else filter (fun kb => expired now kb.2 = false) store.

Record ConsumeInput := {
  in_namespace : string;
  in_identifier : string;
  in_limit : Q;
  in_windowMs : Q
}.

(* [Math.ceil(ms / 1000)] on whole milliseconds. *)
Definition ceilSeconds (ms : Z) : Z := - ((- ms) / 1000).

(* [now] is the reading of [Date.now()]. The mutated store is written
   back under its namespace. *)
Definition consumeRateLimit (input : ConsumeInput) (now : Z) (root : Root)
  : RateLimitResult * Root :=
  let limit := Z.max 1 (Qfloor (in_limit input)) in
  let windowMs := Z.max 1000 (Qfloor (in_windowMs input)) in
  let identifier :=
    if Js.isEmpty (Js.trim (in_identifier input)) then "unknown"
    else Js.trim (in_identifier input) in
  let store := cleanupExpired (namespaceStore (in_namespace input) root) now in
  let fresh :=
    let resetAt := now + windowMs in
    ({| namespace := in_namespace input;
        identifier := identifier;
        limit := limit;
        remaining := Z.max 0 (limit - 1);
        resetAt := resetAt;
        retryAfterSeconds := Z.max 1 (ceilSeconds windowMs);
        allowed := true |},
     <[in_namespace input :=
         <[identifier := {| count := 1; bucket_resetAt := resetAt |}]> store]> root) in
  match store !! identifier with
  | None => fresh
  | Some existing =>
      if expired now existing then fresh
      else if limit <=? count existing then
        ({| namespace := in_namespace input;
            identifier := identifier;
            limit := limit;
            remaining := 0;
            resetAt := bucket_resetAt existing;
            retryAfterSeconds := Z.max 1 (ceilSeconds (bucket_resetAt existing - now));
            allowed := false |},
         <[in_namespace input := store]> root)
      else
        let existing' :=
          {| count := count existing + 1; bucket_resetAt := bucket_resetAt existing |} in
        ({| namespace := in_namespace input;
            identifier := identifier;
            limit := limit;
            remaining := Z.max 0 (limit - count existing');
            resetAt := bucket_resetAt existing';
            retryAfterSeconds := Z.max 1 (ceilSeconds (bucket_resetAt existing' - now));
            allowed := true |},
         <[in_namespace input := <[identifier := existing']> store]> root)
  end.

(* The values of the four throttle headers. *)
Record RateLimitHeaders := {
  xRateLimitLimit : string;
  xRateLimitRemaining : string;
  xRateLimitReset : string;
  retryAfter : string
}.

Definition rateLimitHeaders (result : RateLimitResult) : RateLimitHeaders :=
  {| xRateLimitLimit := Js.showZ (limit result);
     xRateLimitRemaining := Js.showZ (remaining result);
     xRateLimitReset := Js.showZ (resetAt result / 1000);
     retryAfter := Js.showZ (retryAfterSeconds result) |}.







End RateLimit.

(** ** lib/pipeline-automation: applying the recommendations *)

Module PipelineRun.
Import Pipeline.

(* An [AppStatus] is the text the table stores. *)
Definition statusText (s : AppStatus) : string :=
  match s with
  | Applied => "Applied"
  | Interview => "Interview"
  | Offer => "Offer"
  | Rejected => "Rejected"
  end.

(* The two tables the run writes to. *)
Record Tables := {
  applicationTable : list ApplicationRow;
  interviewTable : list InterviewRow
}.

Record PipelineAutomationRunResult := {
  run_scope : PipelineScope;
  runAt : Z;
  recommendationsConsidered : Z;
  rebalanceConsidered : Z;
  appliedStatusUpdates : Z;
  movedInterviews : Z
}.

(* [Number.isFinite(x) ? Math.max(0, Math.floor(x ?? 0)) : fallback];
   [None] stands for a limit that is absent or not finite. *)
Definition resolveLimit (value : option Q) (fallback : Z) : Z :=
  match value with
  | Some x => Z.max 0 (Qfloor x)
  | None => fallback
  end.

Definition withStatus (row : ApplicationRow) (s : string) : ApplicationRow :=
  {| app_id := app_id row;
     app_status := s;
     app_appliedAt := app_appliedAt row;
     app_userEmail := app_userEmail row;
     app_job := app_job row |}.

Definition withOwner (row : InterviewRow) (o : string) : InterviewRow :=
  {| interview_id := interview_id row;
     person := person row;
     owner := o;
     time := time row |}.

(* [where: { id, status }] *)
Definition applicationMatches (r : PipelineStageRecommendation) (row : ApplicationRow) : bool :=
  (app_id row =? applicationId r) &&
  String.eqb (app_status row) (statusText (currentStatus r)).

(* [where: { id, owner }] *)
Definition interviewMatches (s : InterviewRebalanceSuggestion) (row : InterviewRow) : bool :=
  (interview_id row =? rs_interviewId s) && String.eqb (owner row) (rs_currentOwner s).

(* [prisma.application.updateMany]: the number of rows matched, and the table after. *)
Definition updateApplications (r : PipelineStageRecommendation) (table : list ApplicationRow)
  : Z * list ApplicationRow :=
  (Z.of_nat (length (List.filter (applicationMatches r) table)),
   List.map (fun row =>
               if applicationMatches r row
               then withStatus row (statusText (recommendedStatus r)) else row) table).

Definition updateInterviews (s : InterviewRebalanceSuggestion) (table : list InterviewRow)
  : Z * list InterviewRow :=
  (Z.of_nat (length (List.filter (interviewMatches s) table)),
   List.map (fun row =>
               if interviewMatches s row then withOwner row (rs_suggestedOwner s) else row)
            table).

(* One of the two [for] loops: the running count and the table. *)
Definition applyAll {T R} (update : T -> list R -> Z * list R) (targets : list T)
    (table : list R) : Z * list R :=
  fold_left (fun acc target =>
               let '(n, rows) := update target (snd acc) in (fst acc + n, rows))
            targets (0, table).

(* [now] is the time of the run and [snapshotNow] the time of the snapshot
   it takes; [jobs], [applications] and [upcomingInterviews] are the results
   of the snapshot's queries. *)
Definition runPipelineAutomation (sc : PipelineScope) (now snapshotNow : Z)
    (jobs : list JobRow) (applications : list ApplicationRow)
    (upcomingInterviews : list InterviewRow)
    (applyLimit rebalanceLimit : option Q) (tables : Tables)
  : PipelineAutomationRunResult * Tables :=
  let snapshot :=
    getPipelineAutomationSnapshot sc snapshotNow jobs applications upcomingInterviews in
  let applyLimit := resolveLimit applyLimit 3 in
  let rebalanceLimit := resolveLimit rebalanceLimit 2 in
  let recommendationTargets := firstn (Z.to_nat applyLimit) (recommendations snapshot) in
  let rebalanceTargets := firstn (Z.to_nat rebalanceLimit) (rebalanceSuggestions snapshot) in
  let '(appliedStatusUpdates, applicationRows) :=
    applyAll updateApplications recommendationTargets (applicationTable tables) in
  let '(movedInterviews, interviewRows) :=
    applyAll updateInterviews rebalanceTargets (interviewTable tables) in
  ({| run_scope := sc;
      runAt := now;
      recommendationsConsidered := Z.of_nat (length recommendationTargets);
      rebalanceConsidered := Z.of_nat (length rebalanceTargets);
      appliedStatusUpdates := appliedStatusUpdates;
      movedInterviews := movedInterviews |},
   {| applicationTable := applicationRows; interviewTable := interviewRows |}).

End PipelineRun.

(** ** app/api/alerts/delivery/route.ts: the delivery endpoint *)

Module DeliveryRoute.
Import Alerts.

Record Session := {
  session_userId : string;
  session_role : string
}.

(* [scope] is the parameter or body member when it is a string. *)
Definition resolveScope (scope : option string) : DeliveryScope :=
  match scope with
  | Some s => if String.eqb s "all" then all else self
  | None => self
  end.

Inductive ResponseBody :=
| ErrorBody (error : string)
| PreviewBody (preview : AlertDeliveryPreview)
| SummaryBody (result : AlertDeliveryRunSummary).

Record Response := {
  resp_body : ResponseBody;
  resp_status : Z
}.

Definition json (body : ResponseBody) (status : Z) : Response :=
  {| resp_body := body; resp_status := status |}.

(* [session?.user?.id] when it is truthy. *)
Definition sessionUserId (session : option Session) : option string :=
  match session with
  | Some s => if Js.isEmpty (session_userId s) then None else Some (session_userId s)
  | None => None
  end.

Definition isAdmin (session : option Session) : bool :=
  match session with
  | Some s => String.eqb (session_role s) "ADMIN"
  | None => false
  end.

Definition isAll (scope : DeliveryScope) : bool :=
  match scope with all => true | self => false end.

(* [scope === "all" ? undefined : session.user.id] *)
Definition scopedUserId (scope : DeliveryScope) (uid : string) : option string :=
  if isAll scope then None else Some uid.

Definition GET (w : World) (session : option Session) (scopeParam : option string)
    (now : Z) (st : Store) : Response :=
  match sessionUserId session with
  | None => json (ErrorBody "Authentication required") 401
  | Some uid =>
      let scope := resolveScope scopeParam in
      if isAll scope && negb (isAdmin session) then
        json (ErrorBody "Admin access required for scope=all") 403
      else
        json (PreviewBody (getAlertDeliveryPreview w scope (scopedUserId scope uid) now st)) 200
  end.

(* What [await req.json().catch(() => ({}))] gives: the empty object when
   the text of the request is not JSON; [null]; or another value, of which
   the handler reads the member [scope], here when it is a string. *)
Inductive RawBody :=
| BodyUnreadable
| BodyNull
| BodyValue (scope : option string).

(* How a call of the handler ends: with a response, or with an exception
   that the handler does not catch. *)
Inductive Outcome :=
| Answered (response : Response)
| Thrown.

(* [body.scope]: reading a member of [null] throws. *)
Definition bodyScope (body : RawBody) : option (option string) :=
  match body with
  | BodyUnreadable => Some None
  | BodyNull => None
  | BodyValue scope => Some scope
  end.

Definition POST (w : World) (session : option Session) (body : RawBody)
    (now : Z) (st : Store) : Outcome * Store :=
  match sessionUserId session with
  | None => (Answered (json (ErrorBody "Authentication required") 401), st)
  | Some uid =>
      match bodyScope body with
      | None => (Thrown, st)
      | Some requested =>
          let scope := resolveScope requested in
          if isAll scope && negb (isAdmin session) then
            (Answered (json (ErrorBody "Admin access required for scope=all") 403), st)
          else
            let '(result, st') :=
              runAlertDeliveryJob w scope (scopedUserId scope uid) now st in
            (Answered (json (SummaryBody result) 200), st')
      end
  end.

End DeliveryRoute.

(** ** Auxiliary definitions used to state the properties *)

Module Props.
Import ListCodec.

Fixpoint allChars (p : ascii -> bool) (s : string) : bool :=
  match s with
  | EmptyString => true
  | String c r => p c && allChars p r
  end.

(* The accumulators of the risk rules as [evaluateApplication] runs them. *)
Definition rawRisk (input : Scoring.ScoringInput) : Scoring.Risk :=
  Scoring.riskRules input
    (Scoring.lenZ (parseUniqueList (Scoring.requiredScreeners (Scoring.job input)))).

(* The same submission by an account created at [t]. *)
Definition withCreatedAt (t : Z) (input : Scoring.ScoringInput) : Scoring.ScoringInput :=
  {| Scoring.job := Scoring.job input;
     Scoring.user :=
       {| Scoring.profileSkills := Scoring.profileSkills (Scoring.user input);
          Scoring.profileCompleteness := Scoring.profileCompleteness (Scoring.user input);
          Scoring.createdAt := t;
          Scoring.email := Scoring.email (Scoring.user input);
          Scoring.isFlagged := Scoring.isFlagged (Scoring.user input) |};
     Scoring.answers := Scoring.answers input;
     Scoring.recentApplicationCount := Scoring.recentApplicationCount input;
     Scoring.priorFraudEventsForIp := Scoring.priorFraudEventsForIp input;
     Scoring.now := Scoring.now input |}.

(* The same submission by an account that is one hour old. *)
Definition matured (input : Scoring.ScoringInput) : Scoring.ScoringInput :=
  withCreatedAt (Scoring.now input - 3600000) input.

(* Screener matching as the specification words it: some answer equals
   or begins with "yes", or contains one of the first 8 prompt tokens. *)
Definition claimedPromptPass (prompt : string) (answers : list Scoring.ScreenerAnswer) : bool :=
  existsb (fun entry =>
    let a := normalizeToken (Scoring.answer entry) in
    String.eqb a "yes" || Js.startsWith a "yes" ||
    existsb (fun token => Js.includes a token) (firstn 8 (Scoring.tokenize prompt)))
    answers.

End Props.

Module PipelineProps.
Import Pipeline.

(* The number of upcoming interviews of an owner: the size of the pool
   that the rebalancing loop builds for that owner. *)
Definition scheduledCount (o : string) (upcomingInterviews : list InterviewRow) : nat :=
  length (List.filter (fun i => String.eqb (owner i) o) upcomingInterviews).

(* The [interviewsByOwner] map when only the owners [a] and [b] occur,
   with [ca] and [cb] interviews seen so far. *)
Definition twoOwnerMap (a b : string) (m : list (string * OwnerLoad)) (ca cb : Z) : Prop :=
  (m = [] /\ ca = 0 /\ cb = 0) \/
  (exists n, m = [(a, {| scheduled := ca; nextInterviewAt := n |})] /\ 0 < ca /\ cb = 0) \/
  (exists n, m = [(b, {| scheduled := cb; nextInterviewAt := n |})] /\ ca = 0 /\ 0 < cb) \/
  (exists n n', m = [(a, {| scheduled := ca; nextInterviewAt := n |});
                     (b, {| scheduled := cb; nextInterviewAt := n' |})] /\ 0 < ca /\ 0 < cb) \/
  (exists n n', m = [(b, {| scheduled := cb; nextInterviewAt := n' |});
                     (a, {| scheduled := ca; nextInterviewAt := n |})] /\ 0 < ca /\ 0 < cb).

Definition move (i : InterviewRow) (a b : string) (from to' : Z)
  : InterviewRebalanceSuggestion :=
  {| rs_interviewId := interview_id i;
     rs_person := person i;
     rs_currentOwner := a;
     rs_suggestedOwner := b;
     rs_time := time i;
     rs_reason :=
       "Reduce interviewer load from " +:+ Js.showZ from +:+ " to " +:+ Js.showZ (from - 1) +:+
       ", and raise " +:+ b +:+ " from " +:+ Js.showZ to' +:+ " to " +:+
       Js.showZ (to' + 1) +:+ "." |}.

End PipelineProps.

Module AlertProps.
Import Alerts.

(* Primary keys are unique. *)
Definition wfStore (st : Store) : Prop :=
  List.NoDup (List.map alert_id (jobAlerts st)) /\
  List.NoDup (List.map search_id (savedSearches st)).

Definition enabledOn (c : Channel) (s : SavedSearch) : bool :=
  match c with
  | Email => emailEnabled s
  | InApp => inAppEnabled s
  | Push => pushEnabled s
  end.

(* A channel is pending for an alert when it is enabled on the owning
   saved search and its sent timestamp is null. *)
Definition pendingFor (c : Channel) (s : SavedSearch) (a : JobAlert) : Prop :=
  alert_savedSearchId a = search_id s /\ enabledOn c s = true /\ sentAt c a = None.

Definition pendingOn (c : Channel) (sw : SavedSearchWithPendingAlerts) : list JobAlert :=
  match c with
  | Email => emailAlerts (channelPendingCounts sw)
  | InApp => inAppAlerts (channelPendingCounts sw)
  | Push => pushAlerts (channelPendingCounts sw)
  end.

(* A delivery-log row covers an alert on a channel: it is a row of that
   channel and of the alert's saved search, written for that alert or,
   without an alert id, for the whole batch. *)
Definition covers (c : Channel) (a : JobAlert) (log : AlertDeliveryLog) : bool :=
  Channel_eqb (log_channel log) c &&
  (log_savedSearchId log =? alert_savedSearchId a) &&
  match log_alertId log with
  | None => true
  | Some i => i =? alert_id a
  end.


Definition acceptedIn (c : Channel) (a : JobAlert) (logs : list AlertDeliveryLog) : bool :=
  existsb (fun log => log_accepted log && covers c a log) logs.

(* The timestamp of a channel after a run that wrote [logs]. *)
Definition stamped (now : Z) (logs : list AlertDeliveryLog) (a : JobAlert) (c : Channel)
  : option Z :=
  if isNull (sentAt c a) && acceptedIn c a logs then Some now else sentAt c a.

Definition stampAll (now : Z) (logs : list AlertDeliveryLog) (a : JobAlert) : JobAlert :=
  {| alert_id := alert_id a;
     alert_savedSearchId := alert_savedSearchId a;
     reason := reason a;
     emailSentAt := stamped now logs a Email;
     inAppSentAt := stamped now logs a InApp;
     pushSentAt := stamped now logs a Push;
     job := job a |}.

Definition touch (now : Z) (digested : list Z) (s : SavedSearch) : SavedSearch :=
  if memZ (search_id s) digested then setLastDigestAt now s else s.

Definition cadenceOf (sw : SavedSearchWithPendingAlerts) : DigestCadence :=
  normalizeCadence (search_digestCadence (search sw)).

Definition isInstant (sw : SavedSearchWithPendingAlerts) : bool :=
  match cadenceOf sw with instant => true | _ => false end.

Definition hasPending (sw : SavedSearchWithPendingAlerts) : bool :=
  negb (pendingUniqueCount (channelPendingCounts sw) =? 0).

Definition dueNow (w : World) (now : Z) (sw : SavedSearchWithPendingAlerts) : bool :=
  isDigestDue w (cadenceOf sw) (digestHour (search sw)) (lastDigestAt (search sw)) now.

(* The search is a digest search with pending alerts whose digest is due. *)
Definition dueDigest (w : World) (now : Z) (sw : SavedSearchWithPendingAlerts) : bool :=
  hasPending sw && negb (isInstant sw) && dueNow w now sw.

(* The run delivers for this search: pending alerts, and instant or due. *)
Definition delivers (w : World) (now : Z) (sw : SavedSearchWithPendingAlerts) : bool :=
  hasPending sw && (isInstant sw || dueNow w now sw).

(* The acceptance a row records is the provider's: the answer of the
   e-mail or push provider to some call of the run, or, for the in-app
   channel, which has no provider, acceptance itself. *)
Definition providerAnswer (w : World) (log : AlertDeliveryLog) : Prop :=
  match log_channel log with
  | Email =>
      exists n input,
        log_accepted log = accepted (sendIntegrationEmail w n input) /\
        log_provider log = provider (sendIntegrationEmail w n input)
  | Push =>
      exists n input,
        log_accepted log = accepted (sendIntegrationPush w n input) /\
        log_provider log = provider (sendIntegrationPush w n input)
  | InApp => log_accepted log = true
  end.

(* The rows a run writes for one channel of one search, given the alerts
   pending on it: rows of that channel and search, each for one of the
   alerts or for the batch and carrying the provider's answer, and every
   alert has its row. *)
Definition ChannelLogs (w : World) (c : Channel) (s : SavedSearch) (pending : list JobAlert)
    (logs : list AlertDeliveryLog) : Prop :=
  (forall log, In log logs ->
     log_channel log = c /\ log_savedSearchId log = search_id s /\
     (log_alertId log = None \/
      exists x, In x pending /\ log_alertId log = Some (alert_id x)) /\
     providerAnswer w log) /\
  (forall x, In x pending ->
     exists log, In log logs /\
       (log_alertId log = None \/ log_alertId log = Some (alert_id x))) /\
  (pending = [] -> logs = []).

(* The rows a run writes for one search. *)
Definition SearchLogs (w : World) (now : Z) (sw : SavedSearchWithPendingAlerts)
    (logs : list AlertDeliveryLog) : Prop :=
  if delivers w now sw then
    exists le li lp,
      logs = le ++ li ++ lp /\
      ChannelLogs w Email (search sw) (pendingOn Email sw) le /\
      ChannelLogs w InApp (search sw) (pendingOn InApp sw) li /\
      (List.map log_alertId li =
         List.map (fun a => Some (alert_id a)) (pendingOn InApp sw) /\
       forall log, In log li -> log_accepted log = true) /\
      ChannelLogs w Push (search sw) (pendingOn Push sw) lp
  else logs = [].

(* The state of the store during a run from [st0] that has so far
   written [logs] and stamped the digests of the searches [digested]. *)
Definition DuringRun (now : Z) (st0 : Store) (logs : list AlertDeliveryLog)
    (digested : list Z) (st : Store) : Prop :=
  deliveryLogs st = deliveryLogs st0 ++ logs /\
  jobAlerts st = List.map (stampAll now logs) (jobAlerts st0) /\
  savedSearches st = List.map (touch now digested) (savedSearches st0).

(* The search with the alerts the run fetched for it from [st0]. *)
Definition snapshotOf (st0 : Store) (sw : SavedSearchWithPendingAlerts) : Prop :=
  In (search sw) (savedSearches st0) /\
  alerts sw =
    List.filter (fun a =>
        (alert_savedSearchId a =? search_id (search sw)) &&
        (isNull (emailSentAt a) || isNull (inAppSentAt a) || isNull (pushSentAt a)))
      (jobAlerts st0).

(* The searches a run fetches: those of the user, if one is given, with
   some channel enabled; each with its alerts that still have a null
   timestamp. *)
Definition fetchable (userId' : option string) (s : SavedSearch) : bool :=
  match userId' with
  | Some u => if Js.isEmpty u then true else String.eqb (userId s) u
  | None => true
  end && (emailEnabled s || inAppEnabled s || pushEnabled s).

Definition snapshot (st : Store) (s : SavedSearch) : SavedSearchWithPendingAlerts :=
  {| search := s;
     alerts :=
       List.filter (fun a =>
           (alert_savedSearchId a =? search_id s) &&
           (isNull (emailSentAt a) || isNull (inAppSentAt a) || isNull (pushSentAt a)))
         (jobAlerts st) |}.

Definition oneIf {A} (l : list A) : Z := match l with [] => 0 | _ :: _ => 1 end.

(* The deliveries a run attempts for one search: one per alert for the
   instant e-mail, in-app and push channels, one per deferred push batch
   and one per channel of a due digest. *)
Definition attemptsFor (w : World) (now : Z) (sw : SavedSearchWithPendingAlerts) : Z :=
  if negb (hasPending sw) then 0
  else if isInstant sw then
    lenZ (pendingOn Email sw) + lenZ (pendingOn InApp sw) +
    (if pushDeferred (search sw) then oneIf (pendingOn Push sw)
     else lenZ (pendingOn Push sw))
  else if dueNow w now sw then
    oneIf (pendingOn Email sw) + oneIf (pendingOn InApp sw) + oneIf (pendingOn Push sw)
  else 0.

(* What one search adds to the per-channel pending counts of the preview. *)
Definition pendingRows (sw : SavedSearchWithPendingAlerts) : Z :=
  if hasPending sw
  then lenZ (pendingOn Email sw) + lenZ (pendingOn InApp sw) + lenZ (pendingOn Push sw)
  else 0.

Definition waitsFor (w : World) (now : Z) (sw : SavedSearchWithPendingAlerts) : Z :=
  if hasPending sw && negb (isInstant sw) && negb (dueNow w now sw) then 1 else 0.

Definition channelTotal (p : AlertDeliveryPreview) : Z :=
  pendingEmailAlerts p + pendingInAppAlerts p + pendingPushAlerts p.

(* The in-app rows of one search among the rows of a run. *)
Definition inAppRowOf (id : Z) (log : AlertDeliveryLog) : bool :=
  Channel_eqb (log_channel log) InApp && (log_savedSearchId log =? id).

End AlertProps.

(** ** Concrete stores and requests used as examples *)

Module Examples.
Import Applications.

Definition reactJob : JobRow :=
  {| job_id := 7; job_meritFit := 88;
     job_requiredScreeners := "Do you know React?";
     job_preferredScreeners := "";
     job_requiredSkills := "React"; job_preferredSkills := "";
     job_title := "Frontend engineer"; job_company := "Acme" |}.

Definition flaggedUser : UserRow :=
  {| user_id := "u1"; user_email := "u1@example.com"; user_createdAt := 1000000;
     user_profileSkills := "React"; user_profileCompleteness := 85;
     user_isFlagged := true |}.

Definition earlierApplication : ApplicationRow :=
  {| app_id := 3; jobId := 7; userId := "u1"; status := "Interview"; appliedAt := 500;
     screenerRequiredPassed := true; screenerRequiredScore := 1;
     screenerPreferredScore := 0; autoRankScore := 81;
     matchExplanation := "Passed required screeners (1/1).";
     missingSkills := ""; profileFixSuggestions := "Profile is strong.";
     submittedAnswers := "Do you know React?: yes";
     riskScore := 0; riskFlags := ""; needsManualReview := false;
     sourceIp := "10.0.0.1"; userAgent := None |}.

Definition freshDb : Db :=
  {| jobs := [reactJob]; users := [flaggedUser]; applications := []; fraudEvents := [] |}.

Definition appliedDb : Db :=
  {| jobs := [reactJob]; users := [flaggedUser]; applications := [earlierApplication];
     fraudEvents := [] |}.

Definition candidateSession : Session :=
  {| session_userId := "u1"; session_role := "CANDIDATE" |}.

Definition openThrottle : RateLimitResult :=
  {| limit := 24; remaining := 23; resetAt := 1060000; retryAfterSeconds := 60;
     allowed := true |}.

(* A submission without answers, five minutes after the account was created. *)
Definition hastySubmission : Request :=
  {| throttle := openThrottle;
     session := Some candidateSession;
     body := BodyValue (Some (Whole 7)) None;
     refusedId := fun number => match number with Whole _ => false | Fractional _ => true end;
     clientIdentifier := "10.0.0.1";
     userAgentHeader := None;
     clock := {| velocityNow := 1300000; fraudWindowNow := 1300000;
                 scoringNow := 1300000; fraudEventNow := 1300001;
                 applicationNow := 1300002 |} |}.

(* Two interviewers: Ann with five upcoming interviews, Bob with one. *)
Definition interviewOf (i : Z) (o : string) : Pipeline.InterviewRow :=
  {| Pipeline.interview_id := i; Pipeline.person := "candidate";
     Pipeline.owner := o; Pipeline.time := 1000 + i |}.

Definition annAndBob : list Pipeline.InterviewRow :=
  [ interviewOf 1 "bob"; interviewOf 2 "ann"; interviewOf 3 "ann"; interviewOf 4 "ann";
    interviewOf 5 "ann"; interviewOf 6 "ann" ].

Definition someJob : Pipeline.JobRow :=
  {| Pipeline.job_id := 1; Pipeline.job_title := "Frontend engineer";
     Pipeline.job_company := "Acme"; Pipeline.job_meritFit := 91 |}.

Definition annAndBobSnapshot : Pipeline.PipelineAutomationSnapshot :=
  Pipeline.getPipelineAutomationSnapshot Pipeline.admin 0 [someJob] [] annAndBob.

(* A store with one instant search and one daily digest search, two
   pending alerts each, and the two extreme providers. *)
Definition listedJob : Alerts.JobInfo :=
  {| Alerts.title := "Frontend engineer"; Alerts.company := "Acme";
     Alerts.location := "Remote"; Alerts.salary := "100k"; Alerts.meritFit := 90 |}.

Definition alertOf (i s : Z) : Alerts.JobAlert :=
  {| Alerts.alert_id := i; Alerts.alert_savedSearchId := s; Alerts.reason := "match";
     Alerts.emailSentAt := None; Alerts.inAppSentAt := None; Alerts.pushSentAt := None;
     Alerts.job := listedJob |}.

Definition searchOf (i : Z) (cadence : string) (e a p : bool) : Alerts.SavedSearch :=
  {| Alerts.search_id := i; Alerts.userId := "u1"; Alerts.label := "react jobs";
     Alerts.search_digestCadence := cadence; Alerts.digestHour := 9;
     Alerts.lastDigestAt := None;
     Alerts.emailEnabled := e; Alerts.inAppEnabled := a; Alerts.pushEnabled := p;
     Alerts.pushDeferred := false; Alerts.user_email := "u1@example.com" |}.

Definition instantSearch : Alerts.SavedSearch := searchOf 1 "instant" true true false.
Definition dailySearch : Alerts.SavedSearch := searchOf 2 "daily" true false false.

Definition instantStore : Alerts.Store :=
  {| Alerts.savedSearches := [instantSearch];
     Alerts.jobAlerts := [alertOf 11 1; alertOf 12 1];
     Alerts.deliveryLogs := [] |}.

Definition dailyStore : Alerts.Store :=
  {| Alerts.savedSearches := [dailySearch];
     Alerts.jobAlerts := [alertOf 21 2; alertOf 22 2];
     Alerts.deliveryLogs := [] |}.

Definition utcHours (t : Z) : Z := (t / 3600000) mod 24.

Definition rejected : Alerts.ProviderResult :=
  {| Alerts.provider := "resend"; Alerts.accepted := false;
     Alerts.providerMessageId := None; Alerts.error := Some "Resend API 500" |}.

Definition delivered : Alerts.ProviderResult :=
  {| Alerts.provider := "log"; Alerts.accepted := true;
     Alerts.providerMessageId := Some "log-1"; Alerts.error := None |}.

Definition rejectingWorld : Alerts.World :=
  {| Alerts.getHours := utcHours;
     Alerts.sendIntegrationEmail := fun _ _ => rejected;
     Alerts.sendIntegrationPush := fun _ _ => rejected |}.

Definition acceptingWorld : Alerts.World :=
  {| Alerts.getHours := utcHours;
     Alerts.sendIntegrationEmail := fun _ _ => delivered;
     Alerts.sendIntegrationPush := fun _ _ => delivered |}.

(* Ten o'clock, and one hour later. *)
Definition tenOClock : Z := 10 * 3600000.

Definition instantFetched : Alerts.SavedSearchWithPendingAlerts :=
  {| Alerts.search := instantSearch; Alerts.alerts := [alertOf 11 1; alertOf 12 1] |}.

Definition dailyFetched : Alerts.SavedSearchWithPendingAlerts :=
  {| Alerts.search := dailySearch; Alerts.alerts := [alertOf 21 2; alertOf 22 2] |}.

End Examples.

(** ** Auxiliary definitions for the list codec *)

Module CodecProps.
Import ListCodec.

Definition notListSep (c : ascii) : bool := negb (isListSep c).

(* An entry as the decoder produces it: not empty, without surrounding
   white space and without a separator character. *)
Definition cleanEntry (e : string) : Prop :=
  e <> EmptyString /\ Js.trim e = e /\ Props.allChars notListSep e = true.

(* The keys under which [parseUniqueList] compares entries. *)
Definition keys (entries : list string) : list string := List.map Js.toLowerCase entries.

End CodecProps.

(** ** Auxiliary definitions for the scoring engine *)

Module ScoringProps.
Import ListCodec Scoring.

(* The flags of the risk rules, in the order the rules run. *)
Definition ruleFlags : list string :=
  [ "high_application_velocity"; "extreme_application_velocity"; "new_account";
    "very_new_account"; "ip_history_flagged"; "user_previously_flagged";
    "missing_required_answers" ].

(* The same submission without any answer. *)
Definition withoutAnswers (input : ScoringInput) : ScoringInput :=
  {| job := job input;
     user := user input;
     answers := [];
     recentApplicationCount := recentApplicationCount input;
     priorFraudEventsForIp := priorFraudEventsForIp input;
     now := now input |}.

(* The lower-cased keys of the skills a candidate shows: profile skills
   and the skills drawn from the answers. *)
Definition shownSkillKeys (input : ScoringInput) : list string :=
  CodecProps.keys (parseUniqueList (profileSkills (user input))) ++
  CodecProps.keys (extractSkillsFromAnswers (answers input)).

(* A flagged account, two minutes old, on its thirteenth application. *)
Definition burstInput : ScoringInput :=
  {| job :=
       {| meritFit := 80;
          requiredScreeners := "Do you know React?";
          preferredScreeners := "";
          requiredSkills := "React, SQL";
          preferredSkills := "";
          title := "Engineer";
          company := "Acme" |};
     user :=
       {| profileSkills := "react";
          profileCompleteness := 90;
          createdAt := 0;
          email := "a@b.c";
          isFlagged := true |};
     answers := [];
     recentApplicationCount := 13;
     priorFraudEventsForIp := 0;
     now := 120000 |}.

(* A candidate who shows none of the three required skills. *)
Definition skillGapInput : ScoringInput :=
  {| job :=
       {| meritFit := 70;
          requiredScreeners := "";
          preferredScreeners := "";
          requiredSkills := "React, SQL, Docker";
          preferredSkills := "";
          title := "Engineer";
          company := "Acme" |};
     user :=
       {| profileSkills := "Excel";
          profileCompleteness := 90;
          createdAt := 0;
          email := "a@b.c";
          isFlagged := false |};
     answers := [];
     recentApplicationCount := 0;
     priorFraudEventsForIp := 0;
     now := 360000000 |}.

End ScoringProps.

(** ** Auxiliary definitions for the submission handler *)

Module AppProps.
Import Applications.

(* The pair that identifies an application of a candidate to a job. *)
Definition pairOf (a : ApplicationRow) : string * Z := (userId a, jobId a).

(* No candidate has two applications to one job. *)
Definition onePerPair (db : Db) : Prop :=
  List.NoDup (List.map pairOf (applications db)).

(* The status of an answer; an exception has none. *)
Definition statusOf (outcome : Outcome) : option Z :=
  match outcome with
  | Answered response => Some (resp_status response)
  | Thrown => None
  end.

(* What makes the handler throw: a body that cannot be read as JSON, the
   body [null], or a job id that Prisma refuses. *)
Definition throwsOn (db : Db) (req : Request) : Prop :=
  body req = BodyUnreadable \/ body req = BodyNull \/
  exists number, body_jobId req = Some number /\ lookupJob db number = None /\
                 refusedId req number = true.

(* The status codes the handler answers with. *)
Definition postStatuses : list Z := [200; 201; 400; 401; 403; 404; 429].

(* A screener answer as the handler scores it: both texts present and trimmed. *)
Definition wellFormedAnswer (e : Scoring.ScreenerAnswer) : Prop :=
  Scoring.question e <> EmptyString /\ Scoring.answer e <> EmptyString /\
  Js.trim (Scoring.question e) = Scoring.question e /\
  Js.trim (Scoring.answer e) = Scoring.answer e.

(* The store after the abuse event of a scored submission, if any, is recorded. *)
Definition afterEvent (db : Db) (req : Request) (uid : string) (jid : Z)
    (scoring : Scoring.ApplicationScoringResult) : Db :=
  if 0 <? Scoring.lenZ (Scoring.riskFlags scoring)
  then addFraudEvent (fraudEventFor req uid jid scoring) db else db.

End AppProps.

(** ** Auxiliary definitions for the rate limiter *)

Module RateLimitProps.
Import RateLimit.

(* The bucket of an identifier in a namespace, if any. *)
Definition bucketAt (root : Root) (ns key : string) : option Bucket :=
  root !! ns ≫= (fun store => store !! key).

(* Buckets are created with count 1 and only counted up. *)
Definition wfRoot (root : Root) : Prop :=
  forall ns key bucket, bucketAt root ns key = Some bucket -> 1 <= count bucket.

(* The key an input is counted under. *)
Definition keyOf (input : ConsumeInput) : string :=
  if Js.isEmpty (Js.trim (in_identifier input)) then "unknown"
  else Js.trim (in_identifier input).

Definition limitOf (input : ConsumeInput) : Z := Z.max 1 (Qfloor (in_limit input)).

Definition windowOf (input : ConsumeInput) : Z := Z.max 1000 (Qfloor (in_windowMs input)).

(* The same input consumed once at each of the given times, in order. *)
Fixpoint consumeAt (input : ConsumeInput) (times : list Z) (root : Root)
  : list RateLimitResult * Root :=
  match times with
  | [] => ([], root)
  | now :: rest =>
      let '(result, root1) := consumeRateLimit input now root in
      let '(results, root2) := consumeAt input rest root1 in
      (result :: results, root2)
  end.

(* Calls number 0, 1, ... on a bucket that has counted [c]: those below the
   limit pass. *)
Definition allowedPattern (c lim : Z) (n : nat) : list bool :=
  List.map (fun i => c + Z.of_nat i <? lim) (seq 0 n).

(* The limiter of the submission handler: 24 requests a minute. *)
Definition applicationsCreate (identifier : string) : ConsumeInput :=
  {| in_namespace := "applications:create";
     in_identifier := identifier;
     in_limit := 24;
     in_windowMs := 60000 |}.

End RateLimitProps.

(** ** Auxiliary definitions for the pipeline automation *)

Module PipelineMore.
Import Pipeline PipelineRun.

(* The stage moves the recommendations make. *)
Definition forwardMove (current recommended : AppStatus) : Prop :=
  (current = Applied /\ (recommended = Interview \/ recommended = Rejected)) \/
  (current = Interview /\ (recommended = Offer \/ recommended = Rejected)).

(* Every element is in order with all later ones. *)
Fixpoint sortedBy {A} (le : A -> A -> bool) (l : list A) : Prop :=
  match l with
  | [] => True
  | x :: r => Forall (fun y => le x y = true) r /\ sortedBy le r
  end.

(* Higher priority first, and higher confidence first within a priority. *)
Definition ranksBefore (a b : PipelineStageRecommendation) : bool :=
  (priorityRank (priority b) <? priorityRank (priority a)) ||
  ((priorityRank (priority b) =? priorityRank (priority a)) &&
   Qle_bool (confidence b) (confidence a)).

Definition busierFirst (a b : InterviewLoadStat) : bool := ls_scheduled b <=? ls_scheduled a.

Definition totalScheduled (stats : list InterviewLoadStat) : Z :=
  fold_right (fun e sum => ls_scheduled e + sum) 0 stats.

(* A row after the run: untouched, or an open application moved on. *)
Definition applicationStep (before after : ApplicationRow) : Prop :=
  after = before \/
  (after = withStatus before (app_status after) /\
   (app_status before = "Applied" \/ app_status before = "Interview") /\
   (app_status after = "Interview" \/ app_status after = "Offer" \/
    app_status after = "Rejected")).

(* An interview after the run: only its owner may differ. *)
Definition interviewStep (before after : InterviewRow) : Prop :=
  after = withOwner before (owner after).

(* The level of an owner in the load statistics. *)
Definition levelOf (stats : list InterviewLoadStat) (o : string) (level : LoadLevel) : Prop :=
  exists e, List.In e stats /\ ls_owner e = o /\ ls_loadLevel e = level.

(* The [interviewsByOwner] map after the interviews [seen]: one entry per
   owner seen, counting that owner's interviews. *)
Definition ownersOf (m : list (string * OwnerLoad)) (seen : list InterviewRow) : Prop :=
  List.NoDup (List.map fst m) /\
  (forall o load, List.In (o, load) m ->
     scheduled load = Z.of_nat (PipelineProps.scheduledCount o seen) /\ 1 <= scheduled load) /\
  (forall i, List.In i seen -> List.In (owner i) (List.map fst m)).

Definition totalLoad (m : list (string * OwnerLoad)) : Z :=
  fold_right (fun e sum => scheduled (snd e) + sum) 0 m.

(* A suggestion that moves an upcoming interview of a highly loaded owner
   to a lightly loaded one. *)
Definition soundMove (stats : list InterviewLoadStat) (upcomingInterviews : list InterviewRow)
    (s : InterviewRebalanceSuggestion) : Prop :=
  levelOf stats (rs_currentOwner s) LoadHigh /\
  levelOf stats (rs_suggestedOwner s) LoadLow /\
  exists i, List.In i upcomingInterviews /\ interview_id i = rs_interviewId s /\
            owner i = rs_currentOwner s /\ person i = rs_person s /\ time i = rs_time s.

(* One fresh application to a job with a merit fit of 91, and the tables
   that hold just that application. *)
Definition topApplication : ApplicationRow :=
  {| app_id := 1; app_status := "Applied"; app_appliedAt := 0;
     app_userEmail := "c@example.com"; app_job := Examples.someJob |}.

Definition oneApplication : Tables :=
  {| applicationTable := [topApplication]; interviewTable := [] |}.

End PipelineMore.

(** ** Auxiliary definitions for the delivery run and its endpoint *)

Module AlertMore.
Import Alerts.

(* The saved search [sid] belongs to user [u]. *)
Definition ownedBy (st : Store) (u : string) (sid : Z) : Prop :=
  exists s, List.In s (savedSearches st) /\ search_id s = sid /\ userId s = u.

(* An alert after a run: the same alert, each sent timestamp kept, or set
   to the time of the run if it was null. *)
Definition alertStep (now : Z) (before after : JobAlert) : Prop :=
  alert_id after = alert_id before /\
  alert_savedSearchId after = alert_savedSearchId before /\
  reason after = reason before /\ job after = job before /\
  forall c, sentAt c after = sentAt c before \/
            (sentAt c before = None /\ sentAt c after = Some now).

(* A saved search after a run: untouched, or with its digest time set. *)
Definition searchStep (now : Z) (before after : SavedSearch) : Prop :=
  after = before \/ after = setLastDigestAt now before.

(* A store after a run on behalf of user [u]: whatever changed or was
   added belongs to a saved search of [u]. *)
Definition onlyTouches (u : string) (st st' : Store) : Prop :=
  (exists rows, deliveryLogs st' = deliveryLogs st ++ rows /\
                Forall (fun log => ownedBy st u (log_savedSearchId log)) rows) /\
  Forall2 (fun s s' => s' = s \/ userId s = u) (savedSearches st) (savedSearches st') /\
  Forall2 (fun a a' => a' = a \/ ownedBy st u (alert_savedSearchId a))
          (jobAlerts st) (jobAlerts st').

(* A candidate session. *)
Definition candidate : DeliveryRoute.Session :=
  {| DeliveryRoute.session_userId := "u1"; DeliveryRoute.session_role := "CANDIDATE" |}.

End AlertMore.

(** ** The attempts of a delivery run *)

Module AttemptProps.
Import Alerts AlertProps.








End AttemptProps.

(** * Properties of the scoring engine *)

Section ScoringFacts.
Import ListCodec Scoring Props.

Lemma Qfloor_half (z : Z) : Qfloor (inject_Z z + (1 # 2)) = z.
Proof.
  unfold Qfloor, Qplus, inject_Z; simpl.
  symmetry; apply Z.div_unique with (r := 1); lia.
Qed.

Lemma score_addRisk c f p r :
  score (addRisk c f p r) = score r + (if c then p else 0).
Proof. destruct c; simpl; lia. Qed.

Lemma flags_addRisk c f p r :
  flags (addRisk c f p r) = flags r ++ (if c then [f] else []).
Proof. destruct c; simpl; [reflexivity | now rewrite app_nil_r]. Qed.

Lemma rawRisk_score_bounds input :
  0 <= score (rawRisk input) <= 138 /\
  (flags (rawRisk input) <> [] -> 6 <= score (rawRisk input)).
Proof.
  unfold rawRisk, riskRules. rewrite !flags_addRisk, !score_addRisk. cbn [flags score app].
  destruct (0 <? priorFraudEventsForIp input) eqn:Eip.
  - apply Z.ltb_lt in Eip.
    repeat match goal with
           | |- context [if ?c then _ else _] => destruct c
           end; cbn [app]; (split; [lia | intros _; lia]).
  - repeat match goal with
           | |- context [if ?c then _ else _] => destruct c
           end; cbn [app]; (split; [lia | intros H; try congruence; lia]).
Qed.

(* The whole numbers the risk rules can add up to are numbers that
   [clampScore] rounds to themselves. *)
Lemma clampScore_upto_138 :
  forallb (fun n => clampScore (Num.ofZ (Z.of_nat n)) =? Z.min 100 (Z.of_nat n))
          (seq 0 139) = true.
Proof. vm_compute. reflexivity. Qed.

Lemma clampScore_whole (z : Z) :
  0 <= z <= 138 -> clampScore (Num.ofZ z) = Z.max 0 (Z.min 100 z).
Proof.
  intros Hz. pose proof clampScore_upto_138 as H. rewrite forallb_forall in H.
  specialize (H (Z.to_nat z)). rewrite Z2Nat.id in H by lia.
  rewrite Z.max_r by lia. apply Z.eqb_eq, H. apply in_seq. lia.
Qed.

Lemma riskScore_eval input :
  riskScore (evaluateApplication input) = Z.max 0 (Z.min 100 (score (rawRisk input))).
Proof.
  unfold evaluateApplication; cbn [riskScore]. apply clampScore_whole.
  apply rawRisk_score_bounds.
Qed.

Lemma riskFlags_eval input : riskFlags (evaluateApplication input) = flags (rawRisk input).
Proof. reflexivity. Qed.

Lemma needsManualReview_eval input :
  needsManualReview (evaluateApplication input) =
  (45 <=? score (rawRisk input)) || negb (requiredPassed (evaluateApplication input)).
Proof. reflexivity. Qed.

Lemma blockForAbuse_eval input :
  blockForAbuse (evaluateApplication input) = (72 <=? score (rawRisk input)).
Proof. reflexivity. Qed.

(** C1. For every input of [evaluateApplication], the result needs manual
    review exactly when its returned risk score is at least 45 or the
    required screeners were not passed. *)
Theorem manual_review_iff_risk_or_screeners (input : ScoringInput) :
  needsManualReview (evaluateApplication input) = true <->
  (45 <= riskScore (evaluateApplication input) \/
   requiredPassed (evaluateApplication input) = false).
Proof.
  rewrite needsManualReview_eval, riskScore_eval.
  rewrite orb_true_iff, negb_true_iff, Z.leb_le.
  split; (intros [H | H]; [left; lia | now right]).
Qed.


Lemma age_lt_hour input :
  Qltb (accountAgeHours input) 1 = true <-> now input - createdAt (user input) < 3600000.
Proof.
  unfold Qltb, accountAgeHours.
  destruct (Qlt_le_dec _ _) as [H | H];
    unfold Qlt, Qle, Qdiv, Qmult, Qinv, inject_Z in H; simpl in H.
  - split; [intros _; lia | reflexivity].
  - split; [discriminate | lia].
Qed.

Lemma age_lt_very_new input :
  Qltb (accountAgeHours input) (17 # 100) = true <->
  now input - createdAt (user input) < 612000.
Proof.
  unfold Qltb, accountAgeHours.
  destruct (Qlt_le_dec _ _) as [H | H];
    unfold Qlt, Qle, Qdiv, Qmult, Qinv, inject_Z in H; simpl in H.
  - split; [intros _; lia | reflexivity].
  - split; [discriminate | lia].
Qed.

Lemma matured_not_new input : Qltb (accountAgeHours (matured input)) 1 = false.
Proof.
  apply not_true_is_false. rewrite age_lt_hour. cbn. lia.
Qed.

Lemma matured_not_very_new input : Qltb (accountAgeHours (matured input)) (17 # 100) = false.
Proof.
  apply not_true_is_false. rewrite age_lt_very_new. cbn. lia.
Qed.

(* The raw score of a submission, relative to the same submission from an
   account that is one hour old. *)
Lemma score_by_account_age input :
  score (rawRisk input) =
  score (rawRisk (matured input)) +
  (if Qltb (accountAgeHours input) 1 then 18 else 0) +
  (if Qltb (accountAgeHours input) (17 # 100) then 18 else 0).
Proof.
  unfold rawRisk, riskRules. rewrite !score_addRisk.
  rewrite matured_not_new, matured_not_very_new. cbn. lia.
Qed.

Lemma flags_new_account input :
  Qltb (accountAgeHours input) 1 = true -> In "new_account" (flags (rawRisk input)).
Proof.
  intros H. unfold rawRisk, riskRules. rewrite !flags_addRisk, H.
  rewrite !in_app_iff. simpl. tauto.
Qed.

Lemma flags_very_new_account input :
  Qltb (accountAgeHours input) (17 # 100) = true ->
  In "very_new_account" (flags (rawRisk input)).
Proof.
  intros H. unfold rawRisk, riskRules. rewrite !flags_addRisk, H.
  rewrite !in_app_iff. simpl. tauto.
Qed.

(** C9. An account younger than one hour at evaluation time gets the flag
    [new_account] and 18 points; an account younger than ten minutes gets
    in addition the flag [very_new_account] and 18 more points. The points
    are those of the raw score, relative to the same submission sent from
    an account that is one hour old. *)
Theorem account_age_risk_points (input : ScoringInput) :
  let age := now input - createdAt (user input) in
  let result := evaluateApplication input in
  let base := score (rawRisk (matured input)) in
  riskScore result = Z.max 0 (Z.min 100 (score (rawRisk input))) /\
  (age < 60 * 60 * 1000 ->
     In "new_account" (riskFlags result) /\
     score (rawRisk input) = base + 18 + (if age <? 612000 then 18 else 0)) /\
  (age < 10 * 60 * 1000 ->
     In "new_account" (riskFlags result) /\
     In "very_new_account" (riskFlags result) /\
     score (rawRisk input) = base + 18 + 18).
Proof.
  intros age result base. subst result base.
  split; [apply riskScore_eval |].
  rewrite riskFlags_eval, score_by_account_age.
  pose proof (age_lt_hour input) as Hh. pose proof (age_lt_very_new input) as Hv.
  fold age in Hh, Hv.
  split; intros Hage.
  - assert (Hn : Qltb (accountAgeHours input) 1 = true) by (apply Hh; lia).
    split; [now apply flags_new_account |]. rewrite Hn.
    destruct (Qltb (accountAgeHours input) (17 # 100)) eqn:E.
    + assert (age < 612000) by now apply Hv.
      replace (age <? 612000) with true by (symmetry; apply Z.ltb_lt; lia). lia.
    + assert (~ age < 612000) by (intros C; apply Hv in C; congruence).
      replace (age <? 612000) with false by (symmetry; apply Z.ltb_ge; lia). lia.
  - assert (Hn : Qltb (accountAgeHours input) 1 = true) by (apply Hh; lia).
    assert (Hw : Qltb (accountAgeHours input) (17 # 100) = true) by (apply Hv; lia).
    split; [now apply flags_new_account |].
    split; [now apply flags_very_new_account |].
    rewrite Hn, Hw. lia.
Qed.


Lemma account_age_risk_points_witness :
  In "very_new_account"
     (riskFlags (evaluateApplication
        (Applications.scoringInput Examples.reactJob Examples.flaggedUser [] 0 0 1300000))) /\
  In "new_account"
     (riskFlags (evaluateApplication
        (Applications.scoringInput Examples.reactJob Examples.flaggedUser [] 0 0 1300000))).
Proof.
  pose proof (account_age_risk_points
    (Applications.scoringInput Examples.reactJob Examples.flaggedUser [] 0 0 1300000)) as H.
  cbv zeta in H. destruct H as (_ & Hnew & Hvery).
  split.
  - apply Hvery. vm_compute. reflexivity.
  - apply Hnew. vm_compute. reflexivity.
Defined.

Lemma allChars_append p a b : allChars p (a +:+ b) = allChars p a && allChars p b.
Proof. induction a as [| c a IH]; simpl; [reflexivity | now rewrite IH, andb_assoc]. Qed.

Lemma splitRuns_pieces isSep s : forall cur inSep,
  allChars (fun c => negb (isSep c)) cur = true ->
  Forall (fun piece => allChars (fun c => negb (isSep c)) piece = true)
         (Js.splitRuns isSep cur inSep s).
Proof.
  induction s as [| c s IH]; intros cur inSep Hcur; simpl.
  - now constructor.
  - destruct (isSep c) eqn:E.
    + destruct inSep; [| constructor; [assumption |]]; now apply IH.
    + apply IH. rewrite allChars_append, Hcur. simpl. now rewrite E.
Qed.

Lemma trimStart_allChars p s : allChars p s = true -> allChars p (Js.trimStart s) = true.
Proof.
  induction s as [| c s IH]; simpl; [trivial |].
  intros H. apply andb_true_iff in H as [Hc Hs].
  destruct (Js.isSpace c); [now apply IH | simpl; now rewrite Hc, Hs].
Qed.

Lemma trimEnd_allChars p s : allChars p s = true -> allChars p (Js.trimEnd s) = true.
Proof.
  induction s as [| c s IH]; simpl; [trivial |].
  intros H. apply andb_true_iff in H as [Hc Hs]. specialize (IH Hs).
  destruct (Js.trimEnd s) eqn:E.
  - destruct (Js.isSpace c); simpl; [reflexivity | now rewrite Hc].
  - simpl in *. now rewrite Hc.
Qed.

Lemma trim_allChars p s : allChars p s = true -> allChars p (Js.trim s) = true.
Proof. intros H. unfold Js.trim. now apply trimEnd_allChars, trimStart_allChars. Qed.

(* Every token is a run of at least three lower-case letters and digits. *)
Lemma tokenize_tokens value :
  Forall (fun token => (3 <= String.length token)%nat /\ allChars Js.isLowerAlnum token = true)
         (tokenize value).
Proof.
  unfold tokenize. apply List.Forall_forall. intros token Hin.
  apply filter_In in Hin as [Hin Hlen]. split; [now apply Nat.leb_le |].
  apply in_map_iff in Hin as (piece & <- & Hin).
  apply trim_allChars.
  pose proof (splitRuns_pieces isTokenSep (Js.toLowerCase value) EmptyString false eq_refl) as HF.
  rewrite List.Forall_forall in HF. specialize (HF _ Hin).
  erewrite <- HF. clear. induction piece as [| c r IH]; simpl; [reflexivity |].
  unfold isTokenSep at 1. now rewrite negb_involutive, IH.
Qed.

Lemma isEmpty_true s : Js.isEmpty s = true -> s = EmptyString.
Proof. destruct s; [reflexivity | discriminate]. Qed.

Lemma includes_empty_hay token :
  (3 <= String.length token)%nat -> Js.includes EmptyString token = false.
Proof. destruct token; simpl; [lia | reflexivity]. Qed.

(* The test that [answers.some] applies to one entry. *)
Lemma entry_test tokens entry :
  Forall (fun token => (3 <= String.length token)%nat) tokens ->
  let a := normalizeToken (answer entry) in
  (if Js.isEmpty a then false
   else if String.eqb a "yes" || Js.startsWith a "yes " then true
   else existsb (fun token => Js.includes a token) tokens) = true <->
  (a = "yes" \/ Js.startsWith a "yes " = true \/
   exists token, In token tokens /\ Js.includes a token = true).
Proof.
  intros Hlen a. rewrite List.Forall_forall in Hlen.
  destruct (Js.isEmpty a) eqn:Hempty.
  - apply isEmpty_true in Hempty. rewrite Hempty. split; [discriminate |].
    intros [H | [H | (token & Hin & H)]]; try discriminate.
    rewrite includes_empty_hay in H by now apply Hlen. discriminate.
  - destruct (String.eqb a "yes") eqn:Heq; simpl.
    + split; [intros _; left; now apply String.eqb_eq | reflexivity].
    + destruct (Js.startsWith a "yes ") eqn:Hpre.
      * split; [intros _; right; now left | reflexivity].
      * rewrite existsb_exists. split.
        -- intros H. right; now right.
        -- intros [H | [H | H]]; [| discriminate | exact H].
           apply String.eqb_eq in H. congruence.
Qed.

(** C8 (as the code has it). A prompt counts as passed exactly when it has
    at least one token and some submitted answer, once trimmed and
    lower-cased, is "yes", starts with "yes" followed by a space, or
    contains one of the prompt's tokens; the tokens are the first 8 runs of
    lower-case letters and digits of length at least 3. *)
Theorem screener_pass_iff (prompt : string) (answers : list ScreenerAnswer) :
  let tokens := firstn 8 (tokenize prompt) in
  (answerMatchesPrompt prompt answers = true <->
   tokens <> [] /\
   exists entry, In entry answers /\
     (normalizeToken (answer entry) = "yes" \/
      Js.startsWith (normalizeToken (answer entry)) "yes " = true \/
      exists token, In token tokens /\
                    Js.includes (normalizeToken (answer entry)) token = true)) /\
  Forall (fun token => (3 <= String.length token)%nat /\
                       allChars Js.isLowerAlnum token = true) tokens.
Proof.
  intros tokens.
  assert (Hshape : Forall (fun token => (3 <= String.length token)%nat /\
                             allChars Js.isLowerAlnum token = true) tokens)
    by apply Forall_take, tokenize_tokens.
  split; [| exact Hshape].
  assert (Hlen : Forall (fun token => (3 <= String.length token)%nat) tokens)
    by (eapply List.Forall_impl; [| exact Hshape]; now intros t [H _]).
  unfold answerMatchesPrompt. fold tokens.
  destruct tokens as [| t ts] eqn:E.
  - split; [discriminate | intros [H _]; congruence].
  - rewrite existsb_exists. split.
    + intros (entry & Hin & H). split; [discriminate |].
      exists entry. split; [exact Hin |]. now apply (entry_test (t :: ts) entry Hlen).
    + intros (_ & entry & Hin & H). exists entry. split; [exact Hin |].
      now apply (entry_test (t :: ts) entry Hlen).
Qed.

(** C8 (as the specification words it) fails: a prompt without any token
    of three characters is never passed, even by the answer "Yes". *)
Lemma yes_to_tokenless_prompt_not_passed :
  answerMatchesPrompt "Ok?" [ {| question := "Ok?"; answer := "Yes" |} ] = false /\
  claimedPromptPass "Ok?" [ {| question := "Ok?"; answer := "Yes" |} ] = true.
Proof. split; reflexivity. Qed.

Lemma screener_pass_iff_witness :
  answerMatchesPrompt "Do you know React?"
    [ {| question := "Do you know React?"; answer := " I use react daily" |} ] = true.
Proof.
  apply (proj1 (screener_pass_iff "Do you know React?"
    [ {| question := "Do you know React?"; answer := " I use react daily" |} ])).
  split; [discriminate |].
  exists {| question := "Do you know React?"; answer := " I use react daily" |}.
  split; [now left |]. right; right. exists "react". split; [| reflexivity].
  vm_compute. tauto.
Defined.

End ScoringFacts.

(** * Properties of the submission handler *)

Section ApplicationFacts.
Import ListCodec Applications Props.

(* A rule that scores also pushes its flag. *)
Lemma no_flags_no_score input :
  Scoring.flags (rawRisk input) = [] -> Scoring.score (rawRisk input) = 0.
Proof.
  unfold rawRisk, Scoring.riskRules.
  rewrite !flags_addRisk, !score_addRisk. cbn [Scoring.flags Scoring.score].
  intros H.
  repeat match goal with
         | H : _ ++ _ = [] |- _ => apply app_eq_nil in H as [? ?]
         end.
  repeat match goal with
         | H : (if ?c then _ else _) = [] |- _ => destruct c; [discriminate H | clear H]
         end.
  reflexivity.
Qed.

Lemma blocked_has_flags input :
  72 <= Scoring.riskScore (Scoring.evaluateApplication input) ->
  (0 <? Scoring.lenZ (Scoring.riskFlags (Scoring.evaluateApplication input))) = true /\
  Scoring.blockForAbuse (Scoring.evaluateApplication input) = true.
Proof.
  rewrite riskScore_eval, riskFlags_eval, blockForAbuse_eval. intros H.
  split; [| apply Z.leb_le; lia].
  destruct (Scoring.flags (rawRisk input)) eqn:E.
  - apply no_flags_no_score in E. lia.
  - reflexivity.
Qed.

(* A request that gets past the throttle, the session and role checks and
   the reading of the body, for a stored job and a stored user. *)
Lemma POST_reached db req sess jid job user :
  allowed (throttle req) = true ->
  signedIn req = Some sess ->
  session_role sess = "CANDIDATE" \/ session_role sess = "ADMIN" ->
  body_jobId req = Some (Whole jid) ->
  findJob db jid = Some job ->
  findUser db (session_userId sess) = Some user ->
  POST db req =
  match findExisting db (session_userId sess) jid with
  | Some existing =>
      (Answered (jsonWithThrottle (ApplicationBody (mapApplication existing))
                                  (throttle req) 200), db)
  | None =>
      let scoring := scoreSubmission db req (session_userId sess) job user in
      let db1 :=
        if 0 <? Scoring.lenZ (Scoring.riskFlags scoring)
        then addFraudEvent (fraudEventFor req (session_userId sess) jid scoring) db
        else db in
      if Scoring.blockForAbuse scoring then
        (Answered
           (jsonWithThrottle
              (ErrorBody
                 "Application blocked due to abuse risk. Contact support if this is a mistake.")
              (throttle req) 429), db1)
      else
        let record := applicationFor db1 req (session_userId sess) jid scoring in
        (Answered (jsonWithThrottle (ApplicationBody (mapApplication record))
                                    (throttle req) 201),
         addApplication record db1)
  end.
Proof.
  intros Hallowed Hsess Hrole Hjid Hjob Huser.
  unfold POST. rewrite Hallowed, Hsess. cbn [negb].
  replace (negb (String.eqb (session_role sess) "CANDIDATE") &&
           negb (String.eqb (session_role sess) "ADMIN")) with false
    by (destruct Hrole as [-> | ->]; reflexivity).
  unfold body_jobId in Hjid.
  destruct (body req) as [| | number answers]; try discriminate. subst number.
  cbn [lookupJob]. rewrite Hjob. cbn [option_map]. rewrite Huser. reflexivity.
Qed.

(** C2. Submission is idempotent per (applicant, job): when an application
    of the signed-in applicant for the job already exists, the handler
    answers 200 with that record, every field of the view being the field
    of the stored record (the three lists read back from their stored
    text), and leaves the store as it was: nothing is scored, no
    application is written or changed and no abuse event is recorded. *)
Theorem resubmission_returns_existing
    (db : Db) (req : Request) (sess : Session) (jid : Z)
    (job : JobRow) (user : UserRow) (existing : ApplicationRow) :
  allowed (throttle req) = true ->
  signedIn req = Some sess ->
  session_role sess = "CANDIDATE" \/ session_role sess = "ADMIN" ->
  body_jobId req = Some (Whole jid) ->
  findJob db jid = Some job ->
  findUser db (session_userId sess) = Some user ->
  findExisting db (session_userId sess) jid = Some existing ->
  POST db req =
    (Answered
       {| resp_body :=
            ApplicationBody
              {| v_id := app_id existing;
                 v_jobId := jobId existing;
                 v_status := status existing;
                 v_appliedAt := appliedAt existing;
                 v_screenerRequiredPassed := screenerRequiredPassed existing;
                 v_screenerRequiredScore := screenerRequiredScore existing;
                 v_screenerPreferredScore := screenerPreferredScore existing;
                 v_autoRankScore := autoRankScore existing;
                 v_matchExplanation := matchExplanation existing;
                 v_missingSkills := parseUniqueList (missingSkills existing);
                 v_profileFixSuggestions := parseUniqueList (profileFixSuggestions existing);
                 v_riskScore := riskScore existing;
                 v_riskFlags := parseUniqueList (riskFlags existing);
                 v_needsManualReview := needsManualReview existing |};
          resp_status := 200;
          resp_throttle := throttle req |},
     db) /\
  In existing (applications db) /\
  userId existing = session_userId sess /\ jobId existing = jid.
Proof.
  intros Hallowed Hsess Hrole Hjid Hjob Huser Hexisting.
  split.
  - rewrite (POST_reached db req sess jid job user) by assumption.
    now rewrite Hexisting.
  - unfold findExisting in Hexisting. apply find_some in Hexisting as [Hin Htest].
    apply andb_true_iff in Htest as [Hu Hj].
    apply String.eqb_eq in Hu. apply Z.eqb_eq in Hj. auto.
Qed.

Lemma resubmission_returns_existing_witness :
  exists response,
    POST Examples.appliedDb Examples.hastySubmission =
      (Answered response, Examples.appliedDb) /\
    resp_status response = 200 /\
    exists view, resp_body response = ApplicationBody view /\
                 v_id view = app_id Examples.earlierApplication.
Proof.
  destruct (resubmission_returns_existing Examples.appliedDb Examples.hastySubmission
              Examples.candidateSession 7 Examples.reactJob Examples.flaggedUser
              Examples.earlierApplication) as (HPOST & _);
    try reflexivity; [now left |].
  eexists. split; [exact HPOST |]. split; [reflexivity |].
  eexists. split; reflexivity.
Defined.

(** C3. A risk score of 72 or more sets [blockForAbuse]; for such a
    submission the handler records one abuse event, with decision "block",
    writes no application and answers with the rejection. *)
Theorem abuse_block_persists_no_application :
  (forall input,
     72 <= Scoring.riskScore (Scoring.evaluateApplication input) ->
     Scoring.blockForAbuse (Scoring.evaluateApplication input) = true) /\
  (forall (db : Db) (req : Request) (sess : Session) (jid : Z) (job : JobRow) (user : UserRow),
     allowed (throttle req) = true ->
     signedIn req = Some sess ->
     session_role sess = "CANDIDATE" \/ session_role sess = "ADMIN" ->
     body_jobId req = Some (Whole jid) ->
     findJob db jid = Some job ->
     findUser db (session_userId sess) = Some user ->
     findExisting db (session_userId sess) jid = None ->
     let scoring := scoreSubmission db req (session_userId sess) job user in
     let event := fraudEventFor req (session_userId sess) jid scoring in
     72 <= Scoring.riskScore scoring ->
     POST db req =
       (Answered
          (jsonWithThrottle
             (ErrorBody
                "Application blocked due to abuse risk. Contact support if this is a mistake.")
             (throttle req) 429),
        addFraudEvent event db) /\
     applications (snd (POST db req)) = applications db /\
     fraudEvents (snd (POST db req)) = fraudEvents db ++ [event] /\
     fe_decision event = "block").
Proof.
  split; [intros input H; now apply blocked_has_flags |].
  intros db req sess jid job user Hallowed Hsess Hrole Hjid Hjob Huser Hnone scoring event Hrisk.
  assert (Hflags : (0 <? Scoring.lenZ (Scoring.riskFlags scoring)) = true)
    by now apply blocked_has_flags.
  assert (Hblock : Scoring.blockForAbuse scoring = true) by now apply blocked_has_flags.
  assert (HPOST : POST db req =
       (Answered
          (jsonWithThrottle
             (ErrorBody
                "Application blocked due to abuse risk. Contact support if this is a mistake.")
             (throttle req) 429),
        addFraudEvent event db)).
  { rewrite (POST_reached db req sess jid job user) by assumption.
    rewrite Hnone. cbv zeta. fold scoring.
    now rewrite Hflags, Hblock. }
  rewrite HPOST. repeat split.
  unfold event, fraudEventFor. cbn [fe_decision]. fold scoring. now rewrite Hblock.
Qed.

Lemma abuse_block_persists_no_application_witness :
  applications (snd (POST Examples.freshDb Examples.hastySubmission)) = [] /\
  length (fraudEvents (snd (POST Examples.freshDb Examples.hastySubmission))) = 1%nat /\
  exists response,
    fst (POST Examples.freshDb Examples.hastySubmission) = Answered response /\
    resp_status response = 429.
Proof.
  pose proof (proj2 abuse_block_persists_no_application
                Examples.freshDb Examples.hastySubmission Examples.candidateSession 7
                Examples.reactJob Examples.flaggedUser
                eq_refl eq_refl (or_introl eq_refl) eq_refl eq_refl eq_refl eq_refl) as H.
  cbv zeta in H.
  destruct H as (HPOST & Happs & Hevents & _).
  - vm_compute. discriminate.
  - rewrite Happs, Hevents, HPOST. repeat split.
    eexists. split; reflexivity.
Defined.

End ApplicationFacts.

(** * Properties of the interviewer rebalancing *)

Section PipelineFacts.
Import Pipeline PipelineProps.

Lemma recordInterview_two a b m ca cb i :
  a <> b -> twoOwnerMap a b m ca cb ->
  (owner i = a -> twoOwnerMap a b (recordInterview m i) (ca + 1) cb) /\
  (owner i = b -> twoOwnerMap a b (recordInterview m i) ca (cb + 1)).
Proof.
  intros Hab Hm.
  assert (Eab : String.eqb a b = false) by now apply String.eqb_neq.
  assert (Eba : String.eqb b a = false) by (apply String.eqb_neq; congruence).
  unfold twoOwnerMap in Hm.
  destruct Hm as [(-> & -> & ->) | [(n & -> & ? & ->) | [(n & -> & -> & ?) |
                 [(n & n' & -> & ? & ?) | (n & n' & -> & ? & ?)]]]];
    split; intros Ho; unfold recordInterview, twoOwnerMap; cbn; rewrite Ho;
    rewrite ?String.eqb_refl, ?Eab, ?Eba; cbn;
    rewrite ?String.eqb_refl, ?Eab, ?Eba; cbn.
  all: try (right; left; eexists; split; [reflexivity | lia]).
  all: try (right; right; left; eexists; split; [reflexivity | lia]).
  all: try (right; right; right; left; do 2 eexists; split; [reflexivity | lia]).
  all: try (right; right; right; right; do 2 eexists; split; [reflexivity | lia]).
Qed.

Lemma scheduledCount_cons o i l :
  scheduledCount o (i :: l) =
  if String.eqb (owner i) o then S (scheduledCount o l) else scheduledCount o l.
Proof. unfold scheduledCount. simpl. now destruct (String.eqb (owner i) o). Qed.

Lemma interviewsByOwner_two a b l :
  a <> b ->
  (forall i, In i l -> owner i = a \/ owner i = b) ->
  forall m ca cb,
    twoOwnerMap a b m ca cb ->
    twoOwnerMap a b (fold_left recordInterview l m)
                (ca + Z.of_nat (scheduledCount a l)) (cb + Z.of_nat (scheduledCount b l)).
Proof.
  intros Hab.
  assert (Eab : String.eqb a b = false) by now apply String.eqb_neq.
  assert (Eba : String.eqb b a = false) by (apply String.eqb_neq; congruence).
  induction l as [| i l IH]; intros Hown m ca cb Hm.
  - cbn. now rewrite !Z.add_0_r.
  - cbn [fold_left]. rewrite !scheduledCount_cons.
    destruct (recordInterview_two a b m ca cb i Hab Hm) as [Ha Hb].
    assert (Hl : forall j, In j l -> owner j = a \/ owner j = b)
      by (intros j Hj; apply Hown; now right).
    destruct (Hown i (or_introl eq_refl)) as [Ho | Ho]; rewrite Ho.
    + rewrite String.eqb_refl, Eab.
      replace (ca + Z.of_nat (S (scheduledCount a l)))
        with ((ca + 1) + Z.of_nat (scheduledCount a l)) by lia.
      apply IH; auto.
    + rewrite String.eqb_refl, Eba.
      replace (cb + Z.of_nat (S (scheduledCount b l)))
        with ((cb + 1) + Z.of_nat (scheduledCount b l)) by lia.
      apply IH; auto.
Qed.

Lemma getCount_insert_eq (m : gmap string Z) k v : getCount (<[k := v]> m) k = v.
Proof. unfold getCount. now rewrite lookup_insert_eq. Qed.

Lemma getCount_insert_ne (m : gmap string Z) k k' v :
  k <> k' -> getCount (<[k := v]> m) k' = getCount m k'.
Proof. intros H. unfold getCount. now rewrite lookup_insert_ne. Qed.

(* The load statistics of two owners with five and one upcoming interviews. *)
Lemma loadStats_five_one a b l :
  a <> b ->
  (forall i, In i l -> owner i = a \/ owner i = b) ->
  scheduledCount a l = 5%nat -> scheduledCount b l = 1%nat ->
  exists n n',
    loadStatsOf (interviewsByOwner l) =
    [ {| ls_owner := a; ls_scheduled := 5; ls_nextInterviewAt := n; ls_loadLevel := LoadHigh |};
      {| ls_owner := b; ls_scheduled := 1; ls_nextInterviewAt := n'; ls_loadLevel := LoadLow |} ].
Proof.
  intros Hab Hown Ha Hb.
  pose proof (interviewsByOwner_two a b l Hab Hown [] 0 0) as H.
  rewrite Ha, Hb in H. cbn in H. fold (interviewsByOwner l) in H.
  destruct H as [(_ & ? & _) | [(n & _ & _ & ?) | [(n & _ & ? & _) |
                [(n & n' & -> & _) | (n & n' & -> & _)]]]]; try lia.
  - now left.
  - exists n, n'. reflexivity.
  - exists n, n'. reflexivity.
Qed.

(* One iteration of the loop with a single underloaded owner [t]. *)
Lemma drainOwner_single o t i pool vc sugg :
  drainOwner o (i :: pool)
    {| virtualCounts := vc; underloadedOwners := [t]; suggestions := sugg |} =
  if getCount vc o - getCount vc t <=? 1
  then {| virtualCounts := vc; underloadedOwners := [t]; suggestions := sugg |}
  else drainOwner o pool
         {| virtualCounts := <[t := getCount vc t + 1]> (<[o := getCount vc o - 1]> vc);
            underloadedOwners := [t];
            suggestions := sugg ++ [move i o t (getCount vc o) (getCount vc t)] |}.
Proof. reflexivity. Qed.

Lemma rebalance_five_one a b l n n' i1 i2 i3 rest :
  a <> b ->
  List.filter (fun i => String.eqb (owner i) a) l = i1 :: i2 :: i3 :: rest ->
  let stats :=
    [ {| ls_owner := a; ls_scheduled := 5; ls_nextInterviewAt := n; ls_loadLevel := LoadHigh |};
      {| ls_owner := b; ls_scheduled := 1; ls_nextInterviewAt := n'; ls_loadLevel := LoadLow |} ] in
  suggestions (rebalance stats l) = [move i1 a b 5 1; move i2 a b 4 2] /\
  getCount (virtualCounts (rebalance stats l)) a = 3 /\
  getCount (virtualCounts (rebalance stats l)) b = 3.
Proof.
  intros Hab Hpool stats.
  assert (Hba : b <> a) by congruence.
  unfold rebalance, stats.
  cbn [List.filter List.map ls_loadLevel ls_owner ls_scheduled isHigh isLow fold_left reverse
       rev_append list_to_map foldr fst snd].
  rewrite Hpool.
  rewrite drainOwner_single.
  rewrite getCount_insert_eq, (getCount_insert_ne _ b a), getCount_insert_eq by assumption.
  change (5 - 1 <=? 1) with false. cbv iota.
  rewrite drainOwner_single.
  rewrite getCount_insert_eq, (getCount_insert_ne _ b a), getCount_insert_eq by assumption.
  change (5 - 1 - (1 + 1) <=? 1) with false. cbv iota.
  rewrite drainOwner_single.
  rewrite getCount_insert_eq, (getCount_insert_ne _ b a), getCount_insert_eq by assumption.
  change (5 - 1 - 1 - (1 + 1 + 1) <=? 1) with true. cbv iota.
  cbn [suggestions virtualCounts app].
  rewrite getCount_insert_eq, (getCount_insert_ne _ b a), getCount_insert_eq by assumption.
  repeat split.
Qed.

(** C7 (as the code has it). With exactly two interviewers, one with 5
    and one with 1 upcoming interviews, and at least one job in scope, the
    snapshot suggests exactly two moves: the first two upcoming interviews
    of the loaded owner go to the other one, taking the virtual counts from
    5 and 1 to 4 and 2 and then to 3 and 3, so the target never becomes
    more loaded than the source. *)
Theorem rebalance_five_and_one
    (sc : PipelineScope) (now : Z) (jobs : list JobRow) (applications : list ApplicationRow)
    (upcoming : list InterviewRow) (a b : string) :
  jobs <> [] ->
  a <> b ->
  (forall i, In i upcoming -> owner i = a \/ owner i = b) ->
  scheduledCount a upcoming = 5%nat ->
  scheduledCount b upcoming = 1%nat ->
  let snapshot := getPipelineAutomationSnapshot sc now jobs applications upcoming in
  exists i1 i2 rest,
    List.filter (fun i => String.eqb (owner i) a) upcoming = i1 :: i2 :: rest /\
    rebalanceSuggestions snapshot = [move i1 a b 5 1; move i2 a b 4 2] /\
    getCount (virtualCounts (rebalance (loadStats snapshot) upcoming)) a = 3 /\
    getCount (virtualCounts (rebalance (loadStats snapshot) upcoming)) b = 3.
Proof.
  intros Hjobs Hab Hown Ha Hb snapshot.
  destruct (loadStats_five_one a b upcoming Hab Hown Ha Hb) as (n & n' & Hstats).
  unfold scheduledCount in Ha.
  destruct (List.filter (fun i => String.eqb (owner i) a) upcoming)
    as [| i1 [| i2 [| i3 rest]]] eqn:Hpool; try discriminate Ha.
  exists i1, i2, (i3 :: rest). split; [reflexivity |].
  assert (Hsnap : loadStats snapshot = loadStatsOf (interviewsByOwner upcoming) /\
                  rebalanceSuggestions snapshot =
                  suggestions (rebalance (loadStatsOf (interviewsByOwner upcoming)) upcoming)).
  { unfold snapshot, getPipelineAutomationSnapshot.
    destruct jobs; [congruence | split; reflexivity]. }
  destruct Hsnap as [-> ->]. rewrite Hstats.
  now apply rebalance_five_one with (i3 := i3) (rest := rest).
Qed.

Lemma rebalance_five_and_one_witness :
  List.map rs_interviewId (rebalanceSuggestions Examples.annAndBobSnapshot) = [2; 3].
Proof.
  destruct (rebalance_five_and_one admin 0 [Examples.someJob] [] Examples.annAndBob
              "ann" "bob") as (i1 & i2 & rest & Hpool & Hmoves & _).
  - discriminate.
  - discriminate.
  - intros i Hi. cbn in Hi.
    repeat (destruct Hi as [<- | Hi]; [cbn; tauto |]). contradiction.
  - reflexivity.
  - reflexivity.
  - unfold Examples.annAndBobSnapshot. rewrite Hmoves.
    cbn in Hpool. injection Hpool as <- <- _. reflexivity.
Defined.

(** C7 (as the specification words it) fails: for counts 5 and 1 the
    snapshot holds two suggested moves, not one; after the first the
    counts are 4 and 2, still two apart. *)
Lemma five_and_one_takes_two_moves :
  List.map rs_reason (rebalanceSuggestions Examples.annAndBobSnapshot) =
  [ "Reduce interviewer load from 5 to 4, and raise bob from 1 to 2.";
    "Reduce interviewer load from 4 to 3, and raise bob from 2 to 3." ] /\
  length (rebalanceSuggestions Examples.annAndBobSnapshot) <> 1%nat.
Proof. split; [vm_compute; reflexivity | vm_compute; discriminate]. Qed.

End PipelineFacts.

(** * Properties of the alert delivery engine *)

Section AlertFacts.
Import Alerts AlertProps.

Lemma memZ_ids x (l : list JobAlert) :
  memZ x (List.map alert_id l) = true <-> exists a, In a l /\ alert_id a = x.
Proof.
  unfold memZ. rewrite existsb_exists. split.
  - intros (i & Hi & E). apply in_map_iff in Hi as (a & <- & Ha).
    apply Z.eqb_eq in E. eauto.
  - intros (a & Ha & <-). exists (alert_id a). split; [now apply in_map | apply Z.eqb_refl].
Qed.

Lemma unique_by_id (l : list JobAlert) a x :
  List.NoDup (List.map alert_id l) -> In a l -> In x l -> alert_id a = alert_id x -> a = x.
Proof.
  induction l as [| y l IH]; [contradiction |].
  cbn [List.map]. intros Hnd Ha Hx E. apply List.NoDup_cons_iff in Hnd as [Hy Hnd].
  destruct Ha as [-> | Ha], Hx as [-> | Hx]; auto.
  - exfalso. apply Hy. rewrite E. now apply in_map.
  - exfalso. apply Hy. rewrite <- E. now apply in_map.
Qed.

Lemma unique_search_by_id (l : list SavedSearch) s t :
  List.NoDup (List.map search_id l) -> In s l -> In t l -> search_id s = search_id t -> s = t.
Proof.
  induction l as [| y l IH]; [contradiction |].
  cbn [List.map]. intros Hnd Hs Ht E. apply List.NoDup_cons_iff in Hnd as [Hy Hnd].
  destruct Hs as [-> | Hs], Ht as [-> | Ht]; auto.
  - exfalso. apply Hy. rewrite E. now apply in_map.
  - exfalso. apply Hy. rewrite <- E. now apply in_map.
Qed.

Lemma Channel_eqb_eq c c' : Channel_eqb c c' = true <-> c = c'.
Proof. destruct c, c'; cbn; split; congruence. Qed.

Lemma Channel_eqb_refl c : Channel_eqb c c = true.
Proof. now destruct c. Qed.

Lemma acceptedIn_app c a l l' :
  acceptedIn c a (l ++ l') = acceptedIn c a l || acceptedIn c a l'.
Proof. unfold acceptedIn. apply existsb_app. Qed.

Lemma stampAll_nil now a : stampAll now [] a = a.
Proof.
  destruct a. unfold stampAll, stamped. cbn.
  now rewrite !andb_false_r.
Qed.

(* What a batch of new rows does to one channel of one alert. *)
Lemma stamped_app now c ids l l' a c' :
  (memZ (alert_id a) ids = true -> sentAt c a = None) ->
  (sentAt c' a = None ->
   acceptedIn c' a l' = Channel_eqb c c' && memZ (alert_id a) ids) ->
  stamped now (l ++ l') a c' =
  if Channel_eqb c c' && memZ (alert_id a) ids then Some now else stamped now l a c'.
Proof.
  intros Hnull Hacc. unfold stamped. rewrite acceptedIn_app.
  destruct (sentAt c' a) as [t |] eqn:E; cbn.
  - destruct (Channel_eqb c c') eqn:Ec; cbn; [| reflexivity].
    apply Channel_eqb_eq in Ec. subst c'.
    destruct (memZ (alert_id a) ids); [| reflexivity].
    rewrite Hnull in E by reflexivity. discriminate.
  - rewrite Hacc by reflexivity.
    destruct (acceptedIn c' a l), (Channel_eqb c c' && memZ (alert_id a) ids); reflexivity.
Qed.

(* Writing rows and stamping the alerts they were accepted for keeps the
   alert table the image of the rows written so far. *)
Lemma stamp_update now (alerts0 : list JobAlert) c ids l l' :
  (forall a, In a alerts0 -> memZ (alert_id a) ids = true -> sentAt c a = None) ->
  (forall a c', In a alerts0 -> sentAt c' a = None ->
                acceptedIn c' a l' = Channel_eqb c c' && memZ (alert_id a) ids) ->
  List.map (fun a => if memZ (alert_id a) ids then setSentAt c now a else a)
           (List.map (stampAll now l) alerts0) =
  List.map (stampAll now (l ++ l')) alerts0.
Proof.
  intros Hnull Hacc. rewrite List.map_map. apply map_ext_in. intros a Ha.
  assert (Hs : forall c', stamped now (l ++ l') a c' =
             if Channel_eqb c c' && memZ (alert_id a) ids then Some now
             else stamped now l a c').
  { intros c'. apply stamped_app; [now apply Hnull | now apply Hacc]. }
  unfold stampAll. cbn [alert_id]. rewrite !Hs.
  destruct (memZ (alert_id a) ids); destruct c; reflexivity.
Qed.

Lemma stamp_rejected now (alerts0 : list JobAlert) l log :
  log_accepted log = false ->
  List.map (stampAll now (l ++ [log])) alerts0 = List.map (stampAll now l) alerts0.
Proof.
  intros Hrej. apply map_ext. intros a.
  unfold stampAll, stamped. rewrite !acceptedIn_app. unfold acceptedIn at 2 4 6.
  cbn [existsb]. rewrite Hrej. cbn. now rewrite !orb_false_r.
Qed.

(** ** The effect of a run on the store *)

Section AlertRun.
Context (w : World) (now : Z) (st0 : Store) (Hwf : wfStore st0).

Lemma pendingOn_filter c sw :
  pendingOn c sw =
  if enabledOn c (search sw)
  then List.filter (fun alert => isNull (sentAt c alert)) (alerts sw) else [].
Proof. destruct c; reflexivity. Qed.

Lemma isNull_true {A} (o : option A) : isNull o = true <-> o = None.
Proof. destruct o; cbn; split; congruence. Qed.

(* The alerts pending on a channel of a fetched search are the alerts of
   the store that belong to the search and have that timestamp null. *)
Lemma pendingOn_iff c sw a :
  snapshotOf st0 sw ->
  In a (pendingOn c sw) <->
  In a (jobAlerts st0) /\ pendingFor c (search sw) a.
Proof.
  intros [_ Halerts]. rewrite pendingOn_filter. unfold pendingFor.
  destruct (enabledOn c (search sw)).
  - rewrite filter_In, Halerts, filter_In, isNull_true, andb_true_iff, Z.eqb_eq.
    split.
    + intros [(Ha & Hs & _) Hn]. auto.
    + intros (Ha & Hs & _ & Hn). repeat split; auto.
      destruct c; cbn in Hn; rewrite Hn; cbn; now rewrite ?orb_true_r.
  - split; [contradiction | intros (_ & _ & H & _); discriminate].
Qed.

Lemma pendingOn_ids c sw a :
  snapshotOf st0 sw -> In a (jobAlerts st0) ->
  memZ (alert_id a) (List.map alert_id (pendingOn c sw)) = true <-> In a (pendingOn c sw).
Proof.
  intros Hsnap Ha. rewrite memZ_ids. split.
  - intros (x & Hx & E). pose proof Hx as Hx'.
    apply (pendingOn_iff c sw x Hsnap) in Hx' as [Hx' _].
    now rewrite <- (unique_by_id _ x a (proj1 Hwf) Hx' Ha E).
  - intros H. eauto.
Qed.

(* A row written for one pending alert. *)
Lemma single_row_accepts c sw x log a c' :
  snapshotOf st0 sw -> In x (pendingOn c sw) ->
  log_channel log = c -> log_savedSearchId log = search_id (search sw) ->
  log_alertId log = Some (alert_id x) -> log_accepted log = true ->
  In a (jobAlerts st0) ->
  acceptedIn c' a [log] = Channel_eqb c c' && memZ (alert_id a) [alert_id x].
Proof.
  intros Hsnap Hx Hc Hs Hid Hacc Ha.
  apply (pendingOn_iff c sw x Hsnap) in Hx as (Hx & Hxs & _).
  unfold acceptedIn, covers, memZ. cbn [existsb]. rewrite Hacc, Hc, Hs, Hid.
  rewrite !orb_false_r. cbn [andb].
  destruct (Channel_eqb c c'); [| reflexivity]. cbn [andb].
  rewrite (Z.eqb_sym (alert_id x)).
  destruct (alert_id a =? alert_id x) eqn:E; [| now rewrite andb_false_r].
  apply Z.eqb_eq in E. rewrite (unique_by_id _ a x (proj1 Hwf) Ha Hx E).
  rewrite <- Hxs, Z.eqb_refl. reflexivity.
Qed.

(* A row written for the whole batch of a channel. *)
Lemma batch_row_accepts c sw log a c' :
  snapshotOf st0 sw -> pendingOn c sw <> [] ->
  log_channel log = c -> log_savedSearchId log = search_id (search sw) ->
  log_alertId log = None -> log_accepted log = true ->
  In a (jobAlerts st0) -> sentAt c' a = None ->
  acceptedIn c' a [log] =
  Channel_eqb c c' && memZ (alert_id a) (List.map alert_id (pendingOn c sw)).
Proof.
  intros Hsnap Hne Hc Hs Hid Hacc Ha Hnull.
  unfold acceptedIn, covers. cbn [existsb]. rewrite Hacc, Hc, Hs, Hid.
  rewrite !orb_false_r, andb_true_r. cbn [andb].
  destruct (Channel_eqb c c') eqn:Ec; [| reflexivity]. cbn [andb].
  apply Channel_eqb_eq in Ec. subst c'.
  assert (Hen : enabledOn c (search sw) = true).
  { rewrite pendingOn_filter in Hne. destruct (enabledOn c (search sw)); congruence. }
  apply eq_true_iff_eq. rewrite Z.eqb_eq, (pendingOn_ids c sw a Hsnap Ha).
  rewrite (pendingOn_iff c sw a Hsnap). unfold pendingFor. intuition congruence.
Qed.


Lemma during_rows_single c sw x log l d st :
  snapshotOf st0 sw -> In x (pendingOn c sw) ->
  log_channel log = c -> log_savedSearchId log = search_id (search sw) ->
  log_alertId log = Some (alert_id x) ->
  DuringRun now st0 l d st ->
  DuringRun now st0 (l ++ [log]) d
    (if log_accepted log
     then updateAlerts [alert_id x] c now (createLogs [log] st)
     else createLogs [log] st).
Proof.
  intros Hsnap Hx Hc Hs Hid (Hlogs & Halerts & Hsearches).
  destruct (log_accepted log) eqn:Hacc; unfold DuringRun;
    cbn [updateAlerts createLogs jobAlerts deliveryLogs savedSearches]; repeat split;
    try (rewrite Hlogs; now rewrite app_assoc); try assumption.
  - rewrite Halerts. apply stamp_update.
    + intros a Ha Hmem. unfold memZ in Hmem. cbn in Hmem.
      rewrite orb_false_r in Hmem. apply Z.eqb_eq in Hmem.
      pose proof Hx as Hx'. apply (pendingOn_iff c sw x Hsnap) in Hx' as (Hx' & _ & _ & Hn).
      now rewrite (unique_by_id _ a x (proj1 Hwf) Ha Hx' Hmem).
    + intros a c' Ha _. now apply (single_row_accepts c sw x).
  - rewrite Halerts. symmetry. now apply stamp_rejected.
Qed.

Lemma during_rows_batch c sw log l d st :
  snapshotOf st0 sw -> pendingOn c sw <> [] ->
  log_channel log = c -> log_savedSearchId log = search_id (search sw) ->
  log_alertId log = None ->
  DuringRun now st0 l d st ->
  DuringRun now st0 (l ++ [log]) d
    (if log_accepted log
     then updateAlerts (List.map alert_id (pendingOn c sw)) c now (createLogs [log] st)
     else createLogs [log] st).
Proof.
  intros Hsnap Hne Hc Hs Hid (Hlogs & Halerts & Hsearches).
  destruct (log_accepted log) eqn:Hacc; unfold DuringRun;
    cbn [updateAlerts createLogs jobAlerts deliveryLogs savedSearches]; repeat split;
    try (rewrite Hlogs; now rewrite app_assoc); try assumption.
  - rewrite Halerts. apply stamp_update.
    + intros a Ha Hmem. apply (pendingOn_ids c sw a Hsnap Ha) in Hmem.
      now apply (pendingOn_iff c sw a Hsnap) in Hmem as (_ & _ & _ & Hn).
    + intros a c' Ha Hn. now apply (batch_row_accepts c sw).
  - rewrite Halerts. symmetry. now apply stamp_rejected.
Qed.

Lemma memZ_cons x i l : memZ x (i :: l) = (x =? i) || memZ x l.
Proof. reflexivity. Qed.

(* The rows of one in-app delivery: one accepted row per alert. *)
Lemma inapp_rows_accept sw (mk : JobAlert -> AlertDeliveryLog) a c' :
  snapshotOf st0 sw ->
  (forall x, log_channel (mk x) = InApp /\ log_savedSearchId (mk x) = search_id (search sw) /\
             log_alertId (mk x) = Some (alert_id x) /\ log_accepted (mk x) = true) ->
  In a (jobAlerts st0) ->
  forall pending, incl pending (pendingOn InApp sw) ->
  acceptedIn c' a (List.map mk pending) =
  Channel_eqb InApp c' && memZ (alert_id a) (List.map alert_id pending).
Proof.
  intros Hsnap Hmk Ha. induction pending as [| x rest IH]; intros Hincl.
  - cbn. now rewrite andb_false_r.
  - cbn [List.map]. change (mk x :: List.map mk rest) with ([mk x] ++ List.map mk rest).
    rewrite acceptedIn_app, IH by (intros y Hy; apply Hincl; now right).
    destruct (Hmk x) as (H1 & H2 & H3 & H4).
    rewrite (single_row_accepts InApp sw x (mk x) a c' Hsnap
               (Hincl x (or_introl eq_refl)) H1 H2 H3 H4 Ha).
    rewrite !memZ_cons. cbn [memZ existsb].
    destruct (Channel_eqb InApp c'), (alert_id a =? alert_id x),
             (memZ (alert_id a) (List.map alert_id rest)); reflexivity.
Qed.

Lemma during_rows_inapp sw (mk : JobAlert -> AlertDeliveryLog) l d st :
  snapshotOf st0 sw ->
  (forall x, log_channel (mk x) = InApp /\ log_savedSearchId (mk x) = search_id (search sw) /\
             log_alertId (mk x) = Some (alert_id x) /\ log_accepted (mk x) = true) ->
  DuringRun now st0 l d st ->
  DuringRun now st0 (l ++ List.map mk (pendingOn InApp sw)) d
    (updateAlerts (List.map alert_id (pendingOn InApp sw)) InApp now
       (createLogs (List.map mk (pendingOn InApp sw)) st)).
Proof.
  intros Hsnap Hmk (Hlogs & Halerts & Hsearches).
  unfold DuringRun;
    cbn [updateAlerts createLogs jobAlerts deliveryLogs savedSearches]; repeat split;
    try (rewrite Hlogs; now rewrite app_assoc); try assumption.
  rewrite Halerts. apply stamp_update.
  - intros a Ha Hmem. apply (pendingOn_ids InApp sw a Hsnap Ha) in Hmem.
    now apply (pendingOn_iff InApp sw a Hsnap) in Hmem as (_ & _ & _ & Hn).
  - intros a c' Ha _. apply (inapp_rows_accept sw mk a c' Hsnap Hmk Ha).
    apply incl_refl.
Qed.


Lemma providerAnswer_email s alertId kind n input subject payload :
  providerAnswer w
    (deliveryLog s alertId Email kind (sendIntegrationEmail w n input) subject payload now).
Proof. unfold providerAnswer. cbn. eauto. Qed.

Lemma providerAnswer_push s alertId kind n input subject payload :
  providerAnswer w
    (deliveryLog s alertId Push kind (sendIntegrationPush w n input) subject payload now).
Proof. unfold providerAnswer. cbn. eauto. Qed.

Lemma ChannelLogs_nil c s : ChannelLogs w c s [] [].
Proof. repeat split; intros; contradiction. Qed.

Lemma ChannelLogs_cons c s x rest log logs :
  log_channel log = c -> log_savedSearchId log = search_id s ->
  log_alertId log = Some (alert_id x) -> providerAnswer w log ->
  ChannelLogs w c s rest logs -> ChannelLogs w c s (x :: rest) (log :: logs).
Proof.
  intros Hc Hs Hid Hanswer (Hrows & Hall & _). split; [| split].
  - intros log' [<- | Hin].
    + repeat split; try assumption. right. exists x. split; [now left | assumption].
    + destruct (Hrows log' Hin) as (Hc' & Hs' & Hx & Ha'). repeat split; try assumption.
      destruct Hx as [Hn | (y & Hy & E)]; [now left |].
      right. exists y. split; [now right | assumption].
  - intros y [<- | Hy].
    + exists log. split; [now left | now right].
    + destruct (Hall y Hy) as (log' & Hin & Hcov). exists log'. split; [now right | assumption].
  - discriminate.
Qed.

Lemma ChannelLogs_batch c s pending log :
  pending <> [] ->
  log_channel log = c -> log_savedSearchId log = search_id s -> log_alertId log = None ->
  providerAnswer w log ->
  ChannelLogs w c s pending [log].
Proof.
  intros Hne Hc Hs Hid Hanswer. split; [| split].
  - intros log' [<- | []]. repeat split; try assumption. now left.
  - intros x _. exists log. split; [now left | now left].
  - intros ->. congruence.
Qed.

Lemma ChannelLogs_map s (mk : JobAlert -> AlertDeliveryLog) pending :
  (forall x, log_channel (mk x) = InApp /\ log_savedSearchId (mk x) = search_id s /\
             log_alertId (mk x) = Some (alert_id x) /\ log_accepted (mk x) = true) ->
  ChannelLogs w InApp s pending (List.map mk pending).
Proof.
  intros Hmk. induction pending as [| x rest IH]; [apply ChannelLogs_nil |].
  destruct (Hmk x) as (H1 & H2 & H3 & H4). cbn [List.map].
  apply ChannelLogs_cons; try assumption.
  unfold providerAnswer. now rewrite H1.
Qed.

(* One iteration of the instant e-mail loop writes one row for its alert
   and stamps the alert when the row is an accepted one. *)
Lemma emailOneAlert_store s r x :
  exists res subject payload,
    (exists n input, res = sendIntegrationEmail w n input) /\
    let log := deliveryLog s (Some (alert_id x)) Email KindInstant res subject payload now in
    store (emailOneAlert w s now r x) =
    if log_accepted log
    then updateAlerts [alert_id x] Email now (createLogs [log] (store r))
    else createLogs [log] (store r).
Proof.
  exists (sendIntegrationEmail w (calls r)
            {| to := user_email s;
               subject := subjectForInstant (title (job x)) (company (job x));
               text := payloadForInstant x |}),
         (subjectForInstant (title (job x)) (company (job x))), (payloadForInstant x).
  split; [eauto |].
  unfold emailOneAlert. cbn [log_accepted deliveryLog calls add].
  destruct (accepted _); reflexivity.
Qed.

(* The instant e-mail loop. *)
Lemma instant_email_effect sw d :
  snapshotOf st0 sw ->
  forall pending, incl pending (pendingOn Email sw) ->
  forall r l, DuringRun now st0 l d (store r) ->
  exists le,
    DuringRun now st0 (l ++ le) d
      (store (fold_left (emailOneAlert w (search sw) now) pending r)) /\
    ChannelLogs w Email (search sw) pending le.
Proof.
  intros Hsnap. induction pending as [| x rest IH]; intros Hincl r l Hrun.
  - exists []. rewrite app_nil_r. split; [assumption | apply ChannelLogs_nil].
  - cbn [fold_left].
    destruct (emailOneAlert_store (search sw) r x)
      as (res & subj & payload & (n & input & ->) & Hstore).
    cbv zeta in Hstore.
    set (log := deliveryLog (search sw) (Some (alert_id x)) Email KindInstant
                 (sendIntegrationEmail w n input) subj
                            payload now) in *.
    assert (Hstep : DuringRun now st0 (l ++ [log]) d
                      (store (emailOneAlert w (search sw) now r x))).
    { rewrite Hstore.
      now apply (during_rows_single Email sw x log l d (store r) Hsnap
                   (Hincl x (or_introl eq_refl))). }
    destruct (IH (fun y Hy => Hincl y (or_intror Hy)) _ _ Hstep) as (le & Hle & Hch).
    exists (log :: le). split.
    + now rewrite <- app_assoc in Hle.
    + apply ChannelLogs_cons; try reflexivity; try assumption. apply providerAnswer_email.
Qed.


Lemma pushOneAlert_store s acc x :
  exists res subject payload,
    (exists n input, res = sendIntegrationPush w n input) /\
    let log := deliveryLog s (Some (alert_id x)) Push KindInstant res subject payload now in
    store (snd (pushOneAlert w s now acc x)) =
    if log_accepted log
    then updateAlerts [alert_id x] Push now (createLogs [log] (store (snd acc)))
    else createLogs [log] (store (snd acc)).
Proof.
  destruct acc as [o r].
  exists (sendIntegrationPush w (calls r)
            {| recipient := user_email s;
               push_title := "Faypath match: " +:+ title (job x);
               body := pushBodyForAlert x (label s);
               data := InstantData (search_id s) (alert_id x) (title (job x)) |}),
         ("Faypath match: " +:+ title (job x)), (pushBodyForAlert x (label s)).
  split; [eauto |].
  unfold pushOneAlert. cbn [log_accepted deliveryLog calls snd].
  destruct (accepted _); reflexivity.
Qed.

(* The loop of [deliverPushInstantPerAlert]. *)
Lemma instant_push_effect sw d :
  snapshotOf st0 sw ->
  forall pending, incl pending (pendingOn Push sw) ->
  forall acc l, DuringRun now st0 l d (store (snd acc)) ->
  exists lp,
    DuringRun now st0 (l ++ lp) d
      (store (snd (fold_left (pushOneAlert w (search sw) now) pending acc))) /\
    ChannelLogs w Push (search sw) pending lp.
Proof.
  intros Hsnap. induction pending as [| x rest IH]; intros Hincl acc l Hrun.
  - exists []. rewrite app_nil_r. split; [assumption | apply ChannelLogs_nil].
  - cbn [fold_left].
    destruct (pushOneAlert_store (search sw) acc x)
      as (res & subj & payload & (n & input & ->) & Hstore).
    cbv zeta in Hstore.
    set (log := deliveryLog (search sw) (Some (alert_id x)) Push KindInstant
                 (sendIntegrationPush w n input) subj
                            payload now) in *.
    assert (Hstep : DuringRun now st0 (l ++ [log]) d
                      (store (snd (pushOneAlert w (search sw) now acc x)))).
    { rewrite Hstore.
      now apply (during_rows_single Push sw x log l d (store (snd acc)) Hsnap
                   (Hincl x (or_introl eq_refl))). }
    destruct (IH (fun y Hy => Hincl y (or_intror Hy)) _ _ Hstep) as (lp & Hlp & Hch).
    exists (log :: lp). split.
    + now rewrite <- app_assoc in Hlp.
    + apply ChannelLogs_cons; try reflexivity; try assumption. apply providerAnswer_push.
Qed.

Lemma deliverPushDigest_store s x rest cadence r :
  exists res subject payload,
    (exists n input, res = sendIntegrationPush w n input) /\
    let log := deliveryLog s None Push KindDigest res subject payload now in
    store (snd (deliverPushDigest w s (x :: rest) now cadence r)) =
    if log_accepted log
    then updateAlerts (List.map alert_id (x :: rest)) Push now (createLogs [log] (store r))
    else createLogs [log] (store r).
Proof.
  set (subject :=
         "Faypath " +:+ match cadence with weekly => "weekly" | _ => "daily" end +:+
         " push digest").
  exists (sendIntegrationPush w (calls r)
            {| recipient := user_email s; push_title := subject;
               body := pushDigestBody (label s) (x :: rest) cadence;
               data := DigestData (search_id s) (List.map alert_id (x :: rest)) cadence |}),
         subject, (pushDigestBody (label s) (x :: rest) cadence).
  split; [eauto |].
  unfold deliverPushDigest. fold subject. cbn [log_accepted deliveryLog snd].
  destruct (accepted _); reflexivity.
Qed.

(* One batched push for all the alerts pending on the push channel. *)
Lemma push_digest_effect sw d cadence :
  snapshotOf st0 sw ->
  forall r l, DuringRun now st0 l d (store r) ->
  exists lp,
    DuringRun now st0 (l ++ lp) d
      (store (snd (deliverPushDigest w (search sw) (pendingOn Push sw) now cadence r))) /\
    ChannelLogs w Push (search sw) (pendingOn Push sw) lp.
Proof.
  intros Hsnap r l Hrun.
  destruct (pendingOn Push sw) as [| x rest] eqn:E.
  - exists []. rewrite app_nil_r. split; [assumption | apply ChannelLogs_nil].
  - destruct (deliverPushDigest_store (search sw) x rest cadence r)
      as (res & subj & payload & (n & input & ->) & Hstore).
    cbv zeta in Hstore. rewrite Hstore, <- E.
    set (log := deliveryLog (search sw) None Push KindDigest
                 (sendIntegrationPush w n input) subj payload now).
    assert (Hne : pendingOn Push sw <> []) by (rewrite E; discriminate).
    exists [log]. split.
    + now apply (during_rows_batch Push sw log).
    + apply ChannelLogs_batch; try reflexivity; try assumption. apply providerAnswer_push.
Qed.


Lemma digestEmail_store s cadence x rest r :
  exists res subject payload,
    (exists n input, res = sendIntegrationEmail w n input) /\
    let log := deliveryLog s None Email KindDigest res subject payload now in
    store (digestEmail w s cadence (x :: rest) now r) =
    if log_accepted log
    then updateAlerts (List.map alert_id (x :: rest)) Email now (createLogs [log] (store r))
    else createLogs [log] (store r).
Proof.
  exists (sendIntegrationEmail w (calls r)
            {| to := user_email s;
               subject := subjectForDigest (label s) cadence (lenZ (x :: rest));
               text := payloadForDigest (label s) cadence (x :: rest) |}),
         (subjectForDigest (label s) cadence (lenZ (x :: rest))),
         (payloadForDigest (label s) cadence (x :: rest)).
  split; [eauto |].
  unfold digestEmail. cbn [log_accepted deliveryLog calls add].
  destruct (accepted _); reflexivity.
Qed.

(* One digest e-mail for all the alerts pending on the e-mail channel. *)
Lemma digest_email_effect sw d cadence :
  snapshotOf st0 sw ->
  forall r l, DuringRun now st0 l d (store r) ->
  exists le,
    DuringRun now st0 (l ++ le) d
      (store (digestEmail w (search sw) cadence (pendingOn Email sw) now r)) /\
    ChannelLogs w Email (search sw) (pendingOn Email sw) le.
Proof.
  intros Hsnap r l Hrun.
  destruct (pendingOn Email sw) as [| x rest] eqn:E.
  - exists []. rewrite app_nil_r. split; [assumption | apply ChannelLogs_nil].
  - destruct (digestEmail_store (search sw) cadence x rest r)
      as (res & subj & payload & (n & input & ->) & Hstore).
    cbv zeta in Hstore. rewrite Hstore, <- E.
    set (log := deliveryLog (search sw) None Email KindDigest
                 (sendIntegrationEmail w n input) subj payload now).
    assert (Hne : pendingOn Email sw <> []) by (rewrite E; discriminate).
    exists [log]. split.
    + now apply (during_rows_batch Email sw log).
    + apply ChannelLogs_batch; try reflexivity; try assumption. apply providerAnswer_email.
Qed.

Lemma inAppLog_row s kind subject payload x :
  log_channel (inAppLog s kind subject payload now x) = InApp /\
  log_savedSearchId (inAppLog s kind subject payload now x) = search_id s /\
  log_alertId (inAppLog s kind subject payload now x) = Some (alert_id x) /\
  log_accepted (inAppLog s kind subject payload now x) = true.
Proof. repeat split. Qed.

(* The in-app delivery of a search: one accepted row per pending alert,
   and all of them stamped. *)
Lemma inapp_rows_effect sw d kind subject payload st' :
  snapshotOf st0 sw ->
  forall st l,
    DuringRun now st0 l d st ->
    st' = match pendingOn InApp sw with
          | [] => st
          | _ :: _ =>
              updateAlerts (List.map alert_id (pendingOn InApp sw)) InApp now
                (createLogs (List.map (inAppLog (search sw) kind subject payload now)
                                      (pendingOn InApp sw)) st)
          end ->
    exists li,
      DuringRun now st0 (l ++ li) d st' /\
      ChannelLogs w InApp (search sw) (pendingOn InApp sw) li /\
      (List.map log_alertId li = List.map (fun a => Some (alert_id a)) (pendingOn InApp sw) /\
       forall log, In log li -> log_accepted log = true).
Proof.
  intros Hsnap st l Hrun ->.
  exists (List.map (inAppLog (search sw) kind subject payload now) (pendingOn InApp sw)).
  split; [| split].
  - destruct (pendingOn InApp sw) as [| x rest] eqn:E.
    + cbn. now rewrite app_nil_r.
    + rewrite <- E.
      apply (during_rows_inapp sw); [assumption | | assumption].
      intros y. apply inAppLog_row.
  - apply ChannelLogs_map. intros y. apply inAppLog_row.
  - split; [rewrite List.map_map; reflexivity |].
    intros log Hin. apply in_map_iff in Hin as (y & <- & _). reflexivity.
Qed.

Lemma instantInApp_store s pending r :
  store (instantInApp s pending now r) =
  match pending with
  | [] => store r
  | _ :: _ =>
      updateAlerts (List.map alert_id pending) InApp now
        (createLogs
           (List.map (inAppLog s KindInstant ("In-app match alerts: " +:+ label s)
                        ("Delivered " +:+ Js.showZ (lenZ pending) +:+
                         " instant in-app alerts.") now) pending)
           (store r))
  end.
Proof. destruct pending; reflexivity. Qed.

Lemma digestInApp_store s cadence pending r :
  store (digestInApp s cadence pending now r) =
  match pending with
  | [] => store r
  | _ :: _ =>
      updateAlerts (List.map alert_id pending) InApp now
        (createLogs
           (List.map (inAppLog s KindDigest ("In-app digest: " +:+ label s)
                        (payloadForDigest (label s) cadence pending) now) pending)
           (store r))
  end.
Proof. destruct pending; reflexivity. Qed.

Lemma instantPush_store s pending r :
  store (instantPush w s pending now r) =
  match pending with
  | [] => store r
  | _ :: _ =>
      if pushDeferred s
      then store (snd (deliverPushDigest w s pending now instant
                         (add attemptedDeliveries 1 r)))
      else store (snd (deliverPushInstantPerAlert w s pending now
                         (add attemptedDeliveries (lenZ pending) r)))
  end.
Proof.
  destruct pending as [| x rest]; [reflexivity |].
  unfold instantPush. destruct (pushDeferred s).
  - destruct (deliverPushDigest _ _ _ _ _ _); reflexivity.
  - destruct (deliverPushInstantPerAlert _ _ _ _ _); reflexivity.
Qed.

Lemma digestPush_store s cadence pending r :
  store (digestPush w s cadence pending now r) =
  match pending with
  | [] => store r
  | _ :: _ =>
      store (snd (deliverPushDigest w s pending now cadence (add attemptedDeliveries 1 r)))
  end.
Proof.
  destruct pending as [| x rest]; [reflexivity |].
  unfold digestPush. destruct (deliverPushDigest _ _ _ _ _ _); reflexivity.
Qed.


Lemma instantPush_effect sw d :
  snapshotOf st0 sw ->
  forall r l, DuringRun now st0 l d (store r) ->
  exists lp,
    DuringRun now st0 (l ++ lp) d
      (store (instantPush w (search sw) (pendingOn Push sw) now r)) /\
    ChannelLogs w Push (search sw) (pendingOn Push sw) lp.
Proof.
  intros Hsnap r l Hrun. rewrite instantPush_store.
  destruct (pendingOn Push sw) as [| x rest] eqn:E.
  - exists []. rewrite app_nil_r. split; [assumption | apply ChannelLogs_nil].
  - rewrite <- E. destruct (pushDeferred (search sw)).
    + now apply (push_digest_effect sw d instant Hsnap
                   (add attemptedDeliveries 1 r)).
    + unfold deliverPushInstantPerAlert.
      apply (instant_push_effect sw d Hsnap); [apply incl_refl | assumption].
Qed.

Lemma digestPush_effect sw d cadence :
  snapshotOf st0 sw ->
  forall r l, DuringRun now st0 l d (store r) ->
  exists lp,
    DuringRun now st0 (l ++ lp) d
      (store (digestPush w (search sw) cadence (pendingOn Push sw) now r)) /\
    ChannelLogs w Push (search sw) (pendingOn Push sw) lp.
Proof.
  intros Hsnap r l Hrun. rewrite digestPush_store.
  destruct (pendingOn Push sw) as [| x rest] eqn:E.
  - exists []. rewrite app_nil_r. split; [assumption | apply ChannelLogs_nil].
  - rewrite <- E.
    now apply (push_digest_effect sw d cadence Hsnap
                 (add attemptedDeliveries 1 r)).
Qed.

Lemma memZ_app x l l' : memZ x (l ++ l') = memZ x l || memZ x l'.
Proof. unfold memZ. apply existsb_app. Qed.

Lemma touch_digest d id (searches0 : list SavedSearch) :
  List.map (fun s => if search_id s =? id then setLastDigestAt now s else s)
           (List.map (touch now d) searches0) =
  List.map (touch now (d ++ [id])) searches0.
Proof.
  rewrite List.map_map. apply map_ext. intros s.
  unfold touch. rewrite memZ_app. cbn [memZ existsb]. rewrite orb_false_r.
  destruct (memZ (search_id s) d); cbn [orb search_id setLastDigestAt].
  - now destruct (search_id s =? id).
  - reflexivity.
Qed.

Lemma during_digest l d st id :
  DuringRun now st0 l d st ->
  DuringRun now st0 l (d ++ [id]) (updateSearchDigest id now st).
Proof.
  intros (Hlogs & Halerts & Hsearches). unfold DuringRun.
  cbn [updateSearchDigest deliveryLogs jobAlerts savedSearches].
  repeat split; try assumption. rewrite Hsearches. apply touch_digest.
Qed.

(* The three channels of a search, one after the other. *)
Lemma three_channels sw l d st1 st2 st3 le li lp :
  DuringRun now st0 (l ++ le) d st1 ->
  DuringRun now st0 ((l ++ le) ++ li) d st2 ->
  DuringRun now st0 (((l ++ le) ++ li) ++ lp) d st3 ->
  ChannelLogs w Email (search sw) (pendingOn Email sw) le ->
  ChannelLogs w InApp (search sw) (pendingOn InApp sw) li ->
  (List.map log_alertId li = List.map (fun a => Some (alert_id a)) (pendingOn InApp sw) /\
   forall log, In log li -> log_accepted log = true) ->
  ChannelLogs w Push (search sw) (pendingOn Push sw) lp ->
  DuringRun now st0 (l ++ le ++ li ++ lp) d st3 /\
  exists le' li' lp',
    le ++ li ++ lp = le' ++ li' ++ lp' /\
    ChannelLogs w Email (search sw) (pendingOn Email sw) le' /\
    ChannelLogs w InApp (search sw) (pendingOn InApp sw) li' /\
    (List.map log_alertId li' = List.map (fun a => Some (alert_id a)) (pendingOn InApp sw) /\
     forall log, In log li' -> log_accepted log = true) /\
    ChannelLogs w Push (search sw) (pendingOn Push sw) lp'.
Proof.
  intros _ _ H3 He Hi Hids Hp. split.
  - now rewrite <- !app_assoc in H3.
  - exists le, li, lp. auto.
Qed.

Lemma processSearch_effect sw r l d :
  snapshotOf st0 sw ->
  DuringRun now st0 l d (store r) ->
  exists ls,
    SearchLogs w now sw ls /\
    DuringRun now st0 (l ++ ls)
      (if dueDigest w now sw then d ++ [search_id (search sw)] else d)
      (store (processSearch w now r sw)).
Proof.
  intros Hsnap Hrun.
  unfold processSearch, SearchLogs, delivers, dueDigest, hasPending, isInstant, dueNow,
    cadenceOf.
  destruct (pendingUniqueCount (channelPendingCounts sw) =? 0) eqn:Hzero; cbn [negb andb].
  { exists []. rewrite app_nil_r. auto. }
  change (emailAlerts (channelPendingCounts sw)) with (pendingOn Email sw).
  change (inAppAlerts (channelPendingCounts sw)) with (pendingOn InApp sw).
  change (pushAlerts (channelPendingCounts sw)) with (pendingOn Push sw).
  assert (Hinstant :
    exists ls,
      (exists le li lp,
         ls = le ++ li ++ lp /\
         ChannelLogs w Email (search sw) (pendingOn Email sw) le /\
         ChannelLogs w InApp (search sw) (pendingOn InApp sw) li /\
         (List.map log_alertId li =
            List.map (fun a => Some (alert_id a)) (pendingOn InApp sw) /\
          forall log, In log li -> log_accepted log = true) /\
         ChannelLogs w Push (search sw) (pendingOn Push sw) lp) /\
      DuringRun now st0 (l ++ ls) d
        (store (instantPush w (search sw) (pendingOn Push sw) now
                  (instantInApp (search sw) (pendingOn InApp sw) now
                     (fold_left (emailOneAlert w (search sw) now) (pendingOn Email sw)
                                (add searchesScanned 1 r)))))).
  { destruct (instant_email_effect sw d Hsnap (pendingOn Email sw)
                (incl_refl _) (add searchesScanned 1 r) l Hrun) as (le & Hle & Hce).
    destruct (inapp_rows_effect sw d KindInstant _ _ _ Hsnap _ _ Hle
                (instantInApp_store (search sw) (pendingOn InApp sw) _))
      as (li & Hli & Hci & Hids).
    destruct (instantPush_effect sw d Hsnap _ _ Hli) as (lp & Hlp & Hcp).
    destruct (three_channels sw l d _ _ _ le li lp Hle Hli Hlp Hce Hci Hids Hcp)
      as [Hall Hrows].
    exists (le ++ li ++ lp). split; assumption. }
  assert (Hdigest : forall cadence,
    exists ls,
      (exists le li lp,
         ls = le ++ li ++ lp /\
         ChannelLogs w Email (search sw) (pendingOn Email sw) le /\
         ChannelLogs w InApp (search sw) (pendingOn InApp sw) li /\
         (List.map log_alertId li =
            List.map (fun a => Some (alert_id a)) (pendingOn InApp sw) /\
          forall log, In log li -> log_accepted log = true) /\
         ChannelLogs w Push (search sw) (pendingOn Push sw) lp) /\
      DuringRun now st0 (l ++ ls) (d ++ [search_id (search sw)])
        (store (onStore (updateSearchDigest (search_id (search sw)) now)
                  (digestPush w (search sw) cadence (pendingOn Push sw) now
                     (digestInApp (search sw) cadence (pendingOn InApp sw) now
                        (digestEmail w (search sw) cadence (pendingOn Email sw) now
                           (add searchesScanned 1 r))))))).
  { intros cadence.
    destruct (digest_email_effect sw d cadence Hsnap
                (add searchesScanned 1 r) l Hrun) as (le & Hle & Hce).
    destruct (inapp_rows_effect sw d KindDigest _ _ _ Hsnap _ _ Hle
                (digestInApp_store (search sw) cadence (pendingOn InApp sw) _))
      as (li & Hli & Hci & Hids).
    destruct (digestPush_effect sw d cadence Hsnap _ _ Hli) as (lp & Hlp & Hcp).
    destruct (three_channels sw l d _ _ _ le li lp Hle Hli Hlp Hce Hci Hids Hcp)
      as [Hall Hrows].
    exists (le ++ li ++ lp). split; [assumption |].
    cbn [onStore store]. now apply during_digest. }
  destruct (normalizeCadence (search_digestCadence (search sw))) eqn:Hcad;
    cbn [negb andb orb].
  - exact Hinstant.
  - destruct (isDigestDue w daily (digestHour (search sw)) (lastDigestAt (search sw)) now);
      cbn [negb].
    + apply Hdigest.
    + exists []. rewrite app_nil_r. auto.
  - destruct (isDigestDue w weekly (digestHour (search sw)) (lastDigestAt (search sw)) now);
      cbn [negb].
    + apply Hdigest.
    + exists []. rewrite app_nil_r. auto.
Qed.


End AlertRun.

End AlertFacts.

(** ** The run as a whole *)

Section RunEffect.
Import Alerts AlertProps.
Context (w : World) (now : Z) (st0 : Store) (Hwf : wfStore st0).

(* The loop over the fetched searches: every search contributes its rows,
   and the due digests are stamped. *)
Lemma searches_effect searches :
  (forall sw, In sw searches -> snapshotOf st0 sw) ->
  forall r l d,
    DuringRun now st0 l d (store r) ->
    exists lss,
      Forall2 (SearchLogs w now) searches lss /\
      DuringRun now st0 (l ++ concat lss)
        (d ++ List.map (fun sw => search_id (search sw))
                       (List.filter (dueDigest w now) searches))
        (store (fold_left (processSearch w now) searches r)).
Proof.
  induction searches as [| sw rest IH]; intros Hsnap r l d Hrun.
  - exists []. cbn. rewrite !app_nil_r. split; [constructor | assumption].
  - cbn [fold_left].
    destruct (processSearch_effect w now st0 Hwf sw r l d (Hsnap sw (or_introl eq_refl)) Hrun)
      as (ls & Hls & Hstep).
    destruct (IH (fun y Hy => Hsnap y (or_intror Hy)) _ _ _ Hstep) as (lss & Hlss & Hrest).
    exists (ls :: lss). split; [now constructor |].
    cbn [concat List.filter]. rewrite app_assoc.
    destruct (dueDigest w now sw); cbn [List.map].
    + rewrite <- (app_assoc d) in Hrest. exact Hrest.
    + exact Hrest.
Qed.

Lemma fetched_snapshot userId' sw :
  In sw (fetchPendingSearches userId' st0) -> snapshotOf st0 sw.
Proof.
  unfold fetchPendingSearches. intros H. apply in_map_iff in H as (s & <- & Hs).
  apply filter_In in Hs as [Hs _]. split; [exact Hs | reflexivity].
Qed.

Lemma during_start : DuringRun now st0 [] [] st0.
Proof.
  unfold DuringRun. rewrite app_nil_r. repeat split.
  - rewrite <- (map_id (jobAlerts st0)) at 1. apply map_ext. intros a.
    symmetry. apply stampAll_nil.
  - rewrite <- (map_id (savedSearches st0)) at 1. apply map_ext. reflexivity.
Qed.

(* The run as a whole. *)
Lemma run_effect userId' :
  exists lss,
    Forall2 (SearchLogs w now) (fetchPendingSearches userId' st0) lss /\
    DuringRun now st0 (concat lss)
      (List.map (fun sw => search_id (search sw))
                (List.filter (dueDigest w now) (fetchPendingSearches userId' st0)))
      (store (runLoop w now (fetchPendingSearches userId' st0) st0)).
Proof.
  unfold runLoop.
  destruct (searches_effect (fetchPendingSearches userId' st0) (fetched_snapshot userId')
              {| store := st0; calls := 0%nat; counters := fun _ => 0 |} [] [] during_start)
    as (lss & Hlss & Hrun).
  exists lss. split; assumption.
Qed.

End RunEffect.

(** ** The rows of a run *)

Section RunRows.
Import Alerts AlertProps.
Context (w : World) (now : Z).

Lemma filter_none {A} (f : A -> bool) (l : list A) :
  (forall x, In x l -> f x = false) -> List.filter f l = [].
Proof.
  induction l as [| y l IH]; intros H; [reflexivity |].
  cbn. rewrite (H y (or_introl eq_refl)). apply IH. intros x Hx. apply H. now right.
Qed.

Lemma filter_all {A} (f : A -> bool) (l : list A) :
  (forall x, In x l -> f x = true) -> List.filter f l = l.
Proof.
  induction l as [| y l IH]; intros H; [reflexivity |].
  cbn. rewrite (H y (or_introl eq_refl)). f_equal. apply IH. intros x Hx. apply H. now right.
Qed.

(* Every row of a search names the search, a channel and an alert
   pending on that channel (or the whole batch), and carries the
   provider's answer. *)
Lemma SearchLogs_row sw ls log :
  SearchLogs w now sw ls -> In log ls ->
  delivers w now sw = true /\
  log_savedSearchId log = search_id (search sw) /\
  (log_alertId log = None \/
   exists x, In x (pendingOn (log_channel log) sw) /\ log_alertId log = Some (alert_id x)) /\
  providerAnswer w log.
Proof.
  unfold SearchLogs. destruct (delivers w now sw); [| intros ->; contradiction].
  intros (le & li & lp & -> & (He & _) & (Hi & _) & _ & (Hp & _)) Hin.
  split; [reflexivity |].
  rewrite !in_app_iff in Hin.
  destruct Hin as [Hin | [Hin | Hin]];
    [destruct (He log Hin) as (Hc & Hs & Hx & Ha)
    | destruct (Hi log Hin) as (Hc & Hs & Hx & Ha)
    | destruct (Hp log Hin) as (Hc & Hs & Hx & Ha)];
    rewrite Hc; auto.
Qed.


Lemma rows_from_delivered searches lss log :
  Forall2 (SearchLogs w now) searches lss -> In log (concat lss) ->
  exists sw, In sw searches /\ delivers w now sw = true /\
             log_savedSearchId log = search_id (search sw) /\
             (log_alertId log = None \/
              exists x, In x (pendingOn (log_channel log) sw) /\
                        log_alertId log = Some (alert_id x)) /\
             providerAnswer w log.
Proof.
  induction 1 as [| sw ls rest lss Hls _ IH]; cbn [concat]; [contradiction |].
  rewrite in_app_iff. intros [Hin | Hin].
  - exists sw. split; [now left | now apply (SearchLogs_row sw ls)].
  - destruct (IH Hin) as (sw' & Hsw' & Hrest). exists sw'. split; [now right | assumption].
Qed.


End RunRows.

(** ** The in-app rows of a search *)

Section InAppRows.
Import Alerts AlertProps.
Context (w : World) (now : Z).

Lemma SearchLogs_other sw ls id :
  SearchLogs w now sw ls -> search_id (search sw) <> id ->
  List.filter (inAppRowOf id) ls = [].
Proof.
  intros Hls Hne. apply filter_none. intros log Hin.
  destruct (SearchLogs_row w now sw ls log Hls Hin) as (_ & Hs & _).
  unfold inAppRowOf. rewrite Hs.
  replace (search_id (search sw) =? id) with false by (symmetry; now apply Z.eqb_neq).
  apply andb_false_r.
Qed.

Lemma SearchLogs_inapp sw ls :
  SearchLogs w now sw ls -> delivers w now sw = true ->
  List.map log_alertId (List.filter (inAppRowOf (search_id (search sw))) ls) =
  List.map (fun a => Some (alert_id a)) (pendingOn InApp sw).
Proof.
  unfold SearchLogs. intros H Hd. rewrite Hd in H.
  destruct H as (le & li & lp & -> & (He & _) & (Hi & _) & (Hids & _) & (Hp & _)).
  rewrite !List.filter_app.
  rewrite (filter_none _ le), (filter_all _ li), (filter_none _ lp).
  - now rewrite app_nil_r.
  - intros log Hin. destruct (Hp log Hin) as (Hc & _). unfold inAppRowOf. now rewrite Hc.
  - intros log Hin. destruct (Hi log Hin) as (Hc & Hs & _). unfold inAppRowOf.
    now rewrite Hc, Hs, Z.eqb_refl.
  - intros log Hin. destruct (He log Hin) as (Hc & _). unfold inAppRowOf. now rewrite Hc.
Qed.

Lemma inapp_rows_of_others searches lss id :
  Forall2 (SearchLogs w now) searches lss ->
  (forall sw, In sw searches -> search_id (search sw) <> id) ->
  List.filter (inAppRowOf id) (concat lss) = [].
Proof.
  induction 1 as [| sw ls rest lss Hls _ IH]; intros Hne; [reflexivity |].
  cbn [concat]. rewrite List.filter_app.
  rewrite (SearchLogs_other sw ls id Hls (Hne sw (or_introl eq_refl))).
  apply IH. intros sw' Hsw'. apply Hne. now right.
Qed.

Lemma inapp_rows_of_search searches lss sw :
  Forall2 (SearchLogs w now) searches lss ->
  List.NoDup (List.map (fun sw => search_id (search sw)) searches) ->
  In sw searches -> delivers w now sw = true ->
  List.map log_alertId (List.filter (inAppRowOf (search_id (search sw))) (concat lss)) =
  List.map (fun a => Some (alert_id a)) (pendingOn InApp sw).
Proof.
  induction 1 as [| sw' ls rest lss Hls Hrest IH]; [contradiction |].
  cbn [List.map concat]. intros Hnd Hin Hd.
  apply List.NoDup_cons_iff in Hnd as [Hfresh Hnd].
  rewrite List.filter_app, List.map_app.
  destruct Hin as [-> | Hin].
  - rewrite (SearchLogs_inapp sw ls Hls Hd).
    rewrite (inapp_rows_of_others rest lss (search_id (search sw)) Hrest).
    + now rewrite app_nil_r.
    + intros sw' Hsw' E. apply Hfresh. rewrite <- E.
      now apply (in_map (fun sw => search_id (search sw))).
  - rewrite (SearchLogs_other sw' ls (search_id (search sw)) Hls).
    + now apply IH.
    + intros E. apply Hfresh. rewrite E.
      now apply (in_map (fun sw => search_id (search sw))).
Qed.

End InAppRows.

(** ** Fetched searches and store keys *)

Section Fetching.
Import Alerts AlertProps.

Lemma NoDup_map_filter {A B} (f : A -> B) (p : A -> bool) (l : list A) :
  List.NoDup (List.map f l) -> List.NoDup (List.map f (List.filter p l)).
Proof.
  induction l as [| x l IH]; cbn; [trivial |].
  intros Hnd. apply List.NoDup_cons_iff in Hnd as [Hx Hnd].
  destruct (p x); cbn; [| now apply IH].
  apply List.NoDup_cons_iff. split; [| now apply IH].
  intros Hin. apply Hx. apply in_map_iff in Hin as (y & E & Hy).
  apply filter_In in Hy as [Hy _]. rewrite <- E. now apply in_map.
Qed.

Lemma fetched_ids_nodup userId' st :
  wfStore st ->
  List.NoDup (List.map (fun sw => search_id (search sw)) (fetchPendingSearches userId' st)).
Proof.
  intros [_ Hnd]. unfold fetchPendingSearches. rewrite List.map_map. cbn [search].
  now apply NoDup_map_filter.
Qed.

(* A pending alert makes the count of unique pending alerts positive. *)
Lemma hasPending_of_pending c sw x : In x (pendingOn c sw) -> hasPending sw = true.
Proof.
  intros Hx. unfold hasPending, channelPendingCounts. cbn [pendingUniqueCount].
  apply negb_true_iff, Z.eqb_neq. intros Hzero.
  apply (f_equal Z.to_nat) in Hzero. rewrite Nat2Z.id in Hzero. cbn in Hzero.
  apply size_empty_iff in Hzero.
  assert (Hin : alert_id x ∈
            List.map alert_id (pendingOn Email sw) ++
            List.map alert_id (pendingOn InApp sw) ++
            List.map alert_id (pendingOn Push sw)).
  { apply list_elem_of_In. rewrite !in_app_iff.
    destruct c; [left | right; left | right; right]; now apply in_map. }
  apply (elem_of_list_to_set (C := gset Z)) in Hin.
  unfold pendingOn, channelPendingCounts in Hin. cbn in Hin.
  rewrite Hzero in Hin. now apply not_elem_of_empty in Hin.
Qed.

Lemma touch_id now d s : search_id (touch now d s) = search_id s.
Proof. unfold touch. now destruct (memZ _ _). Qed.


(* A run keeps the keys of the store. *)
Lemma during_wf now st0 l d st :
  wfStore st0 -> DuringRun now st0 l d st -> wfStore st.
Proof.
  intros [Ha Hs] (_ & Halerts & Hsearches). unfold wfStore.
  rewrite Halerts, Hsearches, !List.map_map. split.
  - erewrite map_ext; [exact Ha | reflexivity].
  - erewrite map_ext; [exact Hs | intros s; apply touch_id].
Qed.

End Fetching.

(** ** In-app delivery of instant searches *)

Section InAppDelivery.
Import Alerts AlertProps.

Lemma run_rows w sc userId' now st :
  wfStore st ->
  exists lss,
    Forall2 (SearchLogs w now) (fetchPendingSearches userId' st) lss /\
    DuringRun now st (concat lss)
      (List.map (fun sw => search_id (search sw))
                (List.filter (dueDigest w now) (fetchPendingSearches userId' st)))
      (snd (runAlertDeliveryJob w sc userId' now st)).
Proof. intros Hwf. apply (run_effect w now st Hwf userId'). Qed.

Lemma covers_row c x log :
  log_channel log = c -> log_savedSearchId log = alert_savedSearchId x ->
  log_alertId log = None \/ log_alertId log = Some (alert_id x) ->
  covers c x log = true.
Proof.
  intros Hc Hs Hid. unfold covers. rewrite Hc, Hs, Channel_eqb_refl, Z.eqb_refl.
  destruct Hid as [-> | ->]; [reflexivity | cbn; apply Z.eqb_refl].
Qed.

Lemma inapp_accepted_when_delivered w now searches lss sw x :
  Forall2 (SearchLogs w now) searches lss -> In sw searches ->
  delivers w now sw = true -> In x (pendingOn InApp sw) ->
  alert_savedSearchId x = search_id (search sw) ->
  acceptedIn InApp x (concat lss) = true.
Proof.
  induction 1 as [| sw' ls rest lss Hls _ IH]; cbn [concat]; [contradiction |].
  intros Hin Hd Hx Hxs. rewrite acceptedIn_app. apply orb_true_iff.
  destruct Hin as [-> | Hin]; [left | right; now apply IH].
  unfold SearchLogs in Hls. rewrite Hd in Hls.
  destruct Hls as (le & li & lp & -> & _ & (Hi & Hi' & _) & (_ & Hacc) & _).
  destruct (Hi' x Hx) as (log & Hlog & Hcov). destruct (Hi log Hlog) as (Hc & Hs & _).
  unfold acceptedIn. apply existsb_exists. exists log. split.
  - rewrite !in_app_iff. auto.
  - rewrite (Hacc log Hlog). cbn [andb]. apply covers_row; congruence.
Qed.

(** C6 (as the code has it). For an instant-cadence search with n >= 1
    pending in-app alerts, a run stamps all n alerts on the in-app channel
    with the run time and writes n in-app rows for the search, one accepted
    row per alert. *)
Theorem instant_inapp_rows
    (w : World) (sc : DeliveryScope) (userId' : option string) (now : Z) (st : Store)
    (sw : SavedSearchWithPendingAlerts) :
  wfStore st ->
  In sw (fetchPendingSearches userId' st) ->
  isInstant sw = true ->
  pendingOn InApp sw <> [] ->
  let st' := snd (runAlertDeliveryJob w sc userId' now st) in
  exists rows,
    deliveryLogs st' = deliveryLogs st ++ rows /\
    jobAlerts st' = List.map (stampAll now rows) (jobAlerts st) /\
    (forall a, In a (pendingOn InApp sw) ->
       In a (jobAlerts st) /\ inAppSentAt (stampAll now rows a) = Some now) /\
    List.map log_alertId (List.filter (inAppRowOf (search_id (search sw))) rows) =
      List.map (fun a => Some (alert_id a)) (pendingOn InApp sw) /\
    length (List.filter (inAppRowOf (search_id (search sw))) rows) =
      length (pendingOn InApp sw) /\
    (forall log, In log (List.filter (inAppRowOf (search_id (search sw))) rows) ->
       log_accepted log = true).
Proof.
  intros Hwf Hsw Hinstant Hne st'.
  destruct (run_rows w sc userId' now st Hwf) as (lss & Hlss & Hlogs & Halerts & _).
  fold st' in Hlogs, Halerts.
  assert (Haccepted : forall log,
            In log (List.filter (inAppRowOf (search_id (search sw))) (concat lss)) ->
            log_accepted log = true).
  { intros log Hlog. apply filter_In in Hlog as [Hlog Hrow].
    unfold inAppRowOf in Hrow. apply andb_true_iff in Hrow as [Hc _].
    apply Channel_eqb_eq in Hc.
    destruct (rows_from_delivered w now _ lss log Hlss Hlog)
      as (_ & _ & _ & _ & _ & Hanswer).
    unfold providerAnswer in Hanswer. now rewrite Hc in Hanswer. }
  pose proof (fetched_snapshot st userId' sw Hsw) as Hsnap.
  assert (Hd : delivers w now sw = true).
  { unfold delivers. rewrite Hinstant.
    destruct (pendingOn InApp sw) as [| x rest] eqn:E; [congruence |].
    rewrite (hasPending_of_pending InApp sw x) by (rewrite E; now left). reflexivity. }
  pose proof (inapp_rows_of_search w now _ lss sw Hlss (fetched_ids_nodup userId' st Hwf)
                Hsw Hd) as Hrows.
  exists (concat lss). repeat split; try assumption.
  - now apply (pendingOn_iff st InApp sw a Hsnap) in H as [Ha _].
  - pose proof H as Hp. apply (pendingOn_iff st InApp sw a Hsnap) in Hp as (_ & Hs & _ & Hn).
    cbn [inAppSentAt stampAll]. unfold stamped. cbn [sentAt] in *. rewrite Hn.
    now rewrite (inapp_accepted_when_delivered w now _ lss sw a Hlss Hsw Hd H Hs).
  - rewrite <- (List.length_map log_alertId), Hrows. apply List.length_map.
Qed.

End InAppDelivery.

Section InAppExamples.
Import Alerts AlertProps.

Lemma instantStore_wf : wfStore Examples.instantStore.
Proof.
  split; cbn; repeat (constructor; [cbn; intuition discriminate |]); constructor.
Qed.

Lemma dailyStore_wf : wfStore Examples.dailyStore.
Proof.
  split; cbn; repeat (constructor; [cbn; intuition discriminate |]); constructor.
Qed.

Lemma instant_inapp_rows_witness :
  length (List.filter (inAppRowOf 1)
            (deliveryLogs (snd (runAlertDeliveryJob Examples.acceptingWorld all None
                                  Examples.tenOClock Examples.instantStore)))) = 2%nat.
Proof.
  destruct (instant_inapp_rows Examples.acceptingWorld all None Examples.tenOClock
              Examples.instantStore Examples.instantFetched instantStore_wf)
    as (rows & Hlogs & _ & _ & _ & Hlen & _).
  - left. reflexivity.
  - reflexivity.
  - discriminate.
  - rewrite Hlogs. exact Hlen.
Defined.

(** C6 (as the specification words it) fails: for an instant search with
    two pending in-app alerts the run writes two in-app rows, not one. *)
Lemma two_inapp_alerts_two_rows :
  List.map log_alertId
    (List.filter (fun log => Channel_eqb (log_channel log) InApp)
       (deliveryLogs (snd (runAlertDeliveryJob Examples.acceptingWorld all None
                             Examples.tenOClock Examples.instantStore)))) =
  [Some 11; Some 12].
Proof. vm_compute. reflexivity. Qed.
End InAppExamples.

(** ** Retrying what a run left pending *)

Section Retry.
Import Alerts AlertProps.

Lemma fetched_iff userId' st sw :
  In sw (fetchPendingSearches userId' st) <->
  exists s, In s (savedSearches st) /\ fetchable userId' s = true /\ sw = snapshot st s.
Proof.
  change (fetchPendingSearches userId' st)
    with (List.map (snapshot st) (List.filter (fetchable userId') (savedSearches st))).
  rewrite in_map_iff. split.
  - intros (s & <- & Hs). apply filter_In in Hs as [Hs Hf]. eauto.
  - intros (s & Hs & Hf & ->). exists s. split; [reflexivity | now apply filter_In].
Qed.


Lemma search_after_run now st rows d st1 s s1 :
  wfStore st -> DuringRun now st rows d st1 ->
  In s (savedSearches st) -> In s1 (savedSearches st1) ->
  search_id s1 = search_id s -> s1 = touch now d s.
Proof.
  intros [_ Hnd] (_ & _ & Hsearches) Hs Hs1 Hid.
  rewrite Hsearches in Hs1. apply in_map_iff in Hs1 as (s' & <- & Hs').
  rewrite touch_id in Hid.
  now rewrite (unique_search_by_id _ s' s Hnd Hs' Hs Hid).
Qed.

Lemma sentAt_stampAll now rows a c : sentAt c (stampAll now rows a) = stamped now rows a c.
Proof. now destruct c. Qed.


End Retry.


(** ** The attempts of a run and the answers of the providers *)

Section Attempts.
Import Alerts AlertProps AttemptProps.
Context (w : World) (now : Z) (searches : list SavedSearchWithPendingAlerts).
























End Attempts.

Section RunAttempts.
Import Alerts AlertProps AttemptProps.



End RunAttempts.
(** ** Sent timestamps *)

Section SentTimestamps.
Import Alerts AlertProps AttemptProps.



End SentTimestamps.

(** ** Digest stamps *)

Section DigestStamp.
Import Alerts AlertProps.

Lemma not_due_within_interval w cadence hour last now2 :
  now2 - last < cadenceIntervalHours cadence * (1000 * 60 * 60) ->
  isDigestDue w cadence hour (Some last) now2 = false.
Proof.
  intros Hlt. unfold isDigestDue.
  destruct (getHours w now2 <? hour); [reflexivity |].
  apply not_true_is_false. rewrite Qle_bool_iff.
  unfold Qle, Qdiv, Qmult, Qinv, inject_Z. simpl.
  destruct cadence; cbn in *; lia.
Qed.

Lemma stampAll_uncovered now rows a :
  (forall c, acceptedIn c a rows = false) -> stampAll now rows a = a.
Proof.
  intros H. destruct a. unfold stampAll, stamped. rewrite !H, !andb_false_r. reflexivity.
Qed.

Lemma acceptedIn_none c a rows :
  (forall log, In log rows -> log_savedSearchId log <> alert_savedSearchId a) ->
  acceptedIn c a rows = false.
Proof.
  intros H. apply not_true_is_false. unfold acceptedIn. rewrite existsb_exists.
  intros (log & Hlog & Hacc). apply andb_true_iff in Hacc as [_ Hcov].
  unfold covers in Hcov. apply andb_true_iff in Hcov as [Hcov _].
  apply andb_true_iff in Hcov as [_ Hs]. apply Z.eqb_eq in Hs. now apply (H log Hlog).
Qed.

(** C10. In every run, every digest search that is due and has pending
    alerts gets [lastDigestAt] set to the run time, whatever the providers
    answered; a later run that starts less than one cadence interval
    after this one writes no row for that search and leaves its alerts as
    they were. *)
Theorem digest_stamped_even_when_rejected
    (w : World) (sc : DeliveryScope) (userId' : option string) (now : Z) (st : Store)
    (sw : SavedSearchWithPendingAlerts) :
  wfStore st ->
  In sw (fetchPendingSearches userId' st) ->
  dueDigest w now sw = true ->
  let st1 := snd (runAlertDeliveryJob w sc userId' now st) in
  In (setLastDigestAt now (search sw)) (savedSearches st1) /\
  (forall s1, In s1 (savedSearches st1) -> search_id s1 = search_id (search sw) ->
              lastDigestAt s1 = Some now) /\
  (forall w2 sc2 userId2 now2,
     now2 - now < cadenceIntervalHours (cadenceOf sw) * (1000 * 60 * 60) ->
     let st2 := snd (runAlertDeliveryJob w2 sc2 userId2 now2 st1) in
     exists rows2,
       deliveryLogs st2 = deliveryLogs st1 ++ rows2 /\
       (forall log, In log rows2 -> log_savedSearchId log <> search_id (search sw)) /\
       (forall a, In a (jobAlerts st1) -> alert_savedSearchId a = search_id (search sw) ->
                  In a (jobAlerts st2))).
Proof.
  intros Hwf Hsw Hdue st1.
  destruct (run_rows w sc userId' now st Hwf) as (lss & Hlss & Hrun).
  fold st1 in Hrun.
  set (d := List.map (fun sw => search_id (search sw))
              (List.filter (dueDigest w now) (fetchPendingSearches userId' st))) in *.
  pose proof (fetched_snapshot st userId' sw Hsw) as Hsnap.
  assert (Htouch : touch now d (search sw) = setLastDigestAt now (search sw)).
  { unfold touch. replace (memZ (search_id (search sw)) d) with true; [reflexivity |].
    symmetry. unfold memZ. apply existsb_exists. exists (search_id (search sw)).
    split; [| apply Z.eqb_refl].
    unfold d. apply (in_map (fun sw => search_id (search sw))). now apply filter_In. }
  assert (Hunique : forall s1, In s1 (savedSearches st1) ->
                      search_id s1 = search_id (search sw) ->
                      s1 = setLastDigestAt now (search sw)).
  { intros s1 Hs1 Hid. rewrite <- Htouch.
    exact (search_after_run now st (concat lss) d st1 (search sw) s1 Hwf Hrun
             (proj1 Hsnap) Hs1 Hid). }
  split; [| split].
  - destruct Hrun as (_ & _ & Hsearches). rewrite Hsearches, <- Htouch.
    apply in_map. exact (proj1 Hsnap).
  - intros s1 Hs1 Hid. now rewrite (Hunique s1 Hs1 Hid).
  - intros w2 sc2 userId2 now2 Hsoon st2.
    pose proof (during_wf now st (concat lss) d st1 Hwf Hrun) as Hwf1.
    destruct (run_rows w2 sc2 userId2 now2 st1 Hwf1) as (lss2 & Hlss2 & Hlogs2 & Halerts2 & _).
    fold st2 in Hlogs2, Halerts2.
    assert (Hnone : forall log, In log (concat lss2) ->
                      log_savedSearchId log <> search_id (search sw)).
    { intros log Hlog Hid.
      destruct (rows_from_delivered w2 now2 _ lss2 log Hlss2 Hlog)
        as (sw2 & Hsw2 & Hd & Hs & _).
      pose proof (fetched_snapshot st1 userId2 sw2 Hsw2) as Hsnap2.
      assert (Hs2 : search sw2 = setLastDigestAt now (search sw))
        by (apply Hunique; [exact (proj1 Hsnap2) | congruence]).
      unfold dueDigest in Hdue. apply andb_true_iff in Hdue as [Hdue _].
      apply andb_true_iff in Hdue as [_ Hdigest]. apply negb_true_iff in Hdigest.
      unfold delivers, isInstant, dueNow, cadenceOf in Hd.
      unfold isInstant, cadenceOf in Hdigest. unfold cadenceOf in Hsoon.
      rewrite Hs2 in Hd. cbn [search_digestCadence digestHour lastDigestAt setLastDigestAt] in Hd.
      rewrite Hdigest, (not_due_within_interval w2 _ _ now now2 Hsoon) in Hd.
      now rewrite andb_false_r in Hd. }
    exists (concat lss2). split; [exact Hlogs2 | split; [exact Hnone |]].
    intros a Ha Hs. rewrite Halerts2.
    rewrite <- (stampAll_uncovered now2 (concat lss2) a) at 1; [now apply in_map |].
    intros c. apply acceptedIn_none. intros log Hlog. rewrite Hs. now apply Hnone.
Qed.

Lemma digest_stamped_even_when_rejected_witness :
  In (Alerts.setLastDigestAt Examples.tenOClock Examples.dailySearch)
     (savedSearches (snd (runAlertDeliveryJob Examples.rejectingWorld all None
                            Examples.tenOClock Examples.dailyStore))).
Proof.
  apply (digest_stamped_even_when_rejected Examples.rejectingWorld all None
           Examples.tenOClock Examples.dailyStore Examples.dailyFetched dailyStore_wf).
  - left. reflexivity.
  - reflexivity.
Defined.
End DigestStamp.

(** ** The summary counters *)

Section Counters.
Import Alerts AlertProps.
Context (w : World) (now : Z).

Lemma emailLoop_counters s pending : forall r,
  counters (fold_left (emailOneAlert w s now) pending r) attemptedDeliveries =
    counters r attemptedDeliveries + lenZ pending /\
  counters (fold_left (emailOneAlert w s now) pending r) waitingDigestSearches =
    counters r waitingDigestSearches.
Proof.
  induction pending as [| x rest IH]; intros r.
  - unfold lenZ. cbn. split; lia.
  - cbn [fold_left]. destruct (IH (emailOneAlert w s now r x)) as [-> ->].
    unfold lenZ. cbn [length]. unfold emailOneAlert.
    destruct (accepted _); cbn [counters add Counter_eqb onStore called]; split; lia.
Qed.

Lemma pushLoop_counters s pending : forall acc,
  counters (snd (fold_left (pushOneAlert w s now) pending acc)) = counters (snd acc).
Proof.
  induction pending as [| x rest IH]; intros acc; [reflexivity |].
  cbn [fold_left]. rewrite IH. destruct acc as [o r]. unfold pushOneAlert.
  destruct (accepted _); reflexivity.
Qed.

Lemma deliverPushDigest_counters s pending cadence r :
  counters (snd (deliverPushDigest w s pending now cadence r)) = counters r.
Proof.
  destruct pending; [reflexivity |]. unfold deliverPushDigest.
  destruct (accepted _); reflexivity.
Qed.

Lemma instantInApp_counters s pending r :
  counters (instantInApp s pending now r) attemptedDeliveries =
    counters r attemptedDeliveries + lenZ pending /\
  counters (instantInApp s pending now r) waitingDigestSearches =
    counters r waitingDigestSearches.
Proof.
  destruct pending as [| x rest]; [unfold lenZ; cbn; split; lia |].
  unfold instantInApp, createInternalDeliveryLogs.
  cbn [List.map counters add Counter_eqb onStore]. split; reflexivity.
Qed.

Lemma instantPush_counters s pending r :
  counters (instantPush w s pending now r) attemptedDeliveries =
    counters r attemptedDeliveries +
    (if pushDeferred s then oneIf pending else lenZ pending) /\
  counters (instantPush w s pending now r) waitingDigestSearches =
    counters r waitingDigestSearches.
Proof.
  destruct pending as [| x rest].
  - unfold lenZ, oneIf. cbn. destruct (pushDeferred s); split; lia.
  - unfold instantPush. destruct (pushDeferred s).
    + pose proof (deliverPushDigest_counters s (x :: rest) instant
                    (add attemptedDeliveries 1 r)) as H.
      destruct (deliverPushDigest _ _ _ _ _ _) as [o r']. cbn [snd] in H.
      cbn [counters add Counter_eqb]. rewrite H. unfold oneIf. cbn [counters add Counter_eqb].
      split; lia.
    + pose proof (pushLoop_counters s (x :: rest)
                    ({| po_accepted := true; po_deliveredAlerts := 0;
                        po_failedAttempts := 0; po_logsCreated := 0 |},
                     add attemptedDeliveries (lenZ (x :: rest)) r)) as H.
      unfold deliverPushInstantPerAlert.
      destruct (fold_left _ _ _) as [o r']. cbn [snd] in H.
      cbn [counters add Counter_eqb]. rewrite H. cbn [counters add Counter_eqb]. split; lia.
Qed.

Lemma digestEmail_counters s cadence pending r :
  counters (digestEmail w s cadence pending now r) attemptedDeliveries =
    counters r attemptedDeliveries + oneIf pending /\
  counters (digestEmail w s cadence pending now r) waitingDigestSearches =
    counters r waitingDigestSearches.
Proof.
  destruct pending; [unfold oneIf; cbn; split; lia |].
  unfold digestEmail, oneIf.
  destruct (accepted _); cbn [counters add Counter_eqb onStore called]; split; lia.
Qed.

Lemma digestInApp_counters s cadence pending r :
  counters (digestInApp s cadence pending now r) attemptedDeliveries =
    counters r attemptedDeliveries + oneIf pending /\
  counters (digestInApp s cadence pending now r) waitingDigestSearches =
    counters r waitingDigestSearches.
Proof.
  destruct pending as [| x rest]; [unfold oneIf; cbn; split; lia |].
  unfold digestInApp, createInternalDeliveryLogs, oneIf.
  cbn [List.map counters add Counter_eqb onStore]. split; reflexivity.
Qed.

Lemma digestPush_counters s cadence pending r :
  counters (digestPush w s cadence pending now r) attemptedDeliveries =
    counters r attemptedDeliveries + oneIf pending /\
  counters (digestPush w s cadence pending now r) waitingDigestSearches =
    counters r waitingDigestSearches.
Proof.
  destruct pending as [| x rest]; [unfold oneIf; cbn; split; lia |].
  unfold digestPush, oneIf.
  pose proof (deliverPushDigest_counters s (x :: rest) cadence
                (add attemptedDeliveries 1 r)) as H.
  destruct (deliverPushDigest _ _ _ _ _ _) as [o r']. cbn [snd] in H.
  cbn [counters add Counter_eqb]. rewrite H. cbn [counters add Counter_eqb]. split; lia.
Qed.

End Counters.

Section RunAndPreview.
Import Alerts AlertProps.
Context (w : World) (now : Z).

Lemma processSearch_counters r sw :
  counters (processSearch w now r sw) attemptedDeliveries =
    counters r attemptedDeliveries + attemptsFor w now sw /\
  counters (processSearch w now r sw) waitingDigestSearches =
    counters r waitingDigestSearches + waitsFor w now sw.
Proof.
  unfold processSearch, attemptsFor, waitsFor, hasPending, isInstant, dueNow, cadenceOf.
  change (emailAlerts (channelPendingCounts sw)) with (pendingOn Email sw).
  change (inAppAlerts (channelPendingCounts sw)) with (pendingOn InApp sw).
  change (pushAlerts (channelPendingCounts sw)) with (pendingOn Push sw).
  destruct (pendingUniqueCount (channelPendingCounts sw) =? 0); cbn [negb andb].
  { cbn. split; lia. }
  assert (Hdigest : forall cadence,
    counters (onStore (updateSearchDigest (search_id (search sw)) now)
                (digestPush w (search sw) cadence (pendingOn Push sw) now
                   (digestInApp (search sw) cadence (pendingOn InApp sw) now
                      (digestEmail w (search sw) cadence (pendingOn Email sw) now
                         (add searchesScanned 1 r))))) attemptedDeliveries =
      counters r attemptedDeliveries +
      (oneIf (pendingOn Email sw) + oneIf (pendingOn InApp sw) + oneIf (pendingOn Push sw)) /\
    counters (onStore (updateSearchDigest (search_id (search sw)) now)
                (digestPush w (search sw) cadence (pendingOn Push sw) now
                   (digestInApp (search sw) cadence (pendingOn InApp sw) now
                      (digestEmail w (search sw) cadence (pendingOn Email sw) now
                         (add searchesScanned 1 r))))) waitingDigestSearches =
      counters r waitingDigestSearches + 0).
  { intros cadence. cbn [counters onStore].
    destruct (digestPush_counters w now (search sw) cadence (pendingOn Push sw)
                (digestInApp (search sw) cadence (pendingOn InApp sw) now
                   (digestEmail w (search sw) cadence (pendingOn Email sw) now
                      (add searchesScanned 1 r)))) as [-> ->].
    destruct (digestInApp_counters now (search sw) cadence (pendingOn InApp sw)
                (digestEmail w (search sw) cadence (pendingOn Email sw) now
                   (add searchesScanned 1 r))) as [-> ->].
    destruct (digestEmail_counters w now (search sw) cadence (pendingOn Email sw)
                (add searchesScanned 1 r)) as [-> ->].
    cbn [counters add Counter_eqb]. split; lia. }
  destruct (normalizeCadence (search_digestCadence (search sw))); cbn [negb andb].
  - destruct (instantPush_counters w now (search sw) (pendingOn Push sw)
                (instantInApp (search sw) (pendingOn InApp sw) now
                   (fold_left (emailOneAlert w (search sw) now) (pendingOn Email sw)
                      (add searchesScanned 1 r)))) as [-> ->].
    destruct (instantInApp_counters now (search sw) (pendingOn InApp sw)
                (fold_left (emailOneAlert w (search sw) now) (pendingOn Email sw)
                   (add searchesScanned 1 r))) as [-> ->].
    destruct (emailLoop_counters w now (search sw) (pendingOn Email sw)
                (add searchesScanned 1 r)) as [-> ->].
    cbn [counters add Counter_eqb]. split; lia.
  - destruct (isDigestDue w daily _ _ now); cbn [negb]; [apply Hdigest |].
    cbn [counters add Counter_eqb]. split; lia.
  - destruct (isDigestDue w weekly _ _ now); cbn [negb]; [apply Hdigest |].
    cbn [counters add Counter_eqb]. split; lia.
Qed.

Lemma previewSearch_counters p sw :
  channelTotal (previewSearch w now p sw) = channelTotal p + pendingRows sw /\
  pv_waitingDigestSearches (previewSearch w now p sw) =
    pv_waitingDigestSearches p + waitsFor w now sw.
Proof.
  unfold previewSearch, channelTotal, pendingRows, waitsFor, hasPending, isInstant, dueNow,
    cadenceOf.
  change (emailAlerts (channelPendingCounts sw)) with (pendingOn Email sw).
  change (inAppAlerts (channelPendingCounts sw)) with (pendingOn InApp sw).
  change (pushAlerts (channelPendingCounts sw)) with (pendingOn Push sw).
  destruct (pendingUniqueCount (channelPendingCounts sw) =? 0); cbn [negb andb].
  { split; lia. }
  cbn [pendingEmailAlerts pendingInAppAlerts pendingPushAlerts pv_waitingDigestSearches].
  split; [lia |].
  destruct (normalizeCadence (search_digestCadence (search sw))); cbn [negb andb];
    try lia; destruct (isDigestDue w _ _ _ now); cbn [negb]; lia.
Qed.

Lemma oneIf_le {A} (l : list A) : oneIf l <= lenZ l.
Proof. destruct l; unfold oneIf, lenZ; cbn [length]; lia. Qed.

Lemma lenZ_nonneg {A} (l : list A) : 0 <= lenZ l.
Proof. unfold lenZ. lia. Qed.

Lemma attempts_le_pending sw : attemptsFor w now sw <= pendingRows sw.
Proof.
  unfold attemptsFor, pendingRows.
  pose proof (oneIf_le (pendingOn Email sw)). pose proof (oneIf_le (pendingOn InApp sw)).
  pose proof (oneIf_le (pendingOn Push sw)).
  pose proof (lenZ_nonneg (pendingOn Email sw)). pose proof (lenZ_nonneg (pendingOn InApp sw)).
  pose proof (lenZ_nonneg (pendingOn Push sw)).
  destruct (hasPending sw); cbn [negb]; [| lia].
  destruct (isInstant sw); [destruct (pushDeferred (search sw)); lia |].
  destruct (dueNow w now sw); lia.
Qed.

Lemma attempts_eq_pending sw :
  (hasPending sw = true -> isInstant sw = true /\ pushDeferred (search sw) = false) ->
  attemptsFor w now sw = pendingRows sw.
Proof.
  unfold attemptsFor, pendingRows. destruct (hasPending sw); cbn [negb]; [| reflexivity].
  intros H. destruct (H eq_refl) as [-> ->]. reflexivity.
Qed.

(* The run and the preview over the same fetched searches. *)
Lemma run_against_preview searches : forall r p,
  let r' := fold_left (processSearch w now) searches r in
  let p' := fold_left (previewSearch w now) searches p in
  counters r' attemptedDeliveries - counters r attemptedDeliveries <=
    channelTotal p' - channelTotal p /\
  counters r' waitingDigestSearches - counters r waitingDigestSearches =
    pv_waitingDigestSearches p' - pv_waitingDigestSearches p /\
  ((forall sw, In sw searches -> hasPending sw = true ->
               isInstant sw = true /\ pushDeferred (search sw) = false) ->
   counters r' attemptedDeliveries - counters r attemptedDeliveries =
     channelTotal p' - channelTotal p).
Proof.
  induction searches as [| sw rest IH]; intros r p; cbn [fold_left].
  - cbn zeta. repeat split; lia.
  - specialize (IH (processSearch w now r sw) (previewSearch w now p sw)).
    cbn zeta in *. destruct IH as (Hle & Hwait & Heq).
    destruct (processSearch_counters r sw) as [Ha Hw].
    destruct (previewSearch_counters p sw) as [Hc Hv].
    pose proof (attempts_le_pending sw) as Hsw.
    split; [lia | split; [lia |]].
    intros Hall.
    rewrite (attempts_eq_pending sw (Hall sw (or_introl eq_refl))) in Ha.
    specialize (Heq (fun sw' Hin => Hall sw' (or_intror Hin))). lia.
Qed.

End RunAndPreview.

(** ** Preview against run *)

Section PreviewVersusRun.
Import Alerts AlertProps.

(** C5 (as the code has it). For any store state and time, the attempted
    deliveries a run reports never exceed the sum of the per-channel
    pending counts of the preview taken on the same state, and equal it
    when every search with pending alerts is instant-cadence without
    deferred push; the waiting-digest counts of the two agree. *)
Theorem attempted_within_pending
    (w : World) (sc : DeliveryScope) (userId' : option string) (now : Z) (st : Store) :
  let preview := getAlertDeliveryPreview w sc userId' now st in
  let summary := fst (runAlertDeliveryJob w sc userId' now st) in
  rs_attemptedDeliveries summary <=
    pendingEmailAlerts preview + pendingInAppAlerts preview + pendingPushAlerts preview /\
  rs_waitingDigestSearches summary = pv_waitingDigestSearches preview /\
  ((forall sw, In sw (fetchPendingSearches userId' st) -> hasPending sw = true ->
               isInstant sw = true /\ pushDeferred (search sw) = false) ->
   rs_attemptedDeliveries summary =
     pendingEmailAlerts preview + pendingInAppAlerts preview + pendingPushAlerts preview).
Proof.
  intros preview summary.
  pose proof (run_against_preview w now (fetchPendingSearches userId' st)
                {| store := st; calls := 0%nat; counters := fun _ => 0 |}
                {| pv_scope := sc; pendingAlerts := 0; pendingEmailAlerts := 0;
                   pendingInAppAlerts := 0; pendingPushAlerts := 0;
                   pendingInstantAlerts := 0; dueDigestSearches := 0;
                   pv_waitingDigestSearches := 0 |}) as H.
  cbv zeta in H. destruct H as (Hle & Hwait & Heq).
  fold (getAlertDeliveryPreview w sc userId' now st) in Hle, Hwait, Heq.
  fold (runLoop w now (fetchPendingSearches userId' st) st) in Hle, Hwait, Heq.
  fold preview in Hle, Hwait, Heq.
  unfold channelTotal in Hle, Heq.
  cbn [counters pv_waitingDigestSearches pendingEmailAlerts pendingInAppAlerts
       pendingPushAlerts] in Hle, Hwait, Heq.
  unfold summary, runAlertDeliveryJob.
  cbn [fst summaryOf rs_attemptedDeliveries rs_waitingDigestSearches].
  split; [lia | split; [lia |]].
  intros Hall. specialize (Heq Hall). lia.
Qed.

Lemma attempted_within_pending_witness :
  rs_attemptedDeliveries
    (fst (runAlertDeliveryJob Examples.acceptingWorld all None Examples.tenOClock
            Examples.instantStore)) = 4.
Proof.
  rewrite (proj2 (proj2 (attempted_within_pending Examples.acceptingWorld all None
                           Examples.tenOClock Examples.instantStore))).
  - reflexivity.
  - intros sw [<- | []] _. split; reflexivity.
Defined.

(** C5 (as the specification words it) fails: a due daily digest with
    two pending e-mail alerts shows two pending alerts in the preview and
    one attempted delivery in the run that follows. *)
Lemma digest_preview_two_attempt_one :
  pendingAlerts (getAlertDeliveryPreview Examples.acceptingWorld all None
                   Examples.tenOClock Examples.dailyStore) = 2 /\
  pendingEmailAlerts (getAlertDeliveryPreview Examples.acceptingWorld all None
                        Examples.tenOClock Examples.dailyStore) = 2 /\
  rs_attemptedDeliveries
    (fst (runAlertDeliveryJob Examples.acceptingWorld all None Examples.tenOClock
            Examples.dailyStore)) = 1.
Proof. vm_compute. repeat split. Qed.
End PreviewVersusRun.

(** * Properties of the list codec *)

Section CodecFacts.
Import ListCodec Props CodecProps.

Lemma splitChars_pieces isSep s : forall cur,
  allChars (fun c => negb (isSep c)) cur = true ->
  Forall (fun piece => allChars (fun c => negb (isSep c)) piece = true)
         (Js.splitChars isSep cur s).
Proof.
  induction s as [| c s IH]; intros cur Hcur; simpl.
  - now constructor.
  - destruct (isSep c) eqn:E.
    + constructor; [assumption | now apply IH].
    + apply IH. rewrite allChars_append, Hcur. simpl. now rewrite E.
Qed.

Lemma trimEnd_idem s : Js.trimEnd (Js.trimEnd s) = Js.trimEnd s.
Proof.
  induction s as [| c s IH]; [reflexivity |].
  simpl. destruct (Js.trimEnd s) as [| d t] eqn:E.
  - destruct (Js.isSpace c) eqn:Ec; [reflexivity |]. simpl. now rewrite Ec.
  - simpl. simpl in IH. rewrite IH. reflexivity.
Qed.

(* [trimEnd] keeps a first character that is not a space. *)
Lemma trimEnd_head c s :
  Js.isSpace c = false -> exists t, Js.trimEnd (String c s) = String c t.
Proof.
  intros Hc. simpl. destruct (Js.trimEnd s); [rewrite Hc |]; eauto.
Qed.

Lemma trimStart_head s :
  Js.trimStart s = EmptyString \/
  exists c t, Js.trimStart s = String c t /\ Js.isSpace c = false.
Proof.
  induction s as [| c s IH]; [now left |].
  simpl. destruct (Js.isSpace c) eqn:E; [exact IH | right; eauto].
Qed.

Lemma trim_idem s : Js.trim (Js.trim s) = Js.trim s.
Proof.
  unfold Js.trim. destruct (trimStart_head s) as [-> | (c & t & -> & Hc)]; [reflexivity |].
  destruct (trimEnd_head c t Hc) as (u & Hu). rewrite Hu.
  cbn [Js.trimStart]. rewrite Hc, <- Hu. apply trimEnd_idem.
Qed.

Lemma isEmpty_false s : Js.isEmpty s = false <-> s <> EmptyString.
Proof. destruct s; cbn; split; congruence. Qed.

Lemma parseList_clean value : Forall cleanEntry (parseList value).
Proof.
  unfold parseList. destruct (Js.isEmpty value); [constructor |].
  apply List.Forall_forall. intros e He.
  apply filter_In in He as [He Hne]. apply negb_true_iff, isEmpty_false in Hne.
  apply in_map_iff in He as (piece & <- & Hpiece).
  repeat split; [assumption | apply trim_idem |].
  apply trim_allChars.
  pose proof (splitChars_pieces isListSep value EmptyString eq_refl) as HF.
  rewrite List.Forall_forall in HF. exact (HF _ Hpiece).
Qed.

Lemma append_cons c s t : String c s +:+ t = String c (s +:+ t).
Proof. reflexivity. Qed.

Lemma append_empty_r s : s +:+ EmptyString = s.
Proof. induction s as [| c s IH]; [reflexivity | now rewrite append_cons, IH]. Qed.

Lemma append_assoc' a b c : (a +:+ b) +:+ c = a +:+ (b +:+ c).
Proof. induction a as [| x a IH]; [reflexivity | now rewrite !append_cons, IH]. Qed.

(* Splitting runs through a piece without separators. *)
Lemma splitChars_through e : forall cur rest,
  allChars notListSep e = true ->
  Js.splitChars isListSep cur (e +:+ rest) = Js.splitChars isListSep (cur +:+ e) rest.
Proof.
  induction e as [| c e IH]; intros cur rest He.
  - change (EmptyString +:+ rest) with rest. now rewrite append_empty_r.
  - cbn in He. apply andb_true_iff in He as [Hc He].
    unfold notListSep in Hc. apply negb_true_iff in Hc.
    rewrite append_cons. cbn [Js.splitChars]. rewrite Hc, IH by assumption.
    now rewrite append_assoc'.
Qed.

Lemma trim_after_space e : Js.trim (" " +:+ e) = Js.trim e.
Proof. reflexivity. Qed.

Lemma join_cons sep e e' l :
  Js.join sep (e :: e' :: l) = e +:+ sep +:+ Js.join sep (e' :: l).
Proof. reflexivity. Qed.

(* Decoding the joined text of clean entries gives the entries back. *)
Lemma split_join l : forall cur,
  Forall cleanEntry l -> l <> [] -> cur = EmptyString \/ cur = " " ->
  List.map Js.trim (Js.splitChars isListSep cur (Js.join ", " l)) = l.
Proof.
  induction l as [| e l IH]; intros cur Hclean Hne Hcur; [congruence |].
  apply Forall_cons_iff in Hclean as [(He & Htrim & Hsep) Hclean].
  assert (Hfirst : Js.trim (cur +:+ e) = e)
    by (destruct Hcur as [-> | ->]; [exact Htrim | now rewrite trim_after_space]).
  destruct l as [| e' l].
  - cbn [Js.join String.concat].
    rewrite <- (append_empty_r e) at 1. rewrite splitChars_through by assumption.
    cbn. now rewrite Hfirst.
  - rewrite join_cons, splitChars_through by assumption.
    change (", " +:+ Js.join ", " (e' :: l))
      with (String "," (String " " (Js.join ", " (e' :: l)))).
    cbn [Js.splitChars]. change (isListSep ",") with true. cbv iota.
    change (isListSep " ") with false. cbv iota.
    change (EmptyString +:+ " ") with " ". cbn [List.map].
    rewrite Hfirst. f_equal. apply IH; [assumption | discriminate | now right].
Qed.

Lemma filter_clean l :
  Forall cleanEntry l ->
  List.filter (fun e => negb (Js.isEmpty e)) (List.map Js.trim l) = l.
Proof.
  induction 1 as [| e l (He & Htrim & _) _ IH]; [reflexivity |].
  cbn. rewrite Htrim. destruct e; [congruence |]. cbn. now rewrite IH.
Qed.

Lemma filter_nonempty_clean l :
  Forall cleanEntry l -> List.filter (fun e => negb (Js.isEmpty e)) l = l.
Proof.
  induction 1 as [| e l (He & _) _ IH]; [reflexivity |].
  cbn. destruct e; [congruence |]. cbn. now rewrite IH.
Qed.

Lemma join_nonempty e l : e <> EmptyString -> Js.isEmpty (Js.join ", " (e :: l)) = false.
Proof.
  intros He. destruct l; cbn; destruct e; try congruence; reflexivity.
Qed.


Lemma uniqueLoop_sublist entries : forall seen,
  sublist (uniqueLoop seen entries) entries.
Proof.
  induction entries as [| e l IH]; intros seen; cbn [uniqueLoop]; [constructor |].
  destruct (decide _); [apply sublist_cons | apply sublist_skip]; apply IH.
Qed.

Lemma uniqueLoop_fresh entries : forall seen k,
  List.In k (keys (uniqueLoop seen entries)) -> k ∉ seen.
Proof.
  induction entries as [| e l IH]; intros seen k Hk; cbn [uniqueLoop] in Hk; [destruct Hk |].
  destruct (decide _) as [Hin | Hout]; [now apply IH |].
  destruct Hk as [<- | Hk]; [assumption |].
  apply IH in Hk. set_solver.
Qed.

Lemma uniqueLoop_nodup entries : forall seen,
  List.NoDup (keys (uniqueLoop seen entries)).
Proof.
  induction entries as [| e l IH]; intros seen; cbn [uniqueLoop]; [constructor |].
  destruct (decide _) as [Hin | Hout]; [apply IH |].
  cbn. constructor; [| apply IH].
  intros Hk. apply uniqueLoop_fresh in Hk. set_solver.
Qed.

Lemma uniqueLoop_covers entries : forall seen e,
  List.In e entries ->
  Js.toLowerCase e ∈ seen \/ List.In (Js.toLowerCase e) (keys (uniqueLoop seen entries)).
Proof.
  induction entries as [| x l IH]; intros seen e He; [destruct He |].
  cbn [uniqueLoop]. destruct (decide _) as [Hin | Hout].
  - destruct He as [-> | He]; [now left | now apply IH].
  - destruct He as [-> | He]; [right; now left |].
    destruct (IH ({[Js.toLowerCase x]} ∪ seen) e He) as [Hs | Hk].
    + apply elem_of_union in Hs as [Hs | Hs]; [| now left].
      apply elem_of_singleton in Hs. right. left. now symmetry.
    + right. now right.
Qed.

Lemma uniqueLoop_id entries : forall seen,
  List.NoDup (keys entries) ->
  (forall k, List.In k (keys entries) -> k ∉ seen) ->
  uniqueLoop seen entries = entries.
Proof.
  induction entries as [| e l IH]; intros seen Hnd Hfresh; [reflexivity |].
  cbn [uniqueLoop]. cbn in Hnd. apply List.NoDup_cons_iff in Hnd as [Hhead Hnd].
  destruct (decide _) as [Hin | Hout]; [exfalso; apply (Hfresh _ (or_introl eq_refl) Hin) |].
  f_equal. apply IH; [assumption |].
  intros k Hk Hs. apply elem_of_union in Hs as [Hs | Hs].
  - apply elem_of_singleton in Hs. subst k. contradiction.
  - apply (Hfresh k (or_intror Hk) Hs).
Qed.

Lemma sublist_Forall {A} (P : A -> Prop) (l1 l2 : list A) :
  sublist l1 l2 -> Forall P l2 -> Forall P l1.
Proof.
  induction 1 as [| x l1 l2 _ IH | x l1 l2 _ IH]; intros HF; [constructor | |];
    apply Forall_cons_iff in HF as [Hx HF]; [constructor |]; auto.
Qed.

Lemma parseList_join_clean (l : list string) :
  Forall cleanEntry l -> parseList (Js.join ", " l) = l.
Proof.
  intros Hclean. destruct l as [| e l]; [reflexivity |].
  pose proof Hclean as Hc. apply Forall_cons_iff in Hc as [(He & _) _].
  unfold parseList. rewrite join_nonempty by assumption.
  rewrite split_join; [| assumption | discriminate | now left].
  now apply filter_nonempty_clean.
Qed.

Lemma decode_encode_clean (l : list string) :
  Forall cleanEntry l -> parseList (encodeList l) = l.
Proof.
  intros Hclean. unfold encodeList. rewrite filter_clean by assumption.
  now apply parseList_join_clean.
Qed.

Lemma parseUniqueList_clean value : Forall cleanEntry (parseUniqueList value).
Proof.
  eapply sublist_Forall; [apply uniqueLoop_sublist | apply parseList_clean].
Qed.

Lemma normalizeToken_clean e : cleanEntry e -> normalizeToken e = Js.toLowerCase e.
Proof. intros (_ & Htrim & _). unfold normalizeToken. now rewrite Htrim. Qed.

Lemma normalize_clean_keys l : Forall cleanEntry l -> List.map normalizeToken l = keys l.
Proof.
  induction 1 as [| e l He _ IH]; [reflexivity |].
  cbn. now rewrite IH, normalizeToken_clean.
Qed.

(* The keys kept by the loop that starts with nothing seen are the keys of
   its input. *)
Lemma uniqueLoop_keys entries k :
  List.In k (keys (uniqueLoop ∅ entries)) <-> List.In k (keys entries).
Proof.
  split; intros Hk.
  - apply in_map_iff in Hk as (e & <- & He). apply in_map.
    apply list_elem_of_In. apply list_elem_of_In in He.
    eapply elem_of_sublist; [exact He | apply uniqueLoop_sublist].
  - apply in_map_iff in Hk as (e & <- & He).
    destruct (uniqueLoop_covers _ ∅ e He) as [Hs | Hk]; [set_solver | exact Hk].
Qed.

(** X1. Decoding an encoded list gives the list back, for every list of
    entries that are not empty, carry no surrounding white space and hold
    no separator (comma, new line, bar). *)
Theorem decode_encode (l : list string) :
  Forall cleanEntry l -> parseList (encodeList l) = l.
Proof. apply decode_encode_clean. Qed.

Lemma decode_encode_witness :
  Forall cleanEntry ["React"; "Type Script"] /\
  parseList (encodeList ["React"; "Type Script"]) = ["React"; "Type Script"].
Proof.
  assert (H : Forall cleanEntry ["React"; "Type Script"])
    by (repeat constructor; try discriminate; reflexivity).
  split; [exact H | exact (decode_encode ["React"; "Type Script"] H)].
Defined.

(** X2. Every entry of a parsed list is non-empty, carries no white space
    at either end and holds no comma, new line or bar. *)
Theorem parsed_entries_clean (value : string) : Forall cleanEntry (parseList value).
Proof. apply parseList_clean. Qed.

(** X3. The unique parse keeps entries of the plain parse in their order,
    no two kept entries are equal when case is ignored, and every parsed
    entry is represented by a kept entry with the same lower-cased key. *)
Theorem unique_parse_keeps_first (value : string) :
  sublist (parseUniqueList value) (parseList value) /\
  List.NoDup (keys (parseUniqueList value)) /\
  (forall e, List.In e (parseList value) ->
     List.In (Js.toLowerCase e) (keys (parseUniqueList value))).
Proof.
  unfold parseUniqueList. split; [apply uniqueLoop_sublist |].
  split; [apply uniqueLoop_nodup |].
  intros e He. destruct (uniqueLoop_covers _ ∅ e He) as [Hs | Hk]; [set_solver | exact Hk].
Qed.

(** X4. Parsing is stable under encoding: encoding a parsed list and
    parsing it again gives the same list, for the plain and for the unique
    parse. *)
Theorem parse_encode_stable (value : string) :
  parseList (encodeList (parseList value)) = parseList value /\
  parseUniqueList (encodeList (parseUniqueList value)) = parseUniqueList value.
Proof.
  split; [apply decode_encode_clean, parseList_clean |].
  unfold parseUniqueList at 1.
  rewrite decode_encode_clean.
  - apply uniqueLoop_id; [apply uniqueLoop_nodup | set_solver].
  - eapply sublist_Forall; [apply uniqueLoop_sublist | apply parseList_clean].
Qed.
End CodecFacts.


(** * Further properties of the scoring engine *)

Section ScoringMore.
Import ListCodec Scoring Props CodecProps ScoringProps.

Lemma countMatches_filter answers screeners :
  countMatches screeners answers =
  lenZ (List.filter (fun s => answerMatchesPrompt s answers) screeners).
Proof.
  unfold countMatches.
  assert (H : forall acc,
    fold_left (fun acc screener =>
                 if answerMatchesPrompt screener answers then acc + 1 else acc)
              screeners acc =
    acc + lenZ (List.filter (fun s => answerMatchesPrompt s answers) screeners)).
  { induction screeners as [| s l IH]; intros acc; cbn [fold_left List.filter].
    - unfold lenZ. cbn. lia.
    - rewrite IH. destruct (answerMatchesPrompt s answers); unfold lenZ; cbn [length]; lia. }
  rewrite H. lia.
Qed.

Lemma filter_length_le {A} (f : A -> bool) (l : list A) :
  (length (List.filter f l) <= length l)%nat.
Proof. induction l as [| x l IH]; cbn; [lia | destruct (f x); cbn; lia]. Qed.

Lemma countMatches_bounds answers screeners :
  0 <= countMatches screeners answers <= lenZ screeners.
Proof.
  rewrite countMatches_filter. unfold lenZ.
  pose proof (filter_length_le (fun s => answerMatchesPrompt s answers) screeners). lia.
Qed.

Lemma rawRisk_flags_sublist input : sublist (flags (rawRisk input)) ruleFlags.
Proof.
  unfold rawRisk, riskRules. rewrite !flags_addRisk. cbn [flags app].
  unfold ruleFlags.
  repeat match goal with
         | |- context [if ?c then _ else _] => destruct c
         end; cbn [app];
  repeat first [apply sublist_nil | apply sublist_skip | apply sublist_cons].
Qed.

Lemma ruleFlags_nodup : List.NoDup ruleFlags.
Proof.
  unfold ruleFlags.
  repeat (constructor; [cbn; intuition discriminate |]). constructor.
Qed.

(** X5. The returned risk score lies between 0 and 100; it is 0 exactly
    when no risk flag was raised, and at least 6 otherwise. *)
Theorem risk_score_and_flags (input : ScoringInput) :
  let r := evaluateApplication input in
  0 <= riskScore r <= 100 /\
  (riskScore r = 0 <-> riskFlags r = []) /\
  (riskFlags r <> [] -> 6 <= riskScore r).
Proof.
  cbv zeta. rewrite riskScore_eval, riskFlags_eval.
  destruct (rawRisk_score_bounds input) as [Hb Hpos].
  split; [lia |]. split; [| intros H; specialize (Hpos H); lia].
  split.
  - intros H0. destruct (flags (rawRisk input)) eqn:E; [reflexivity |].
    assert (6 <= score (rawRisk input)) by (apply Hpos; discriminate). lia.
  - intros E. apply no_flags_no_score in E. lia.
Qed.

Lemma In_flag_addRisk flag c f p r :
  List.In flag (flags (addRisk c f p r)) <->
  List.In flag (flags r) \/ (c = true /\ f = flag).
Proof.
  rewrite flags_addRisk, in_app_iff. destruct c; cbn; intuition congruence.
Qed.

Lemma rawRisk_flag_iff input flag :
  List.In flag (flags (rawRisk input)) <->
  (6 <= recentApplicationCount input /\ flag = "high_application_velocity") \/
  (12 <= recentApplicationCount input /\ flag = "extreme_application_velocity") \/
  (now input - createdAt (user input) < 3600000 /\ flag = "new_account") \/
  (now input - createdAt (user input) < 612000 /\ flag = "very_new_account") \/
  (0 < priorFraudEventsForIp input /\ flag = "ip_history_flagged") \/
  (isFlagged (user input) = true /\ flag = "user_previously_flagged") \/
  (answers input = [] /\
   parseUniqueList (requiredScreeners (job input)) <> [] /\
   flag = "missing_required_answers").
Proof.
  unfold rawRisk, riskRules. rewrite !In_flag_addRisk. cbn [flags List.In].
  rewrite !Z.leb_le, Z.ltb_lt, age_lt_hour, age_lt_very_new, andb_true_iff.
  rewrite Z.eqb_eq, Z.ltb_lt.
  assert (Ha : lenZ (answers input) = 0 <-> answers input = []).
  { unfold lenZ. destruct (answers input); cbn; split; try congruence; lia. }
  assert (Hr : 0 < lenZ (parseUniqueList (requiredScreeners (job input))) <->
               parseUniqueList (requiredScreeners (job input)) <> []).
  { unfold lenZ. destruct (parseUniqueList _); cbn; split; try congruence; lia. }
  rewrite Ha, Hr. intuition congruence.
Qed.

(** X6. The risk flags of a result are pairwise distinct and come in the
    order of the rules; "very_new_account" is only raised together with
    "new_account", and "extreme_application_velocity" only together with
    "high_application_velocity". *)
Theorem risk_flags_structure (input : ScoringInput) :
  let fl := riskFlags (evaluateApplication input) in
  List.NoDup fl /\ sublist fl ruleFlags /\
  (List.In "very_new_account" fl -> List.In "new_account" fl) /\
  (List.In "extreme_application_velocity" fl -> List.In "high_application_velocity" fl).
Proof.
  cbv zeta. rewrite riskFlags_eval.
  split; [apply NoDup_ListNoDup; eapply sublist_NoDup;
          [apply NoDup_ListNoDup, ruleFlags_nodup | apply rawRisk_flags_sublist] |].
  split; [apply rawRisk_flags_sublist |].
  rewrite !rawRisk_flag_iff. split; intros H.
  - right; right; left. split; [| reflexivity].
    repeat (destruct H as [H | H]); destruct H as [H1 H2]; try discriminate H2; try lia.
    destruct H2 as [_ H2]; discriminate H2.
  - left. split; [| reflexivity].
    repeat (destruct H as [H | H]); destruct H as [H1 H2]; try discriminate H2; try lia.
    destruct H2 as [_ H2]; discriminate H2.
Qed.

Lemma screener_scores_full input :
  requiredPassed (evaluateApplication input) = true ->
  requiredScore (evaluateApplication input) =
  lenZ (parseUniqueList (requiredScreeners (job input))).
Proof.
  unfold evaluateApplication. cbn [requiredScore requiredPassed].
  pose proof (countMatches_bounds (answers input)
                (parseUniqueList (requiredScreeners (job input)))) as Hr.
  rewrite orb_true_iff, Z.eqb_eq, Z.leb_le. lia.
Qed.

(** X7. The required and the preferred screener scores count matched
    prompts: each lies between 0 and the number of its prompts, and the
    required screeners are passed exactly when every one of them is matched. *)
Theorem screener_scores_bounded (input : ScoringInput) :
  let r := evaluateApplication input in
  0 <= requiredScore r <= lenZ (parseUniqueList (requiredScreeners (job input))) /\
  0 <= preferredScore r <= lenZ (parseUniqueList (preferredScreeners (job input))) /\
  (requiredPassed r = true <->
   requiredScore r = lenZ (parseUniqueList (requiredScreeners (job input)))).
Proof.
  cbv zeta. unfold evaluateApplication. cbn [requiredScore preferredScore requiredPassed].
  pose proof (countMatches_bounds (answers input)
                (parseUniqueList (requiredScreeners (job input)))) as Hr.
  pose proof (countMatches_bounds (answers input)
                (parseUniqueList (preferredScreeners (job input)))) as Hp.
  split; [exact Hr |]. split; [exact Hp |].
  rewrite orb_true_iff, Z.eqb_eq, Z.leb_le. lia.
Qed.

(** X8. A submission that is blocked for abuse also needs manual review
    and carries at least three risk flags. *)
Theorem block_needs_review_three_flags (input : ScoringInput) :
  blockForAbuse (evaluateApplication input) = true ->
  needsManualReview (evaluateApplication input) = true /\
  (3 <= length (riskFlags (evaluateApplication input)))%nat.
Proof.
  rewrite blockForAbuse_eval, needsManualReview_eval, riskFlags_eval, Z.leb_le.
  intros Hb. split; [apply orb_true_iff; left; apply Z.leb_le; lia |].
  revert Hb. unfold rawRisk, riskRules. rewrite !flags_addRisk, !score_addRisk.
  cbn [flags score app].
  pose proof (Z.le_min_l 24 (priorFraudEventsForIp input * 6)).
  repeat match goal with
         | |- context [if ?c then _ else _] => destruct c
         end; cbn [app length]; lia.
Qed.

Lemma block_needs_review_three_flags_witness :
  blockForAbuse (evaluateApplication burstInput) = true /\
  needsManualReview (evaluateApplication burstInput) = true /\
  (3 <= length (riskFlags (evaluateApplication burstInput)))%nat.
Proof.
  assert (H : blockForAbuse (evaluateApplication burstInput) = true) by (vm_compute; reflexivity).
  split; [exact H | exact (block_needs_review_three_flags burstInput H)].
Defined.


Lemma candidate_index input k :
  k ∈ (list_to_set (List.map normalizeToken
         (parseUniqueList (Js.join ", "
            (parseUniqueList (profileSkills (user input)) ++
             extractSkillsFromAnswers (answers input))))) : gset string) <->
  List.In k (shownSkillKeys input).
Proof.
  assert (Hclean : Forall cleanEntry
            (parseUniqueList (profileSkills (user input)) ++
             extractSkillsFromAnswers (answers input))).
  { apply Forall_app. split; apply parseUniqueList_clean. }
  rewrite elem_of_list_to_set, list_elem_of_In.
  rewrite normalize_clean_keys by apply parseUniqueList_clean.
  unfold parseUniqueList at 1. rewrite parseList_join_clean by exact Hclean.
  rewrite uniqueLoop_keys. unfold shownSkillKeys, keys. now rewrite List.map_app.
Qed.

(** X10. A required skill of the job is reported missing exactly when its
    lower-cased form is neither among the candidate's profile skills nor
    among the skills drawn from the answers. *)
Theorem missing_skill_iff_not_shown (input : ScoringInput) (skill : string) :
  List.In skill (missingSkills (evaluateApplication input)) <->
  List.In skill (parseUniqueList (requiredSkills (job input))) /\
  ~ List.In (Js.toLowerCase skill) (shownSkillKeys input).
Proof.
  unfold evaluateApplication. cbn [missingSkills].
  rewrite filter_In, negb_true_iff, bool_decide_eq_false, candidate_index.
  split; intros [Hin Hnot]; (split; [exact Hin |]);
    pose proof (parseUniqueList_clean (requiredSkills (job input))) as Hc;
    rewrite List.Forall_forall in Hc; specialize (Hc _ Hin);
    rewrite normalizeToken_clean in * by exact Hc; exact Hnot.
Qed.

Lemma pushIf_length c t (l : list string) :
  length (pushIf c t l) = (length l + (if c then 1 else 0))%nat.
Proof. destruct c; cbn; [rewrite length_app; cbn |]; lia. Qed.

(** X11. The profile suggestions of a result are never empty and never
    more than four. *)
Theorem suggestions_between_one_and_four (input : ScoringInput) :
  (1 <= length (profileFixSuggestions (evaluateApplication input)) <= 4)%nat.
Proof.
  unfold evaluateApplication. cbn [profileFixSuggestions].
  rewrite pushIf_length.
  match goal with
  | |- context [lenZ ?l =? 0] =>
      assert (Hl : (length l <= 4)%nat);
        [rewrite !pushIf_length; cbn [length];
         repeat match goal with
                | |- context [if ?c then _ else _] => destruct c
                end; lia
        | set (L := l) in *; clearbody L; unfold lenZ;
          destruct (Z.eqb_spec (Z.of_nat (length L)) 0); lia]
  end.
Qed.

(** X12. A submission without answers to a job with required screeners
    scores no required prompt, does not pass them, is sent to manual review
    and is flagged "missing_required_answers". *)
Theorem no_answers_with_required_screeners (input : ScoringInput) :
  parseUniqueList (requiredScreeners (job input)) <> [] ->
  let r := evaluateApplication (withoutAnswers input) in
  requiredScore r = 0 /\ requiredPassed r = false /\ needsManualReview r = true /\
  List.In "missing_required_answers" (riskFlags r).
Proof.
  intros Hreq. cbv zeta.
  assert (Hscore : requiredScore (evaluateApplication (withoutAnswers input)) = 0).
  { unfold evaluateApplication. cbn [requiredScore withoutAnswers answers job].
    rewrite countMatches_filter.
    assert (Hf : forall l, List.filter (fun s => answerMatchesPrompt s []) l = []).
    { induction l as [| s l IH]; [reflexivity |]. cbn [List.filter].
      replace (answerMatchesPrompt s []) with false; [exact IH |].
      unfold answerMatchesPrompt. now destruct (firstn 8 (tokenize s)). }
    now rewrite Hf. }
  assert (Hpass : requiredPassed (evaluateApplication (withoutAnswers input)) = false).
  { apply not_true_is_false. intros Hp.
    apply (screener_scores_full (withoutAnswers input)) in Hp.
    rewrite Hscore in Hp. cbn [withoutAnswers job] in Hp.
    destruct (parseUniqueList (requiredScreeners (job input))); [congruence |].
    unfold lenZ in Hp. cbn in Hp. lia. }
  split; [exact Hscore |]. split; [exact Hpass |].
  split.
  - rewrite needsManualReview_eval, Hpass. apply orb_true_r.
  - rewrite riskFlags_eval, rawRisk_flag_iff.
    do 6 right. cbn [withoutAnswers answers job]. auto.
Qed.

Lemma no_answers_with_required_screeners_witness :
  parseUniqueList (requiredScreeners (job burstInput)) <> [] /\
  requiredScore (evaluateApplication (withoutAnswers burstInput)) = 0 /\
  requiredPassed (evaluateApplication (withoutAnswers burstInput)) = false /\
  needsManualReview (evaluateApplication (withoutAnswers burstInput)) = true /\
  List.In "missing_required_answers"
          (riskFlags (evaluateApplication (withoutAnswers burstInput))).
Proof.
  assert (H : parseUniqueList (requiredScreeners (job burstInput)) <> [])
    by (vm_compute; discriminate).
  split; [exact H | exact (no_answers_with_required_screeners burstInput H)].
Defined.
End ScoringMore.


(** * Further properties of the submission handler *)

Section ApplicationMore.
Import ListCodec Applications Props CodecProps ScoringProps AppProps.

(* The two ways the handler ends: without touching the store, with an
   answer or an exception, or after scoring a first submission. *)
Lemma POST_cases db req :
  (snd (POST db req) = db /\
   ((fst (POST db req) = Thrown /\ allowed (throttle req) = true /\ throwsOn db req) \/
    exists response,
      fst (POST db req) = Answered response /\
      List.In (resp_status response) [200; 400; 401; 403; 404; 429])) \/
  (exists sess jid job user,
     allowed (throttle req) = true /\
     signedIn req = Some sess /\ body_jobId req = Some (Whole jid) /\
     findJob db jid = Some job /\ findUser db (session_userId sess) = Some user /\
     findExisting db (session_userId sess) jid = None /\
     let uid := session_userId sess in
     let scoring := scoreSubmission db req uid job user in
     let db1 := afterEvent db req uid jid scoring in
     let record := applicationFor db1 req uid jid scoring in
     (Scoring.blockForAbuse scoring = true /\
      POST db req =
        (Answered
           (jsonWithThrottle
              (ErrorBody
                 "Application blocked due to abuse risk. Contact support if this is a mistake.")
              (throttle req) 429), db1)) \/
     (Scoring.blockForAbuse scoring = false /\
      POST db req =
        (Answered (jsonWithThrottle (ApplicationBody (mapApplication record))
                                    (throttle req) 201),
         addApplication record db1))).
Proof.
  unfold POST.
  destruct (allowed (throttle req)) eqn:Hal; cbn [negb];
    [| left; split; [reflexivity | right; eexists; split; [reflexivity | cbn; tauto]]].
  destruct (signedIn req) as [sess |] eqn:Hs;
    [| left; split; [reflexivity | right; eexists; split; [reflexivity | cbn; tauto]]].
  destruct (negb (String.eqb (session_role sess) "CANDIDATE") &&
            negb (String.eqb (session_role sess) "ADMIN"));
    [left; split; [reflexivity | right; eexists; split; [reflexivity | cbn; tauto]] |].
  unfold throwsOn, body_jobId.
  destruct (body req) as [| | [number |] answers] eqn:Hbody.
  - left. split; [reflexivity |]. left. auto.
  - left. split; [reflexivity |]. left. auto.
  - destruct (lookupJob db number) as [[jid job] |] eqn:Hjob.
    + assert (Hnumber : number = Whole jid /\ findJob db jid = Some job).
      { destruct number as [id | q]; cbn in Hjob; [| discriminate].
        destruct (findJob db id) eqn:E; cbn in Hjob; [| discriminate].
        injection Hjob as <- <-. auto. }
      destruct Hnumber as [-> Hfind].
      destruct (findUser db (session_userId sess)) as [user |] eqn:Hu;
        [| left; split; [reflexivity | right; eexists; split; [reflexivity | cbn; tauto]]].
      destruct (findExisting db (session_userId sess) jid) as [existing |] eqn:He;
        [left; split; [reflexivity | right; eexists; split; [reflexivity | cbn; tauto]] |].
      right. exists sess, jid, job, user. repeat (split; [reflexivity || assumption |]).
      cbv zeta. unfold afterEvent.
      destruct (Scoring.blockForAbuse _) eqn:Hb; [left | right]; split; reflexivity.
    + destruct (refusedId req number) eqn:Href.
      * left. split; [reflexivity |]. left. split; [reflexivity |]. split; [reflexivity |].
        right. right. exists number. auto.
      * left. split; [reflexivity | right; eexists; split; [reflexivity | cbn; tauto]].
  - left. split; [reflexivity | right; eexists; split; [reflexivity | cbn; tauto]].
Qed.

Lemma afterEvent_tables db req uid jid scoring :
  jobs (afterEvent db req uid jid scoring) = jobs db /\
  users (afterEvent db req uid jid scoring) = users db /\
  applications (afterEvent db req uid jid scoring) = applications db /\
  exists es, fraudEvents (afterEvent db req uid jid scoring) = fraudEvents db ++ es /\
             (length es <= 1)%nat.
Proof.
  unfold afterEvent. destruct (0 <? _); cbn; repeat split.
  - eexists; split; [reflexivity | cbn; lia].
  - exists []. rewrite app_nil_r. split; [reflexivity | cbn; lia].
Qed.

(** X13. The handler only ever appends: jobs and users are untouched, at
    most one abuse event is added, and one application is added exactly
    when the answer is 201. An answer carries one of seven status codes.
    The handler throws only for a body it cannot read, the body [null] or
    a job id that Prisma refuses, and then the store is as it was. *)
Theorem post_only_appends (db : Db) (req : Request) :
  let outcome := fst (POST db req) in
  let db' := snd (POST db req) in
  jobs db' = jobs db /\ users db' = users db /\
  (exists es, fraudEvents db' = fraudEvents db ++ es /\ (length es <= 1)%nat) /\
  (exists added, applications db' = applications db ++ added /\
     length added = match statusOf outcome with
                    | Some status => if status =? 201 then 1%nat else 0%nat
                    | None => 0%nat
                    end) /\
  match outcome with
  | Answered response => List.In (resp_status response) postStatuses
  | Thrown => db' = db /\ allowed (throttle req) = true /\ throwsOn db req
  end.
Proof.
  cbv zeta. destruct (POST_cases db req) as [[Hdb Hout] | Hscored].
  - rewrite Hdb. split; [reflexivity |]. split; [reflexivity |].
    split; [exists []; rewrite app_nil_r; split; [reflexivity | cbn; lia] |].
    destruct Hout as [(-> & Hal & Hthrow) | (response & -> & Hst)]; cbn [statusOf].
    + split; [exists []; rewrite app_nil_r; split; reflexivity | auto].
    + split.
      * exists []. rewrite app_nil_r. split; [reflexivity |].
        cbn in Hst. decompose [or] Hst; try contradiction;
          match goal with H : _ = resp_status _ |- _ => rewrite <- H end; reflexivity.
      * unfold postStatuses. cbn in Hst |- *. tauto.
  - destruct Hscored as (sess & jid & job & user & _ & _ & _ & _ & _ & _ & H).
    cbv zeta in H.
    destruct (afterEvent_tables db req (session_userId sess) jid
                (scoreSubmission db req (session_userId sess) job user))
      as (Hjobs & Husers & Happs & Hev).
    destruct H as [[_ ->] | [_ ->]];
      cbn [fst snd jsonWithThrottle resp_status statusOf].
    + repeat split; try assumption.
      * exists []. rewrite app_nil_r. split; [exact Happs | reflexivity].
      * unfold postStatuses; cbn; tauto.
    + cbn [addApplication jobs users applications fraudEvents].
      repeat split; try assumption.
      * eexists; split; [rewrite Happs; reflexivity | reflexivity].
      * unfold postStatuses; cbn; tauto.
Qed.

Lemma NoDup_snoc {A} (l : list A) (x : A) :
  List.NoDup l -> ~ List.In x l -> List.NoDup (l ++ [x]).
Proof.
  induction 1 as [| y l Hy Hnd IH]; intros Hx; cbn.
  - constructor; [intros [] | constructor].
  - constructor.
    + rewrite in_app_iff. cbn. intros [H | [H | []]]; [contradiction | subst; apply Hx; now left].
    + apply IH. intros H. apply Hx. now right.
Qed.

Lemma findExisting_none db uid jid :
  findExisting db uid jid = None ->
  ~ List.In (uid, jid) (List.map pairOf (applications db)).
Proof.
  intros Hnone Hin. apply in_map_iff in Hin as (a & Ha & Hin).
  unfold findExisting in Hnone.
  pose proof (find_none _ _ Hnone a Hin) as Htest. cbn beta in Htest.
  unfold pairOf in Ha. injection Ha as Hu Hj.
  rewrite Hu, Hj, String.eqb_refl, Z.eqb_refl in Htest. discriminate.
Qed.

(** X14. The handler keeps the store free of double applications: when no
    candidate has two applications to one job before a request, none has
    after it. *)
Theorem post_keeps_one_per_pair (db : Db) (req : Request) :
  onePerPair db -> onePerPair (snd (POST db req)).
Proof.
  intros Hone. destruct (POST_cases db req) as [[Hdb _] | Hscored]; [now rewrite Hdb |].
  destruct Hscored as (sess & jid & job & user & _ & _ & _ & _ & _ & Hnone & H).
  cbv zeta in H.
  destruct (afterEvent_tables db req (session_userId sess) jid
              (scoreSubmission db req (session_userId sess) job user))
    as (_ & _ & Happs & _).
  unfold onePerPair in *.
  destruct H as [[_ ->] | [_ ->]]; cbn [snd addApplication applications].
  - now rewrite Happs.
  - rewrite Happs, List.map_app. cbn [List.map].
    apply NoDup_snoc; [exact Hone |]. now apply findExisting_none.
Qed.

Lemma post_keeps_one_per_pair_witness :
  onePerPair Examples.appliedDb /\
  onePerPair (snd (POST Examples.appliedDb Examples.hastySubmission)).
Proof.
  assert (H : onePerPair Examples.appliedDb).
  { unfold onePerPair. cbn. constructor; [intros [] | constructor]. }
  split; [exact H | exact (post_keeps_one_per_pair _ Examples.hastySubmission H)].
Defined.

Lemma sublist_map {A B} (f : A -> B) (l1 l2 : list A) :
  sublist l1 l2 -> sublist (List.map f l1) (List.map f l2).
Proof. induction 1; cbn; [constructor | now apply sublist_skip | now apply sublist_cons]. Qed.

Lemma sublist_List_filter {A} (f : A -> bool) (l : list A) : sublist (List.filter f l) l.
Proof.
  induction l as [| x l IH]; cbn; [constructor |].
  destruct (f x); [now apply sublist_skip | now apply sublist_cons].
Qed.

Lemma ListNoDup_sublist {A} (l1 l2 : list A) :
  sublist l1 l2 -> List.NoDup l2 -> List.NoDup l1.
Proof.
  intros Hs Hnd. apply NoDup_ListNoDup. eapply sublist_NoDup; [| exact Hs].
  now apply NoDup_ListNoDup.
Qed.

(* Clean entries with distinct keys survive encoding and unique parsing. *)
Lemma unique_decode_encode l :
  Forall cleanEntry l -> List.NoDup (keys l) -> parseUniqueList (encodeList l) = l.
Proof.
  intros Hc Hnd. unfold parseUniqueList. rewrite decode_encode_clean by exact Hc.
  apply uniqueLoop_id; [exact Hnd | set_solver].
Qed.

Lemma ruleFlags_clean : Forall cleanEntry ruleFlags.
Proof. repeat constructor; try discriminate. Qed.

Lemma ruleFlags_keys_nodup : List.NoDup (keys ruleFlags).
Proof.
  unfold ruleFlags. cbn.
  repeat (constructor; [cbn; intuition discriminate |]). constructor.
Qed.

(** X15. The view of a newly stored application shows the risk flags and
    the missing skills exactly as the scoring produced them: storing them
    as encoded text and reading them back loses nothing. *)
Theorem stored_flags_and_skills_round_trip
    (db : Db) (req : Request) (uid : string) (jid : Z) (input : Scoring.ScoringInput) :
  let scoring := Scoring.evaluateApplication input in
  let view := mapApplication (applicationFor db req uid jid scoring) in
  v_riskFlags view = Scoring.riskFlags scoring /\
  v_missingSkills view = Scoring.missingSkills scoring.
Proof.
  cbv zeta. cbn [mapApplication applicationFor v_riskFlags v_missingSkills riskFlags
                 missingSkills].
  split.
  - rewrite riskFlags_eval.
    pose proof (rawRisk_flags_sublist input) as Hs.
    apply unique_decode_encode.
    + eapply sublist_Forall; [exact Hs | apply ruleFlags_clean].
    + eapply ListNoDup_sublist; [apply sublist_map, Hs | apply ruleFlags_keys_nodup].
  - unfold Scoring.evaluateApplication. cbn [Scoring.missingSkills].
    apply unique_decode_encode.
    + eapply sublist_Forall; [apply sublist_List_filter | apply parseUniqueList_clean].
    + eapply ListNoDup_sublist; [apply sublist_map, sublist_List_filter |].
      apply uniqueLoop_nodup.
Qed.

Lemma In_pushIf c t (l : list string) x :
  List.In x (Scoring.pushIf c t l) <-> List.In x l \/ (c = true /\ x = t).
Proof.
  unfold Scoring.pushIf. destruct c; [rewrite in_app_iff; cbn |]; intuition congruence.
Qed.

Lemma join_two_has_comma e1 e2 l tail :
  allChars notListSep (Js.join ", " (e1 :: e2 :: l) +:+ tail) = false.
Proof.
  rewrite join_cons, !allChars_append.
  change (allChars notListSep ", ") with false.
  now rewrite andb_false_r, andb_false_l.
Qed.

(** X16. When two or more required skills are missing, the suggestions in
    the view of the stored application differ from the suggestions the
    scoring produced: the stored text is split at the commas of the skill
    list when it is read back. *)
Theorem stored_suggestions_split_at_commas
    (db : Db) (req : Request) (uid : string) (jid : Z) (input : Scoring.ScoringInput) :
  let scoring := Scoring.evaluateApplication input in
  let view := mapApplication (applicationFor db req uid jid scoring) in
  (2 <= length (Scoring.missingSkills scoring))%nat ->
  v_profileFixSuggestions view <> Scoring.profileFixSuggestions scoring.
Proof.
  cbv zeta.
  cbn [mapApplication applicationFor v_profileFixSuggestions profileFixSuggestions].
  intros Hlen Heq.
  pose proof (parseUniqueList_clean
                (encodeList (Scoring.profileFixSuggestions
                               (Scoring.evaluateApplication input)))) as Hclean.
  rewrite Heq in Hclean. rewrite List.Forall_forall in Hclean.
  revert Hlen Hclean. unfold Scoring.evaluateApplication.
  cbn [Scoring.missingSkills Scoring.profileFixSuggestions].
  set (missing := List.filter _ (parseUniqueList (Scoring.requiredSkills _))).
  intros Hlen Hclean.
  destruct missing as [| e1 [| e2 rest]] eqn:Hm; cbn [length] in Hlen; try lia.
  specialize (Hclean ("Add evidence for required skills: " +:+
                      Js.join ", " (e1 :: e2 :: rest) +:+ ".")).
  destruct Hclean as (_ & _ & Hsep).
  - rewrite !In_pushIf. left. left. left. right. split; reflexivity.
  - rewrite allChars_append, join_two_has_comma, andb_false_r in Hsep. discriminate.
Qed.

Lemma stored_suggestions_split_at_commas_witness :
  (2 <= length (Scoring.missingSkills (Scoring.evaluateApplication skillGapInput)))%nat /\
  v_profileFixSuggestions
    (mapApplication (applicationFor Examples.freshDb Examples.hastySubmission "u1" 7
                       (Scoring.evaluateApplication skillGapInput))) <>
  Scoring.profileFixSuggestions (Scoring.evaluateApplication skillGapInput).
Proof.
  assert (H : (2 <= length (Scoring.missingSkills
                              (Scoring.evaluateApplication skillGapInput)))%nat)
    by (vm_compute; lia).
  split; [exact H |].
  exact (stored_suggestions_split_at_commas Examples.freshDb Examples.hastySubmission
           "u1" 7 skillGapInput H).
Defined.

(** X17. The severity and the decision of a recorded abuse event agree:
    the severity is "high" exactly when the decision is "block", a
    "medium" severity goes with "manual_review", and an "allow" decision
    has severity "low". *)
Theorem event_severity_matches_decision
    (req : Request) (uid : string) (jid : Z) (input : Scoring.ScoringInput) :
  let event := fraudEventFor req uid jid (Scoring.evaluateApplication input) in
  (fe_severity event = "high" <-> fe_decision event = "block") /\
  (fe_severity event = "medium" -> fe_decision event = "manual_review") /\
  (fe_decision event = "allow" -> fe_severity event = "low").
Proof.
  cbv zeta. unfold fraudEventFor. cbn [fe_severity fe_decision].
  rewrite blockForAbuse_eval, needsManualReview_eval, riskScore_eval.
  destruct (rawRisk_score_bounds input) as [Hb _].
  destruct (Z.leb_spec 72 (Scoring.score (rawRisk input)));
    destruct (Z.leb_spec 45 (Scoring.score (rawRisk input)));
    destruct (Z.leb_spec 72 (Z.max 0 (Z.min 100 (Scoring.score (rawRisk input)))));
    destruct (Z.leb_spec 45 (Z.max 0 (Z.min 100 (Scoring.score (rawRisk input)))));
    try lia; cbn [orb];
    try destruct (negb _); repeat split; intros; congruence.
Qed.

Lemma block_has_flags input :
  Scoring.blockForAbuse (Scoring.evaluateApplication input) = true ->
  (0 <? Scoring.lenZ (Scoring.riskFlags (Scoring.evaluateApplication input))) = true.
Proof.
  rewrite blockForAbuse_eval, riskFlags_eval, Z.leb_le. intros Hb.
  destruct (Scoring.flags (rawRisk input)) eqn:E; [| reflexivity].
  apply no_flags_no_score in E. lia.
Qed.

Lemma countFraudEvents_add db e ip since :
  countFraudEvents (addFraudEvent e db) ip since =
  countFraudEvents db ip since +
  (if String.eqb (fe_sourceIp e) ip && (since <=? fe_createdAt e) &&
      (String.eqb (fe_decision e) "manual_review" || String.eqb (fe_decision e) "block")
   then 1 else 0).
Proof.
  unfold countFraudEvents, addFraudEvent. cbn [fraudEvents].
  rewrite List.filter_app. unfold Scoring.lenZ. rewrite length_app. cbn [List.filter].
  destruct (_ && _ && _); cbn [length]; lia.
Qed.

(** X18. A submission that is blocked for abuse raises the abuse history
    of its client address by one: the next scoring of a request from that
    address, within the day, counts the recorded event. *)
Theorem blocked_submission_raises_ip_history (db : Db) (req : Request) (since : Z) :
  allowed (throttle req) = true ->
  statusOf (fst (POST db req)) = Some 429 ->
  since <= fraudEventNow (clock req) ->
  countFraudEvents (snd (POST db req)) (clientIdentifier req) since =
  countFraudEvents db (clientIdentifier req) since + 1.
Proof.
  intros Hallowed Hstatus Hsince.
  assert (Hshape : exists uid jid input,
            Scoring.blockForAbuse (Scoring.evaluateApplication input) = true /\
            snd (POST db req) =
              afterEvent db req uid jid (Scoring.evaluateApplication input)).
  { revert Hstatus. unfold POST. rewrite Hallowed. cbn [negb].
    destruct (signedIn req) as [sess |]; [| discriminate].
    destruct (_ && _); [discriminate |].
    destruct (body req) as [| | [number |] answers]; try discriminate.
    destruct (lookupJob db number) as [[jid job] |];
      [| destruct (refusedId req number); discriminate].
    destruct (findUser db (session_userId sess)) as [user |]; [| discriminate].
    destruct (findExisting db (session_userId sess) jid); [discriminate |].
    cbv zeta. unfold scoreSubmission.
    destruct (Scoring.blockForAbuse _) eqn:Hb; [| discriminate].
    intros _. eexists _, _, _. split; [exact Hb | reflexivity]. }
  destruct Hshape as (uid & jid & input & Hb & ->).
  unfold afterEvent. rewrite (block_has_flags input Hb), countFraudEvents_add.
  unfold fraudEventFor. cbn [fe_sourceIp fe_createdAt fe_decision].
  rewrite Hb, String.eqb_refl. cbn.
  destruct (Z.leb_spec since (fraudEventNow (clock req))); [reflexivity | lia].
Qed.

Lemma blocked_submission_raises_ip_history_witness :
  countFraudEvents (snd (POST Examples.freshDb Examples.hastySubmission)) "10.0.0.1" 0 =
  countFraudEvents Examples.freshDb "10.0.0.1" 0 + 1.
Proof.
  apply (blocked_submission_raises_ip_history Examples.freshDb Examples.hastySubmission 0).
  - reflexivity.
  - vm_compute. reflexivity.
  - vm_compute. discriminate.
Defined.

Lemma trim_of_trim_nonempty s :
  Js.isEmpty (Js.trim s) = false ->
  Js.trim s <> EmptyString /\ Js.trim (Js.trim s) = Js.trim s.
Proof. intros H. split; [now apply isEmpty_false | apply trim_idem]. Qed.

(** X19. The answers the handler scores are well formed: every one has a
    non-empty, trimmed question and answer; no more answers are scored than
    the body lists, and a body without an answer array gives none. *)
Theorem parsed_answers_well_formed (value : option (list RawAnswer)) :
  Forall wellFormedAnswer (parseScreenerAnswers value) /\
  (length (parseScreenerAnswers value) <=
   match value with Some entries => length entries | None => 0 end)%nat.
Proof.
  destruct value as [entries |]; cbn [parseScreenerAnswers]; [| split; [constructor | cbn; lia]].
  induction entries as [| entry entries [IHw IHl]]; [split; [constructor | cbn; lia] |].
  cbn [List.flat_map length]. rewrite length_app.
  destruct entry as [q a |]; [| split; [exact IHw | cbn; lia]].
  destruct (Js.isEmpty _ || Js.isEmpty _) eqn:E; [split; [exact IHw | cbn; lia] |].
  apply orb_false_iff in E as [Eq Ea].
  split; [| cbn; lia].
  cbn [app]. constructor; [| exact IHw].
  unfold wellFormedAnswer. cbn [Scoring.question Scoring.answer].
  destruct q as [q |]; [| discriminate Eq]. destruct a as [a |]; [| discriminate Ea].
  apply trim_of_trim_nonempty in Eq as [? ?]. apply trim_of_trim_nonempty in Ea as [? ?].
  auto.
Qed.
End ApplicationMore.


(** * Properties of the rate limiter *)

Section RateLimitFacts.
Import RateLimit RateLimitProps.

Lemma cleanup_lookup store now key bucket :
  cleanupExpired store now !! key = Some bucket <->
  store !! key = Some bucket /\ ((size store < 500)%nat \/ expired now bucket = false).
Proof.
  unfold cleanupExpired. destruct (Nat.ltb_spec (size store) 500) as [Hs | Hs].
  - intuition.
  - rewrite map_lookup_filter_Some. cbn. intuition lia.
Qed.

Lemma cleanup_live store now key bucket :
  store !! key = Some bucket -> expired now bucket = false ->
  cleanupExpired store now !! key = Some bucket.
Proof. intros. apply cleanup_lookup. auto. Qed.

Lemma cleanup_none store now key :
  store !! key = None -> cleanupExpired store now !! key = None.
Proof.
  intros Hn. destruct (cleanupExpired store now !! key) eqn:E; [| reflexivity].
  apply cleanup_lookup in E as [E _]. congruence.
Qed.

Lemma bucketAt_store root ns key :
  bucketAt root ns key = namespaceStore ns root !! key.
Proof.
  unfold bucketAt, namespaceStore. destruct (root !! ns); cbn; [reflexivity |].
  now rewrite lookup_empty.
Qed.

Lemma bucketAt_insert root ns store ns' key :
  bucketAt (<[ns := store]> root) ns' key =
  if decide (ns = ns') then store !! key else bucketAt root ns' key.
Proof.
  unfold bucketAt. destruct (decide (ns = ns')) as [-> | Hne].
  - now rewrite lookup_insert_eq.
  - now rewrite lookup_insert_ne.
Qed.

(* What one call answers and what it leaves in the caller's bucket. *)
Inductive Outcome (input : ConsumeInput) (now : Z) (old : option Bucket)
    (result : RateLimitResult) (new : Bucket) : Prop :=
| opened :
    (old = None \/ exists b, old = Some b /\ expired now b = true) ->
    allowed result = true ->
    remaining result = limitOf input - 1 ->
    resetAt result = now + windowOf input ->
    new = {| count := 1; bucket_resetAt := now + windowOf input |} ->
    Outcome input now old result new
| counted b :
    old = Some b -> expired now b = false -> count b < limitOf input ->
    allowed result = true ->
    remaining result = limitOf input - (count b + 1) ->
    resetAt result = bucket_resetAt b ->
    new = {| count := count b + 1; bucket_resetAt := bucket_resetAt b |} ->
    Outcome input now old result new
| refused b :
    old = Some b -> expired now b = false -> limitOf input <= count b ->
    allowed result = false ->
    remaining result = 0 ->
    resetAt result = bucket_resetAt b ->
    new = b ->
    Outcome input now old result new.

Lemma consume_outcome input now root :
  exists new,
    bucketAt (snd (consumeRateLimit input now root)) (in_namespace input) (keyOf input)
      = Some new /\
    Outcome input now (bucketAt root (in_namespace input) (keyOf input))
            (fst (consumeRateLimit input now root)) new.
Proof.
  rewrite (bucketAt_store root).
  unfold consumeRateLimit. fold (keyOf input) (limitOf input) (windowOf input).
  set (store0 := namespaceStore (in_namespace input) root).
  assert (Hlim : 1 <= limitOf input) by (unfold limitOf; lia).
  destruct (cleanupExpired store0 now !! keyOf input) as [b |] eqn:Ho.
  - pose proof Ho as Hold. apply cleanup_lookup in Hold as [Hold _]. rewrite Hold.
    destruct (expired now b) eqn:Hexp.
    + eexists. cbn [fst snd]. rewrite bucketAt_insert, decide_True, lookup_insert_eq by reflexivity.
      split; [reflexivity |].
      apply opened; cbn; try reflexivity; [right; eauto | lia].
    + destruct (Z.leb_spec (limitOf input) (count b)) as [Hfull | Hroom].
      * exists b. cbn [fst snd]. rewrite bucketAt_insert, decide_True by reflexivity.
        split; [exact Ho |].
        now apply (refused _ _ _ _ _ b).
      * eexists. cbn [fst snd].
        rewrite bucketAt_insert, decide_True, lookup_insert_eq by reflexivity.
        split; [reflexivity |].
        apply (counted _ _ _ _ _ b); cbn; try reflexivity; try assumption. lia.
  - eexists. cbn [fst snd]. rewrite bucketAt_insert, decide_True, lookup_insert_eq by reflexivity.
    split; [reflexivity |].
    apply opened; cbn; try reflexivity; [| lia].
    destruct (store0 !! keyOf input) as [b |] eqn:Hold; [right | now left].
    exists b. split; [reflexivity |].
    destruct (expired now b) eqn:Hexp; [reflexivity |].
    rewrite (cleanup_live _ _ _ _ Hold Hexp) in Ho. discriminate.
Qed.

(* Buckets of other keys are never created or changed; they are only
   dropped once their window is over. *)
Lemma consume_others input now root ns key :
  (ns, key) <> (in_namespace input, keyOf input) ->
  (forall bucket,
     bucketAt (snd (consumeRateLimit input now root)) ns key = Some bucket ->
     bucketAt root ns key = Some bucket) /\
  (forall bucket,
     bucketAt root ns key = Some bucket -> expired now bucket = false ->
     bucketAt (snd (consumeRateLimit input now root)) ns key = Some bucket).
Proof.
  intros Hne.
  assert (Hroot : exists store,
            snd (consumeRateLimit input now root) = <[in_namespace input := store]> root /\
            (ns = in_namespace input ->
             store !! key =
             cleanupExpired (namespaceStore (in_namespace input) root) now !! key)).
  { unfold consumeRateLimit. fold (keyOf input) (limitOf input) (windowOf input).
    destruct (cleanupExpired _ now !! keyOf input) as [b |];
      [destruct (expired now b); [| destruct (_ <=? _)] |];
      eexists; (split; [reflexivity |]); intros ->;
      try reflexivity; rewrite lookup_insert_ne; congruence. }
  destruct Hroot as (store & -> & Hstore).
  split; intros bucket; rewrite bucketAt_insert;
    destruct (decide (in_namespace input = ns)) as [<- | Hns]; try tauto;
    rewrite Hstore, bucketAt_store by reflexivity.
  - intros H. now apply cleanup_lookup in H.
  - intros H Hlive. now apply cleanup_live.
Qed.

Lemma consume_fields input now root :
  let result := fst (consumeRateLimit input now root) in
  namespace result = in_namespace input /\
  identifier result = keyOf input /\
  limit result = limitOf input /\
  retryAfterSeconds result = Z.max 1 (ceilSeconds (resetAt result - now)).
Proof.
  cbv zeta. unfold consumeRateLimit. fold (keyOf input) (limitOf input) (windowOf input).
  destruct (cleanupExpired _ now !! keyOf input) as [b |];
    [destruct (expired now b); [| destruct (_ <=? _)] |];
    cbn; repeat split; do 2 f_equal; lia.
Qed.

Lemma allowedPattern_cons c lim n :
  allowedPattern c lim (S n) = (c <? lim) :: allowedPattern (c + 1) lim n.
Proof.
  unfold allowedPattern. cbn [seq List.map]. f_equal; [f_equal; lia |].
  rewrite <- seq_shift, List.map_map. apply map_ext. intros i. f_equal. lia.
Qed.

Lemma allowedPattern_full c lim n : lim <= c -> allowedPattern c lim n = repeat false n.
Proof.
  intros Hfull. unfold allowedPattern. generalize 0%nat.
  induction n as [| n IH]; intros s; [reflexivity |].
  cbn. rewrite IH. f_equal. apply Z.ltb_ge. lia.
Qed.

(* Calls within the window of a bucket pass while its count is below the limit. *)
Lemma live_bucket_pattern input times : forall root bucket,
  bucketAt root (in_namespace input) (keyOf input) = Some bucket ->
  Forall (fun now => expired now bucket = false) times ->
  List.map allowed (fst (consumeAt input times root)) =
  allowedPattern (count bucket) (limitOf input) (length times).
Proof.
  induction times as [| now times IH]; intros root bucket Hold Hlive; [reflexivity |].
  apply Forall_cons_iff in Hlive as [Hnow Hlive].
  destruct (consume_outcome input now root) as (new & Hnew & Hout).
  cbn [consumeAt length].
  destruct (consumeRateLimit input now root) as [result root1]. cbn [fst snd] in *.
  specialize (IH root1 new Hnew).
  destruct (consumeAt input times root1) as [results root2]. cbn [fst List.map] in *.
  rewrite Hold in Hout. rewrite allowedPattern_cons.
  destruct Hout as [[Hn | (b & Hb & Hexp)] _ _ _ _ | b Hb _ Hroom Hal _ _ -> |
                    b Hb _ Hfull Hal _ _ ->].
  - discriminate.
  - injection Hb as <-. congruence.
  - injection Hb as <-. rewrite Hal, IH by exact Hlive. cbn [count].
    f_equal. symmetry. now apply Z.ltb_lt.
  - injection Hb as <-. rewrite Hal, IH by exact Hlive.
    rewrite !allowedPattern_full by lia. f_equal. symmetry. apply Z.ltb_ge. lia.
Qed.

(** X20. From the call that opens a window, calls with the same input
    made before the window ends pass exactly while fewer than the limit
    have been counted: of the opening call and those that follow, the
    first [limit] are allowed and every later one is refused. *)
Theorem window_allows_limit_calls
    (input : ConsumeInput) (root : Root) (t0 : Z) (times : list Z) :
  (bucketAt root (in_namespace input) (keyOf input) = None \/
   exists bucket, bucketAt root (in_namespace input) (keyOf input) = Some bucket /\
                  expired t0 bucket = true) ->
  Forall (fun now => now < t0 + windowOf input) times ->
  List.map allowed (fst (consumeAt input (t0 :: times) root)) =
  allowedPattern 0 (limitOf input) (S (length times)).
Proof.
  intros Hstart Hin.
  destruct (consume_outcome input t0 root) as (new & Hnew & Hout).
  cbn [consumeAt].
  destruct (consumeRateLimit input t0 root) as [result root1]. cbn [fst snd] in *.
  pose proof (live_bucket_pattern input times root1 new Hnew) as Hrest.
  destruct (consumeAt input times root1) as [results root2]. cbn [fst List.map] in *.
  rewrite allowedPattern_cons.
  assert (Hlim : 1 <= limitOf input) by (unfold limitOf; lia).
  destruct Hout as [_ Hal _ _ -> | b Hb Hexp _ _ _ _ _ | b Hb Hexp _ _ _ _ _].
  - rewrite Hal, Hrest.
    + cbn [count]. f_equal. symmetry. apply Z.ltb_lt. lia.
    + eapply List.Forall_impl; [| exact Hin]. intros now Hnow.
      unfold expired. cbn [bucket_resetAt]. apply Z.leb_gt. exact Hnow.
  - destruct Hstart as [Hn | (b' & Hb' & Hexp')]; congruence.
  - destruct Hstart as [Hn | (b' & Hb' & Hexp')]; congruence.
Qed.

Lemma window_allows_limit_calls_witness :
  List.map allowed
    (fst (consumeAt {| in_namespace := "n"; in_identifier := "c"; in_limit := 2;
                       in_windowMs := 1000 |} [10; 20; 30] ∅)) =
  [true; true; false].
Proof.
  apply (window_allows_limit_calls
           {| in_namespace := "n"; in_identifier := "c"; in_limit := 2;
              in_windowMs := 1000 |} ∅ 10 [20; 30]).
  - left. reflexivity.
  - repeat constructor.
Defined.

Lemma ceilSeconds_covers ms : ms <= 1000 * ceilSeconds ms.
Proof.
  unfold ceilSeconds.
  pose proof (Z.div_mod (- ms) 1000 ltac:(lia)).
  pose proof (Z.mod_pos_bound (- ms) 1000 ltac:(lia)). lia.
Qed.

Lemma keyOf_nonempty input : keyOf input <> EmptyString.
Proof.
  unfold keyOf. destruct (Js.isEmpty (Js.trim (in_identifier input))) eqn:E; [discriminate |].
  destruct (Js.trim (in_identifier input)); [discriminate E | discriminate].
Qed.

(** X21. On a store whose buckets all count at least 1, every call
    answers with a limit of at least 1, a remaining quota from 0 to below
    the limit (0 when refused), a reset time in the future, a retry delay of
    at least one second that reaches the reset time, and a non-empty
    identifier; and the store it leaves again counts at least 1 everywhere. *)
Theorem consume_result_bounds (input : ConsumeInput) (now : Z) (root : Root) :
  wfRoot root ->
  let result := fst (consumeRateLimit input now root) in
  wfRoot (snd (consumeRateLimit input now root)) /\
  1 <= limit result /\
  0 <= remaining result < limit result /\
  (allowed result = false -> remaining result = 0) /\
  now < resetAt result /\
  1 <= retryAfterSeconds result /\
  resetAt result - now <= 1000 * retryAfterSeconds result /\
  identifier result <> EmptyString.
Proof.
  intros Hwf. cbv zeta.
  destruct (consume_fields input now root) as (_ & Hid & Hlimit & Hretry).
  destruct (consume_outcome input now root) as (new & Hnew & Hout).
  assert (Hlim : 1 <= limitOf input) by (unfold limitOf; lia).
  assert (Hwin : 1000 <= windowOf input) by (unfold windowOf; lia).
  pose proof (ceilSeconds_covers
                (resetAt (fst (consumeRateLimit input now root)) - now)) as Hceil.
  rewrite Hid, Hlimit, Hretry.
  assert (Hnewcount : 1 <= count new /\
                      0 <= remaining (fst (consumeRateLimit input now root)) < limitOf input /\
                      (allowed (fst (consumeRateLimit input now root)) = false ->
                       remaining (fst (consumeRateLimit input now root)) = 0) /\
                      now < resetAt (fst (consumeRateLimit input now root))).
  { destruct Hout as [_ Hal Hrem Hreset -> | b Hb Hexp Hroom Hal Hrem Hreset -> |
                      b Hb Hexp Hfull Hal Hrem Hreset ->];
      rewrite Hrem, Hreset, Hal; cbn [count];
      try (apply Hwf in Hb); try (unfold expired in Hexp; apply Z.leb_gt in Hexp);
      repeat split; try lia; try discriminate. }
  destruct Hnewcount as (Hcount & Hrem & Hzero & Hfuture).
  split; [| repeat split; try lia; try assumption; apply keyOf_nonempty].
  intros ns key bucket Hb.
  destruct (decide ((ns, key) = (in_namespace input, keyOf input))) as [Heq | Hne].
  - injection Heq as -> ->. rewrite Hnew in Hb. now injection Hb as <-.
  - apply (Hwf ns key). now apply (consume_others input now root ns key Hne).
Qed.

Lemma consume_result_bounds_witness :
  wfRoot (snd (consumeRateLimit (applicationsCreate "10.0.0.1") 5 ∅)) /\
  remaining (fst (consumeRateLimit (applicationsCreate "10.0.0.1") 5 ∅)) = 23.
Proof.
  assert (Hwf : wfRoot (∅ : Root)).
  { intros ns key bucket H. unfold bucketAt in H. rewrite lookup_empty in H. discriminate. }
  pose proof (consume_result_bounds (applicationsCreate "10.0.0.1") 5 ∅ Hwf) as H.
  cbv zeta in H. destruct H as (Hwf' & _).
  split; [exact Hwf' | reflexivity].
Defined.

(** X22. A call neither creates nor changes the bucket of any other
    identifier or namespace, and it never drops one whose window is still
    open. *)
Theorem other_buckets_untouched
    (input : ConsumeInput) (now : Z) (root : Root) (ns key : string) :
  (ns, key) <> (in_namespace input, keyOf input) ->
  (forall bucket,
     bucketAt (snd (consumeRateLimit input now root)) ns key = Some bucket ->
     bucketAt root ns key = Some bucket) /\
  (forall bucket,
     bucketAt root ns key = Some bucket -> expired now bucket = false ->
     bucketAt (snd (consumeRateLimit input now root)) ns key = Some bucket).
Proof. apply consume_others. Qed.

Lemma other_buckets_untouched_witness :
  bucketAt (snd (consumeRateLimit (applicationsCreate "10.0.0.2") 9
                   (snd (consumeRateLimit (applicationsCreate "10.0.0.1") 5 ∅))))
           "applications:create" "10.0.0.1" =
  Some {| count := 1; bucket_resetAt := 60005 |}.
Proof.
  apply (other_buckets_untouched (applicationsCreate "10.0.0.2") 9
           (snd (consumeRateLimit (applicationsCreate "10.0.0.1") 5 ∅))
           "applications:create" "10.0.0.1").
  - vm_compute. discriminate.
  - vm_compute. reflexivity.
  - reflexivity.
Defined.




End RateLimitFacts.


(** * Further properties of the pipeline automation *)

Section PipelineMoreFacts.
Import Pipeline PipelineRun PipelineProps PipelineMore.

Lemma insertSorted_perm {A} (le : A -> A -> bool) x l :
  Permutation (insertSorted le x l) (x :: l).
Proof.
  induction l as [| y l IH]; cbn; [reflexivity |].
  destruct (le x y); [reflexivity |].
  rewrite IH. apply perm_swap.
Qed.

Lemma stableSort_perm {A} (le : A -> A -> bool) l : Permutation (stableSort le l) l.
Proof.
  induction l as [| x l IH]; cbn; [reflexivity |].
  fold (stableSort le l). rewrite insertSorted_perm. now apply perm_skip.
Qed.

Lemma stableSort_In {A} (le : A -> A -> bool) l x :
  List.In x (stableSort le l) <-> List.In x l.
Proof.
  split; apply Permutation_in; [| symmetry]; apply stableSort_perm.
Qed.

Section Sorting.
Context {A : Type} (le : A -> A -> bool).
Hypothesis le_total : forall x y, le x y = false -> le y x = true.
Hypothesis le_trans : forall x y z, le x y = true -> le y z = true -> le x z = true.

Lemma insertSorted_sorted x l : sortedBy le l -> sortedBy le (insertSorted le x l).
Proof.
  induction l as [| y l IH]; intros Hs; cbn; [split; [constructor | exact I] |].
  destruct Hs as [Hy Hs]. destruct (le x y) eqn:E.
  - cbn. repeat split; try assumption.
    constructor; [exact E |].
    eapply List.Forall_impl; [| exact Hy]. intros z Hz. now apply (le_trans x y z).
  - cbn. split; [| now apply IH].
    apply List.Forall_forall. intros z Hz.
    apply (Permutation_in _ (insertSorted_perm le x l)) in Hz as [<- | Hz].
    + now apply le_total.
    + rewrite List.Forall_forall in Hy. now apply Hy.
Qed.

Lemma stableSort_sorted l : sortedBy le (stableSort le l).
Proof.
  induction l as [| x l IH]; cbn; [exact I |]. now apply insertSorted_sorted.
Qed.
End Sorting.

Lemma recommendationLe_ranks a b : recommendationLe a b = ranksBefore a b.
Proof.
  unfold recommendationLe, ranksBefore.
  destruct (Z.eqb_spec (priorityRank (priority b) - priorityRank (priority a)) 0) as [E | E];
    cbn [negb].
  - replace (priorityRank (priority b) <? priorityRank (priority a)) with false
      by (symmetry; apply Z.ltb_ge; lia).
    replace (priorityRank (priority b) =? priorityRank (priority a)) with true
      by (symmetry; apply Z.eqb_eq; lia).
    cbn [orb andb].
    destruct (Qle_bool (confidence b) (confidence a)) eqn:Q1;
      destruct (Qle_bool (confidence b - confidence a) 0) eqn:Q2; try reflexivity.
    + apply Qle_bool_iff in Q1. apply not_true_iff_false in Q2. exfalso. apply Q2.
      apply Qle_bool_iff. unfold Qminus. apply (Qplus_le_l _ _ (confidence a)).
      ring_simplify. exact Q1.
    + apply Qle_bool_iff in Q2. apply not_true_iff_false in Q1. exfalso. apply Q1.
      apply Qle_bool_iff. unfold Qminus in Q2. apply (Qplus_le_l _ _ (confidence a)) in Q2.
      ring_simplify in Q2. exact Q2.
  - replace (priorityRank (priority b) =? priorityRank (priority a)) with false
      by (symmetry; apply Z.eqb_neq; lia).
    cbn [andb]. rewrite orb_false_r.
    destruct (Z.leb_spec (priorityRank (priority b) - priorityRank (priority a)) 0);
      symmetry; [apply Z.ltb_lt | apply Z.ltb_ge]; lia.
Qed.

Lemma ranksBefore_total a b : ranksBefore a b = false -> ranksBefore b a = true.
Proof.
  unfold ranksBefore. intros H. apply orb_false_iff in H as [H1 H2].
  apply Z.ltb_ge in H1. apply andb_false_iff in H2.
  apply orb_true_iff.
  destruct (Z.eq_dec (priorityRank (priority b)) (priorityRank (priority a))) as [E | E].
  - right. apply andb_true_iff. split; [apply Z.eqb_eq; lia |].
    destruct H2 as [H2 | H2]; [apply Z.eqb_neq in H2; lia |].
    apply Qle_bool_iff. apply not_true_iff_false in H2.
    destruct (Qlt_le_dec (confidence a) (confidence b)) as [Hlt | Hle].
    + now apply Qlt_le_weak.
    + exfalso. apply H2. now apply Qle_bool_iff.
  - left. apply Z.ltb_lt. lia.
Qed.

Lemma ranksBefore_trans a b c :
  ranksBefore a b = true -> ranksBefore b c = true -> ranksBefore a c = true.
Proof.
  unfold ranksBefore. rewrite !orb_true_iff, !andb_true_iff, !Z.ltb_lt, !Z.eqb_eq,
    !Qle_bool_iff.
  intros [H1 | [H1 Q1]] [H2 | [H2 Q2]]; try (left; lia).
  right. split; [lia |]. now apply (Qle_trans _ (confidence b)).
Qed.

Lemma recommendation_moves current appliedAt' merit now d :
  deriveRecommendation current appliedAt' merit now = Some d ->
  forwardMove current (d_recommendedStatus d).
Proof.
  unfold deriveRecommendation, forwardMove. intros H.
  destruct current; cbn in H;
    repeat match type of H with
           | context [if ?c then _ else _] => destruct c
           end; try discriminate; injection H as <-; cbn; auto.
Qed.

(** X24. A recommendation only ever moves an application forward: from
    Applied to Interview or Rejected, or from Interview to Offer or
    Rejected, with a confidence strictly between 0 and 1; applications in
    Offer or Rejected get none, and an Applied one with merit fit of 90 or
    more is sent to Interview whatever its age. *)
Theorem recommendation_moves_forward
    (current : AppStatus) (appliedAt' merit now : Z) :
  (forall d, deriveRecommendation current appliedAt' merit now = Some d ->
     forwardMove current (d_recommendedStatus d) /\
     d_recommendedStatus d <> current /\
     (0 < d_confidence d)%Q /\ (d_confidence d < 1)%Q) /\
  (current = Offer \/ current = Rejected ->
   deriveRecommendation current appliedAt' merit now = None) /\
  (current = Applied -> 90 <= merit ->
   exists d, deriveRecommendation current appliedAt' merit now = Some d /\
             d_recommendedStatus d = Interview /\ d_priority d = high).
Proof.
  unfold deriveRecommendation, forwardMove. repeat split.
  - destruct current; cbn in H;
      repeat match type of H with
             | context [if ?c then _ else _] => destruct c
             end; try discriminate; injection H as <-; cbn; auto.
  - destruct current; cbn in H;
      repeat match type of H with
             | context [if ?c then _ else _] => destruct c
             end; try discriminate; injection H as <-; cbn; discriminate.
  - destruct current; cbn in H;
      repeat match type of H with
             | context [if ?c then _ else _] => destruct c
             end; try discriminate; injection H as <-; reflexivity.
  - destruct current; cbn in H;
      repeat match type of H with
             | context [if ?c then _ else _] => destruct c
             end; try discriminate; injection H as <-; reflexivity.
  - intros [-> | ->]; reflexivity.
  - intros -> Hm. apply Z.leb_le in Hm. rewrite Hm. eexists. repeat split.
Qed.

Lemma recommendation_moves_forward_witness : forwardMove Applied Interview.
Proof.
  exact (proj1 (proj1 (recommendation_moves_forward Applied 0 95 0) _ eq_refl)).
Defined.

Lemma sortedBy_ext {A} (le le' : A -> A -> bool) l :
  (forall x y, le x y = le' x y) -> sortedBy le l -> sortedBy le' l.
Proof.
  intros Hext. induction l as [| x l IH]; cbn; [auto |].
  intros [Hx Hs]. split; [| now apply IH].
  eapply List.Forall_impl; [| exact Hx]. intros y Hy. now rewrite <- Hext.
Qed.

Lemma stableSort_ext {A} (le le' : A -> A -> bool) l :
  (forall x y, le x y = le' x y) -> stableSort le l = stableSort le' l.
Proof.
  intros Hext. induction l as [| x l IH]; cbn; [reflexivity |].
  fold (stableSort le l) (stableSort le' l). rewrite IH.
  generalize (stableSort le' l). intros s.
  induction s as [| y s IHs]; cbn; [reflexivity |]. now rewrite Hext, IHs.
Qed.

Lemma recommendationsFor_spec applications now r :
  List.In r (recommendationsFor applications now) ->
  forwardMove (currentStatus r) (recommendedStatus r) /\
  exists a, List.In a applications /\ app_id a = applicationId r /\
            toAppStatus (app_status a) = currentStatus r /\
            app_appliedAt a = appliedAt r.
Proof.
  unfold recommendationsFor. intros Hin. apply in_flat_map in Hin as (a & Ha & Hr).
  destruct (deriveRecommendation _ _ _ _) as [d |] eqn:Hd; [| destruct Hr].
  destruct (AppStatus_eqb _ _); [destruct Hr |].
  destruct Hr as [<- | []]. cbn.
  split; [| exists a; auto].
  now apply (recommendation_moves (toAppStatus (app_status a)) _ _ _ d Hd).
Qed.

Lemma flat_map_length_le {A B} (f : A -> list B) l :
  (forall a, (length (f a) <= 1)%nat) -> (length (List.flat_map f l) <= length l)%nat.
Proof.
  intros Hf. induction l as [| a l IH]; cbn; [lia |].
  rewrite length_app. specialize (Hf a). lia.
Qed.

Lemma snapshot_recommendations
    (sc : PipelineScope) (now : Z) (jobs : list JobRow)
    (applications : list ApplicationRow) (upcomingInterviews : list InterviewRow) :
  let snapshot := getPipelineAutomationSnapshot sc now jobs applications upcomingInterviews in
  sortedBy ranksBefore (recommendations snapshot) /\
  Forall (fun r =>
            forwardMove (currentStatus r) (recommendedStatus r) /\
            exists a, List.In a applications /\ app_id a = applicationId r /\
                      toAppStatus (app_status a) = currentStatus r /\
                      app_appliedAt a = appliedAt r)
         (recommendations snapshot) /\
  (length (recommendations snapshot) <= length applications)%nat /\
  t_recommendations (totals snapshot) = Z.of_nat (length (recommendations snapshot)).
Proof.
  cbv zeta. unfold getPipelineAutomationSnapshot.
  destruct jobs as [| j jobs]; cbn [recommendations totals t_recommendations].
  - repeat split; [constructor | cbn; lia].
  - rewrite (stableSort_ext recommendationLe ranksBefore _ recommendationLe_ranks).
    split; [apply stableSort_sorted; [apply ranksBefore_total | apply ranksBefore_trans] |].
    split; [| split; [| reflexivity]].
    + apply List.Forall_forall. intros r Hr. apply stableSort_In in Hr.
      now apply (recommendationsFor_spec applications now).
    + rewrite (Permutation_length (stableSort_perm _ _)).
      apply flat_map_length_le. intros a. cbv beta zeta.
      destruct (deriveRecommendation _ _ _ _) as [d |]; [| cbn; lia].
      destruct (AppStatus_eqb (d_recommendedStatus d) _); cbn; lia.
Qed.

(** X25. The recommendations of a snapshot are ranked, higher priority
    first and higher confidence first within a priority; each belongs to one
    of the applications queried and moves it forward from its current
    status; there are never more recommendations than applications. *)
Theorem snapshot_recommendations_ranked
    (sc : PipelineScope) (now : Z) (jobs : list JobRow)
    (applications : list ApplicationRow) (upcomingInterviews : list InterviewRow) :
  let snapshot := getPipelineAutomationSnapshot sc now jobs applications upcomingInterviews in
  sortedBy ranksBefore (recommendations snapshot) /\
  Forall (fun r =>
            forwardMove (currentStatus r) (recommendedStatus r) /\
            exists a, List.In a applications /\ app_id a = applicationId r /\
                      toAppStatus (app_status a) = currentStatus r /\
                      app_appliedAt a = appliedAt r)
         (recommendations snapshot) /\
  (length (recommendations snapshot) <= length applications)%nat /\
  t_recommendations (totals snapshot) = Z.of_nat (length (recommendations snapshot)).
Proof. apply snapshot_recommendations. Qed.

Lemma scheduledCount_snoc o seen i :
  scheduledCount o (seen ++ [i]) =
  (scheduledCount o seen + (if String.eqb (owner i) o then 1 else 0))%nat.
Proof.
  unfold scheduledCount. rewrite List.filter_app, length_app. cbn.
  now destruct (String.eqb (owner i) o).
Qed.

Lemma bumpOwner_none i m :
  bumpOwner i m = None -> ~ List.In (owner i) (List.map fst m).
Proof.
  induction m as [| [o e] m IH]; cbn; [tauto |].
  destruct (String.eqb_spec o (owner i)) as [-> | Hne]; [discriminate |].
  destruct (bumpOwner i m); [discriminate |]. intros _ [H | H]; [congruence | now apply IH].
Qed.

Lemma bumpOwner_some i m m' :
  bumpOwner i m = Some m' ->
  exists m1 load load' m2,
    m = m1 ++ (owner i, load) :: m2 /\ m' = m1 ++ (owner i, load') :: m2 /\
    scheduled load' = scheduled load + 1.
Proof.
  revert m'. induction m as [| [o e] m IH]; intros m'; cbn; [discriminate |].
  destruct (String.eqb_spec o (owner i)) as [-> | Hne].
  - intros [= <-]. exists [], e. eexists. exists m. repeat split.
  - destruct (bumpOwner i m) as [m0 |]; [| discriminate]. cbn. intros [= <-].
    destruct (IH m0 eq_refl) as (m1 & load & load' & m2 & -> & -> & Hs).
    exists ((o, e) :: m1), load, load', m2. repeat split. exact Hs.
Qed.

Lemma totalLoad_app a b : totalLoad (a ++ b) = totalLoad a + totalLoad b.
Proof.
  unfold totalLoad.
  induction a as [| e a IH]; cbn [app fold_right]; [reflexivity | rewrite IH; lia].
Qed.

Lemma recordInterview_total m i : totalLoad (recordInterview m i) = totalLoad m + 1.
Proof.
  unfold recordInterview. destruct (bumpOwner i m) as [m' |] eqn:E.
  - apply bumpOwner_some in E as (m1 & load & load' & m2 & -> & -> & Hs).
    rewrite !totalLoad_app. cbn. lia.
  - rewrite totalLoad_app. cbn. lia.
Qed.

Lemma recordInterview_owners m seen i :
  ownersOf m seen -> ownersOf (recordInterview m i) (seen ++ [i]).
Proof.
  intros (Hnd & Hcount & Hcover). unfold recordInterview.
  destruct (bumpOwner i m) as [m' |] eqn:E.
  - apply bumpOwner_some in E as (m1 & load & load' & m2 & -> & -> & Hs).
    assert (Hkeys : List.map fst (m1 ++ (owner i, load') :: m2) =
                    List.map fst (m1 ++ (owner i, load) :: m2))
      by (rewrite !List.map_app; reflexivity).
    split; [now rewrite Hkeys |]. split.
    + intros o l Hin. rewrite scheduledCount_snoc.
      apply in_app_iff in Hin as [Hin | [Heq | Hin]].
      * destruct (Hcount o l) as [Hc Hpos]; [apply in_app_iff; now left |].
        destruct (String.eqb_spec (owner i) o) as [<- | _]; [| split; lia].
        exfalso. rewrite List.map_app in Hnd. cbn in Hnd.
        apply NoDup_remove_2 in Hnd. apply Hnd. apply in_app_iff. left.
        apply in_map_iff. exists (owner i, l). auto.
      * injection Heq as <- <-. rewrite String.eqb_refl.
        destruct (Hcount (owner i) load) as [Hc Hpos];
          [apply in_app_iff; right; now left |]. split; lia.
      * destruct (Hcount o l) as [Hc Hpos]; [apply in_app_iff; right; now right |].
        destruct (String.eqb_spec (owner i) o) as [<- | _]; [| split; lia].
        exfalso. rewrite List.map_app in Hnd. cbn in Hnd.
        apply NoDup_remove_2 in Hnd. apply Hnd. apply in_app_iff. right.
        apply in_map_iff. exists (owner i, l). auto.
    + intros j Hj. rewrite Hkeys. apply in_app_iff in Hj as [Hj | [<- | []]];
        [now apply Hcover |].
      rewrite List.map_app. apply in_app_iff. right. now left.
  - apply bumpOwner_none in E. split; [| split].
    + rewrite List.map_app. cbn. apply NoDup_snoc; assumption.
    + intros o l Hin. rewrite scheduledCount_snoc.
      apply in_app_iff in Hin as [Hin | [Heq | []]].
      * destruct (Hcount o l Hin) as [Hc Hpos].
        destruct (String.eqb_spec (owner i) o) as [<- | _]; [| split; lia].
        exfalso. apply E. apply in_map_iff. exists (owner i, l). auto.
      * injection Heq as <- <-. rewrite String.eqb_refl. cbn [scheduled].
        assert (scheduledCount (owner i) seen = 0%nat); [| split; lia].
        unfold scheduledCount.
        destruct (List.filter _ seen) as [| j l] eqn:F; [reflexivity |].
        exfalso. apply E.
        assert (Hj : List.In j (List.filter (fun i0 => String.eqb (owner i0) (owner i)) seen))
          by (rewrite F; now left).
        apply filter_In in Hj as [Hj Ho]. apply String.eqb_eq in Ho. rewrite <- Ho.
        now apply Hcover.
    + intros j Hj. rewrite List.map_app. apply in_app_iff.
      apply in_app_iff in Hj as [Hj | [<- | []]]; [left; now apply Hcover | right; now left].
Qed.

Lemma interviewsByOwner_owners upcoming : ownersOf (interviewsByOwner upcoming) upcoming.
Proof.
  unfold interviewsByOwner.
  assert (H : forall l m seen, ownersOf m seen ->
                ownersOf (fold_left recordInterview l m) (seen ++ l)).
  { induction l as [| i l IH]; intros m seen Hm; cbn [fold_left].
    - now rewrite app_nil_r.
    - replace (seen ++ i :: l) with ((seen ++ [i]) ++ l) by now rewrite <- app_assoc.
      apply IH. now apply recordInterview_owners. }
  apply (H upcoming [] []). split; [constructor |]. split; [intros o load [] | intros i []].
Qed.

Lemma interviewsByOwner_total upcoming :
  totalLoad (interviewsByOwner upcoming) = Z.of_nat (length upcoming).
Proof.
  unfold interviewsByOwner.
  assert (H : forall l m, totalLoad (fold_left recordInterview l m) =
                          totalLoad m + Z.of_nat (length l)).
  { induction l as [| i l IH]; intros m; cbn [fold_left length]; [lia |].
    rewrite IH, recordInterview_total. lia. }
  rewrite H. reflexivity.
Qed.

Lemma totalScheduled_perm l l' :
  Permutation l l' -> totalScheduled l = totalScheduled l'.
Proof. unfold totalScheduled. induction 1; cbn [fold_right]; lia. Qed.

Lemma totalScheduled_map (f : string * OwnerLoad -> InterviewLoadStat) m :
  (forall e, ls_scheduled (f e) = scheduled (snd e)) ->
  totalScheduled (List.map f m) = totalLoad m.
Proof.
  intros Hf. unfold totalScheduled, totalLoad.
  induction m as [| e m IH]; cbn [List.map fold_right]; [reflexivity |].
  now rewrite IH, Hf.
Qed.

Lemma busierFirst_total a b : busierFirst a b = false -> busierFirst b a = true.
Proof. unfold busierFirst. rewrite Z.leb_gt, Z.leb_le. lia. Qed.

Lemma busierFirst_trans a b c :
  busierFirst a b = true -> busierFirst b c = true -> busierFirst a c = true.
Proof. unfold busierFirst. rewrite !Z.leb_le. lia. Qed.

Lemma load_stats_owners (upcomingInterviews : list InterviewRow) :
  let stats := loadStatsOf (interviewsByOwner upcomingInterviews) in
  List.NoDup (List.map ls_owner stats) /\
  Forall (fun e =>
            ls_scheduled e = Z.of_nat (scheduledCount (ls_owner e) upcomingInterviews) /\
            1 <= ls_scheduled e) stats /\
  (forall i, List.In i upcomingInterviews -> List.In (owner i) (List.map ls_owner stats)) /\
  totalScheduled stats = Z.of_nat (length upcomingInterviews) /\
  sortedBy busierFirst stats.
Proof.
  cbv zeta. unfold loadStatsOf.
  destruct (interviewsByOwner_owners upcomingInterviews) as (Hnd & Hcount & Hcover).
  set (m := interviewsByOwner upcomingInterviews) in *.
  set (f := fun entry : string * OwnerLoad => _).
  set (cmp := fun a b : InterviewLoadStat => _).
  pose proof (stableSort_perm cmp (List.map f m)) as Hperm.
  assert (Hkeys : List.map ls_owner (List.map f m) = List.map fst m)
    by (rewrite List.map_map; reflexivity).
  repeat split.
  - eapply Permutation.Permutation_NoDup;
      [apply Permutation_map; symmetry; exact Hperm | now rewrite Hkeys].
  - apply List.Forall_forall. intros e He.
    apply (Permutation_in _ Hperm) in He. apply in_map_iff in He as ([o load] & <- & Hin).
    cbn. now apply Hcount.
  - intros i Hi. eapply Permutation_in;
      [apply Permutation_map; symmetry; exact Hperm |].
    rewrite Hkeys. now apply Hcover.
  - rewrite (totalScheduled_perm _ _ Hperm), <- interviewsByOwner_total. fold m.
    apply totalScheduled_map. reflexivity.
  - rewrite (stableSort_ext cmp busierFirst).
    + apply stableSort_sorted; [apply busierFirst_total | apply busierFirst_trans].
    + intros x y. unfold cmp, busierFirst.
      destruct (Z.leb_spec (ls_scheduled y - ls_scheduled x) 0);
        symmetry; [apply Z.leb_le | apply Z.leb_gt]; lia.
Qed.

(** X26. The load statistics account for every upcoming interview: they
    list each owner once, with the number of that owner's upcoming
    interviews (at least one), every interview's owner is listed, the
    counts add up to the number of upcoming interviews, and the busiest
    owners come first. *)
Theorem load_stats_account_for_interviews (upcomingInterviews : list InterviewRow) :
  let stats := loadStatsOf (interviewsByOwner upcomingInterviews) in
  List.NoDup (List.map ls_owner stats) /\
  Forall (fun e =>
            ls_scheduled e = Z.of_nat (scheduledCount (ls_owner e) upcomingInterviews) /\
            1 <= ls_scheduled e) stats /\
  (forall i, List.In i upcomingInterviews -> List.In (owner i) (List.map ls_owner stats)) /\
  totalScheduled stats = Z.of_nat (length upcomingInterviews) /\
  sortedBy busierFirst stats.
Proof. apply load_stats_owners. Qed.

Lemma NoDup_map_inj {A B} (f : A -> B) (l : list A) x y :
  List.NoDup (List.map f l) -> List.In x l -> List.In y l -> f x = f y -> x = y.
Proof.
  induction l as [| a l IH]; cbn; [tauto |].
  intros Hnd Hx Hy Hf. apply List.NoDup_cons_iff in Hnd as [Ha Hnd].
  destruct Hx as [-> | Hx], Hy as [-> | Hy]; auto.
  - exfalso. apply Ha. rewrite Hf. now apply in_map.
  - exfalso. apply Ha. rewrite <- Hf. now apply in_map.
Qed.

Section Rebalancing.
Variable stats : list InterviewLoadStat.
Variable upcomingInterviews : list InterviewRow.

Lemma drainOwner_nil o st : drainOwner o [] st = st.
Proof. cbn. now destruct (underloadedOwners st). Qed.

Lemma drainOwner_sound o pool : forall st,
  levelOf stats o LoadHigh ->
  Forall (fun i => List.In i upcomingInterviews /\ owner i = o) pool ->
  Forall (fun u => levelOf stats u LoadLow) (underloadedOwners st) ->
  Forall (soundMove stats upcomingInterviews) (suggestions st) ->
  Forall (fun u => levelOf stats u LoadLow) (underloadedOwners (drainOwner o pool st)) /\
  Forall (soundMove stats upcomingInterviews) (suggestions (drainOwner o pool st)).
Proof.
  induction pool as [| next pool IH]; intros st Ho Hpool Hlow Hsound.
  - rewrite drainOwner_nil. auto.
  - cbn [drainOwner]. destruct (underloadedOwners st) as [| u us] eqn:Hu; [rewrite Hu; auto |].
    rewrite <- Hu in *. clear Hu.
    set (cmp := fun a b : string => _).
    assert (Hsorted : Forall (fun u => levelOf stats u LoadLow)
                             (stableSort cmp (underloadedOwners st))).
    { apply List.Forall_forall. intros x Hx. apply stableSort_In in Hx.
      rewrite List.Forall_forall in Hlow. now apply Hlow. }
    destruct (stableSort cmp (underloadedOwners st)) as [| target rest] eqn:Hs; [auto |].
    destruct (_ <=? 1); [cbn; auto |].
    apply Forall_cons_iff in Hpool as [[Hnext Hown] Hpool].
    apply IH; try assumption. cbn [suggestions].
    apply Forall_app. split; [exact Hsound |]. constructor; [| constructor].
    unfold soundMove. cbn. split; [exact Ho |]. split.
    + now apply Forall_cons_iff in Hsorted as [Ht _].
    + exists next. auto.
Qed.

Lemma rebalance_sound :
  Forall (soundMove stats upcomingInterviews)
         (suggestions (rebalance stats upcomingInterviews)).
Proof.
  unfold rebalance.
  set (highs := List.map ls_owner (List.filter (fun e => isHigh (ls_loadLevel e)) stats)).
  assert (Hhighs : Forall (fun o => levelOf stats o LoadHigh) highs).
  { apply List.Forall_forall. intros o Ho. apply in_map_iff in Ho as (e & <- & He).
    apply filter_In in He as [He Hl]. exists e. repeat split; [exact He |].
    destruct (ls_loadLevel e); try discriminate; reflexivity. }
  match goal with
  | |- Forall (soundMove stats upcomingInterviews) (suggestions (fold_left ?f highs ?st0)) =>
      assert (H : forall l st,
                Forall (fun o => levelOf stats o LoadHigh) l ->
                Forall (fun u => levelOf stats u LoadLow) (underloadedOwners st) ->
                Forall (soundMove stats upcomingInterviews) (suggestions st) ->
                Forall (soundMove stats upcomingInterviews) (suggestions (fold_left f l st)))
  end.
  { induction l as [| o l IH]; intros st Hl Hlow Hsound; cbn [fold_left]; [exact Hsound |].
    apply Forall_cons_iff in Hl as [Ho Hl].
    destruct (drainOwner_sound o
                (List.filter (fun i => String.eqb (owner i) o) upcomingInterviews) st)
      as [Hlow' Hsound']; try assumption.
    - apply List.Forall_forall. intros i Hi. apply filter_In in Hi as [Hi Hoi].
      apply String.eqb_eq in Hoi. auto.
    - apply IH; assumption. }
  apply H; [exact Hhighs | | constructor].
  cbn [underloadedOwners].
  apply List.Forall_forall. intros o Ho. apply in_map_iff in Ho as (e & <- & He).
  apply filter_In in He as [He Hl]. exists e. repeat split; [exact He |].
  destruct (ls_loadLevel e); try discriminate; reflexivity.
Qed.
End Rebalancing.

(** X27. Every rebalancing suggestion of a snapshot moves one of the
    upcoming interviews of its current owner, a highly loaded owner, to a
    different owner whose load is low. *)
Theorem rebalance_moves_high_to_low
    (sc : PipelineScope) (now : Z) (jobs : list JobRow)
    (applications : list ApplicationRow) (upcomingInterviews : list InterviewRow) :
  let snapshot := getPipelineAutomationSnapshot sc now jobs applications upcomingInterviews in
  Forall (fun s =>
            levelOf (loadStats snapshot) (rs_currentOwner s) LoadHigh /\
            levelOf (loadStats snapshot) (rs_suggestedOwner s) LoadLow /\
            rs_currentOwner s <> rs_suggestedOwner s /\
            exists i, List.In i upcomingInterviews /\ interview_id i = rs_interviewId s /\
                      owner i = rs_currentOwner s /\ person i = rs_person s /\
                      time i = rs_time s)
         (rebalanceSuggestions snapshot).
Proof.
  cbv zeta. unfold getPipelineAutomationSnapshot.
  destruct jobs as [| j jobs]; cbn [rebalanceSuggestions loadStats]; [constructor |].
  pose proof (rebalance_sound (loadStatsOf (interviewsByOwner upcomingInterviews))
                upcomingInterviews) as Hsound.
  destruct (load_stats_owners upcomingInterviews) as [Hnd _].
  eapply List.Forall_impl; [| exact Hsound].
  intros s (Hhigh & Hlow & Hi). repeat split; try assumption.
  intros Heq. destruct Hhigh as (e1 & He1 & Ho1 & Hl1). destruct Hlow as (e2 & He2 & Ho2 & Hl2).
  assert (e1 = e2) by (eapply NoDup_map_inj; eauto; congruence).
  subst e2. congruence.
Qed.

Lemma Forall2_refl_on {A} (R : A -> A -> Prop) l : (forall x, R x x) -> Forall2 R l l.
Proof. intros HR. induction l; constructor; auto. Qed.

Lemma Forall2_compose {A} (R : A -> A -> Prop) :
  (forall x y z, R x y -> R y z -> R x z) ->
  forall l1 l2 l3, Forall2 R l1 l2 -> Forall2 R l2 l3 -> Forall2 R l1 l3.
Proof.
  intros HR l1 l2 l3 H12. revert l3.
  induction H12 as [| x y l1 l2 Hxy _ IH]; intros l3 H23; inversion H23; subst;
    constructor; eauto.
Qed.

Lemma Forall2_map_r {A} (R : A -> A -> Prop) (g : A -> A) l :
  (forall x, R x (g x)) -> Forall2 R l (List.map g l).
Proof. intros HR. induction l; cbn; constructor; auto. Qed.

Lemma applyAll_from {T R} (update : T -> list R -> Z * list R) targets : forall acc,
  fold_left (fun acc target =>
               let '(n, rows) := update target (snd acc) in (fst acc + n, rows))
            targets acc =
  (fst acc + fst (applyAll update targets (snd acc)),
   snd (applyAll update targets (snd acc))).
Proof.
  unfold applyAll.
  induction targets as [| t targets IH]; intros [n table]; cbn [fold_left fst snd].
  - f_equal. lia.
  - destruct (update t table) as [c rows] eqn:E. cbn [fst snd].
    rewrite (IH (n + c, rows)), (IH (0 + c, rows)). cbn [fst snd]. f_equal. lia.
Qed.

Lemma applyAll_cons {T R} (update : T -> list R -> Z * list R) t targets table :
  applyAll update (t :: targets) table =
  (fst (update t table) + fst (applyAll update targets (snd (update t table))),
   snd (applyAll update targets (snd (update t table)))).
Proof.
  unfold applyAll at 1. cbn [fold_left fst snd].
  destruct (update t table) as [c rows]. rewrite applyAll_from. cbn [fst snd].
  f_equal.
Qed.

(* The loop of updates, for updates that each take a step on every row,
   and that match at most one row of a table that satisfies [Inv]. *)
Lemma applyAll_spec {T R} (update : T -> list R -> Z * list R)
    (P : T -> Prop) (step : R -> R -> Prop) (Inv : list R -> Prop) :
  (forall x, step x x) ->
  (forall x y z, step x y -> step y z -> step x z) ->
  (forall t table, P t ->
     Forall2 step table (snd (update t table)) /\ 0 <= fst (update t table) /\
     (Inv table -> fst (update t table) <= 1 /\ Inv (snd (update t table)))) ->
  forall targets table, Forall P targets ->
    Forall2 step table (snd (applyAll update targets table)) /\
    0 <= fst (applyAll update targets table) /\
    (Inv table -> fst (applyAll update targets table) <= Z.of_nat (length targets)).
Proof.
  intros Hrefl Htrans Hupd.
  induction targets as [| t targets IH]; intros table HP.
  - cbn. repeat split; [now apply Forall2_refl_on | lia | lia].
  - apply Forall_cons_iff in HP as [Ht HP]. rewrite applyAll_cons. cbn [fst snd length].
    destruct (Hupd t table Ht) as (Hstep & Hpos & Hinv).
    destruct (IH (snd (update t table)) HP) as (Hstep' & Hpos' & Hinv').
    repeat split.
    + eapply Forall2_compose; eauto.
    + lia.
    + intros HI. destruct (Hinv HI) as [Hone HI']. specialize (Hinv' HI'). lia.
Qed.

Lemma applicationStep_refl row : applicationStep row row.
Proof. now left. Qed.

Lemma applicationStep_trans a b c :
  applicationStep a b -> applicationStep b c -> applicationStep a c.
Proof.
  intros [-> | (Hb & Hopen & Hnew)] [-> | (Hc & Hopen' & Hnew')].
  - now left.
  - right. auto.
  - right. auto.
  - right. split; [| auto]. rewrite Hc, Hb. reflexivity.
Qed.

Lemma interviewStep_refl row : interviewStep row row.
Proof. unfold interviewStep. now destruct row. Qed.

Lemma interviewStep_trans a b c : interviewStep a b -> interviewStep b c -> interviewStep a c.
Proof. unfold interviewStep. intros Hb Hc. rewrite Hc, Hb. reflexivity. Qed.

Lemma filter_by_id_length {R} (key : R -> Z) (test : R -> bool) (id : Z) (table : list R) :
  List.NoDup (List.map key table) ->
  (forall row, test row = true -> key row = id) ->
  (length (List.filter test table) <= 1)%nat.
Proof.
  intros Hnd Htest. induction table as [| row table IH]; cbn; [lia |].
  cbn in Hnd. apply List.NoDup_cons_iff in Hnd as [Hrow Hnd]. specialize (IH Hnd).
  destruct (test row) eqn:E; [| lia]. cbn.
  destruct (List.filter test table) as [| other rest] eqn:F; [cbn; lia |].
  exfalso. apply Hrow.
  assert (Ho : List.In other (List.filter test table)) by (rewrite F; now left).
  apply filter_In in Ho as [Hin Ht].
  rewrite (Htest row E), <- (Htest other Ht). now apply in_map.
Qed.

Lemma updateApplications_spec r table :
  forwardMove (currentStatus r) (recommendedStatus r) ->
  Forall2 applicationStep table (snd (updateApplications r table)) /\
  0 <= fst (updateApplications r table) /\
  (List.NoDup (List.map app_id table) ->
   fst (updateApplications r table) <= 1 /\
   List.NoDup (List.map app_id (snd (updateApplications r table)))).
Proof.
  intros Hmove. unfold updateApplications. cbn [fst snd]. repeat split.
  - apply Forall2_map_r. intros row.
    destruct (applicationMatches r row) eqn:E; [| now left].
    right. unfold applicationMatches in E. apply andb_true_iff in E as [_ Hs].
    apply String.eqb_eq in Hs. cbn [withStatus app_status]. rewrite Hs.
    split; [reflexivity |].
    destruct Hmove as [[-> [-> | ->]] | [-> [-> | ->]]]; cbn; auto.
  - lia.
  - pose proof (filter_by_id_length app_id (applicationMatches r) (applicationId r) table H)
      as Hlen.
    assert (length (List.filter (applicationMatches r) table) <= 1)%nat; [| lia].
    apply Hlen. intros row E. unfold applicationMatches in E.
    apply andb_true_iff in E as [Hid _]. now apply Z.eqb_eq in Hid.
  - rewrite List.map_map.
    erewrite map_ext; [exact H |]. intros row. cbn.
    now destruct (applicationMatches r row).
Qed.

Lemma updateInterviews_spec s table :
  Forall2 interviewStep table (snd (updateInterviews s table)) /\
  0 <= fst (updateInterviews s table) /\
  (List.NoDup (List.map interview_id table) ->
   fst (updateInterviews s table) <= 1 /\
   List.NoDup (List.map interview_id (snd (updateInterviews s table)))).
Proof.
  unfold updateInterviews. cbn [fst snd]. repeat split.
  - apply Forall2_map_r. intros row.
    destruct (interviewMatches s row); [reflexivity | apply interviewStep_refl].
  - lia.
  - pose proof (filter_by_id_length interview_id (interviewMatches s) (rs_interviewId s)
                  table H) as Hlen.
    assert (length (List.filter (interviewMatches s) table) <= 1)%nat; [| lia].
    apply Hlen. intros row E. unfold interviewMatches in E.
    apply andb_true_iff in E as [Hid _]. now apply Z.eqb_eq in Hid.
  - rewrite List.map_map.
    erewrite map_ext; [exact H |]. intros row. cbn.
    now destruct (interviewMatches s row).
Qed.

Lemma resolveLimit_nonneg value fallback : 0 <= fallback -> 0 <= resolveLimit value fallback.
Proof. destruct value; cbn; lia. Qed.

Lemma firstn_limit {A} (lim : Z) (l : list A) :
  0 <= lim -> 0 <= Z.of_nat (length (firstn (Z.to_nat lim) l)) <= lim.
Proof. intros H. rewrite length_firstn. lia. Qed.

(** X28. A run of the automation leaves every application either
    untouched or moved on from Applied or Interview to Interview, Offer or
    Rejected, and changes nothing of an interview but its owner. It
    considers no more recommendations and suggestions than its limits, and
    when the ids of a table are distinct it updates no more rows than it
    considered. *)
Theorem run_moves_open_applications_forward
    (sc : PipelineScope) (now snapshotNow : Z) (jobs : list JobRow)
    (applications : list ApplicationRow) (upcomingInterviews : list InterviewRow)
    (applyLimit rebalanceLimit : option Q) (tables : Tables) :
  let run := runPipelineAutomation sc now snapshotNow jobs applications upcomingInterviews
               applyLimit rebalanceLimit tables in
  Forall2 applicationStep (applicationTable tables) (applicationTable (snd run)) /\
  Forall2 interviewStep (interviewTable tables) (interviewTable (snd run)) /\
  0 <= recommendationsConsidered (fst run) <= resolveLimit applyLimit 3 /\
  0 <= rebalanceConsidered (fst run) <= resolveLimit rebalanceLimit 2 /\
  0 <= appliedStatusUpdates (fst run) /\ 0 <= movedInterviews (fst run) /\
  (List.NoDup (List.map app_id (applicationTable tables)) ->
   appliedStatusUpdates (fst run) <= recommendationsConsidered (fst run)) /\
  (List.NoDup (List.map interview_id (interviewTable tables)) ->
   movedInterviews (fst run) <= rebalanceConsidered (fst run)).
Proof.
  cbv zeta. unfold runPipelineAutomation.
  set (snapshot := getPipelineAutomationSnapshot sc snapshotNow jobs applications
                     upcomingInterviews).
  set (recs := firstn (Z.to_nat (resolveLimit applyLimit 3)) (recommendations snapshot)).
  set (moves := firstn (Z.to_nat (resolveLimit rebalanceLimit 2))
                       (rebalanceSuggestions snapshot)).
  assert (Hrecs : Forall (fun r => forwardMove (currentStatus r) (recommendedStatus r)) recs).
  { apply Forall_take.
    destruct (snapshot_recommendations sc snapshotNow jobs applications upcomingInterviews)
      as (_ & HF & _).
    eapply List.Forall_impl; [| exact HF]. intros r [Hr _]. exact Hr. }
  destruct (applyAll_spec updateApplications
              (fun r => forwardMove (currentStatus r) (recommendedStatus r))
              applicationStep (fun table => List.NoDup (List.map app_id table))
              applicationStep_refl applicationStep_trans updateApplications_spec
              recs (applicationTable tables) Hrecs) as (Hstep & Hpos & Hcount).
  destruct (applyAll_spec updateInterviews (fun _ => True)
              interviewStep (fun table => List.NoDup (List.map interview_id table))
              interviewStep_refl interviewStep_trans
              (fun s table _ => updateInterviews_spec s table)
              moves (interviewTable tables)) as (Hstep' & Hpos' & Hcount').
  { apply List.Forall_forall. auto. }
  destruct (applyAll updateApplications recs (applicationTable tables)) as [n rows].
  destruct (applyAll updateInterviews moves (interviewTable tables)) as [n' rows'].
  cbn [fst snd applicationTable interviewTable recommendationsConsidered rebalanceConsidered
       appliedStatusUpdates movedInterviews] in *.
  pose proof (firstn_limit (resolveLimit applyLimit 3) (recommendations snapshot)
                (resolveLimit_nonneg applyLimit 3 ltac:(lia))).
  pose proof (firstn_limit (resolveLimit rebalanceLimit 2) (rebalanceSuggestions snapshot)
                (resolveLimit_nonneg rebalanceLimit 2 ltac:(lia))).
  repeat split; try assumption; try (unfold recs, moves; lia).
Qed.

Lemma run_moves_open_applications_forward_witness :
  let run := runPipelineAutomation admin 10 5 [Examples.someJob] [topApplication] []
               None None oneApplication in
  appliedStatusUpdates (fst run) <= recommendationsConsidered (fst run) /\
  List.map app_status (applicationTable (snd run)) = ["Interview"].
Proof.
  cbv zeta. split; [| vm_compute; reflexivity].
  destruct (run_moves_open_applications_forward admin 10 5 [Examples.someJob]
              [topApplication] [] None None oneApplication)
    as (_ & _ & _ & _ & _ & _ & Hupdates & _).
  apply Hupdates. cbn. constructor; [intros [] | constructor].
Defined.
End PipelineMoreFacts.


(** * Further properties of the delivery run and its endpoint *)

Section AlertMoreFacts.
Import Alerts AlertProps AlertMore.

Lemma stampAll_step now rows a : alertStep now a (stampAll now rows a).
Proof.
  unfold alertStep. repeat split. intros c. rewrite sentAt_stampAll. unfold stamped.
  destruct (sentAt c a) eqn:E; cbn; [now left |].
  destruct (acceptedIn c a rows); [right | left]; auto.
Qed.

Lemma touch_step now d s : searchStep now s (touch now d s).
Proof. unfold searchStep, touch. destruct (memZ _ _); auto. Qed.

(** X29. A delivery run keeps the history of the store: the keys stay
    unique, the delivery log only grows, every alert keeps its identity and
    each sent timestamp it had (a null one may be set to the time of the
    run), and a saved search changes in nothing but its digest time. *)
Theorem run_keeps_history
    (w : World) (sc : DeliveryScope) (userId' : option string) (now : Z) (st : Store) :
  wfStore st ->
  let st' := snd (runAlertDeliveryJob w sc userId' now st) in
  wfStore st' /\
  (exists rows, deliveryLogs st' = deliveryLogs st ++ rows) /\
  Forall2 (alertStep now) (jobAlerts st) (jobAlerts st') /\
  Forall2 (searchStep now) (savedSearches st) (savedSearches st').
Proof.
  intros Hwf. cbv zeta.
  destruct (run_rows w sc userId' now st Hwf) as (lss & _ & Hrun).
  split; [exact (during_wf _ _ _ _ _ Hwf Hrun) |].
  destruct Hrun as (Hlogs & Halerts & Hsearches).
  split; [eauto |]. rewrite Halerts, Hsearches. split.
  - apply Forall2_map_r. apply stampAll_step.
  - apply Forall2_map_r. apply touch_step.
Qed.

Lemma run_keeps_history_witness :
  wfStore (snd (runAlertDeliveryJob Examples.acceptingWorld all None Examples.tenOClock
                  Examples.instantStore)).
Proof.
  exact (proj1 (run_keeps_history Examples.acceptingWorld all None Examples.tenOClock
                  Examples.instantStore instantStore_wf)).
Defined.

Lemma fetched_owned u st sw :
  Js.isEmpty u = false -> List.In sw (fetchPendingSearches (Some u) st) ->
  List.In (search sw) (savedSearches st) /\ userId (search sw) = u.
Proof.
  intros Hu Hin. apply fetched_iff in Hin as (s & Hs & Hf & ->).
  cbn [snapshot search]. split; [exact Hs |].
  unfold fetchable in Hf. rewrite Hu in Hf. apply andb_true_iff in Hf as [Hf _].
  now apply String.eqb_eq.
Qed.

Lemma In_concat_Forall2 {A B} (R : A -> list B -> Prop) l lss x :
  Forall2 R l lss -> List.In x (concat lss) ->
  exists a ls, List.In a l /\ R a ls /\ List.In x ls.
Proof.
  induction 1 as [| a ls l lss Ha _ IH]; cbn; [contradiction |].
  rewrite in_app_iff. intros [Hx | Hx].
  - exists a, ls. auto.
  - destruct (IH Hx) as (a' & ls' & Ha' & HR & Hin). exists a', ls'. auto.
Qed.

Lemma Forall2_map_in {A} (R : A -> A -> Prop) (g : A -> A) l :
  (forall x, List.In x l -> R x (g x)) -> Forall2 R l (List.map g l).
Proof.
  induction l as [| x l IH]; intros HR; cbn; constructor.
  - apply HR. now left.
  - apply IH. intros y Hy. apply HR. now right.
Qed.

(* A run for one user touches nothing of the others. *)
Lemma run_for_user w sc u now st :
  wfStore st -> Js.isEmpty u = false ->
  onlyTouches u st (snd (runAlertDeliveryJob w sc (Some u) now st)).
Proof.
  intros Hwf Hu.
  destruct (run_rows w sc (Some u) now st Hwf) as (lss & Hlss & Hlogs & Halerts & Hsearches).
  assert (Hrows : forall log, List.In log (concat lss) ->
                              ownedBy st u (log_savedSearchId log)).
  { intros log Hlog.
    destruct (In_concat_Forall2 _ _ _ _ Hlss Hlog) as (sw & ls & Hsw & Hls & Hin).
    destruct (SearchLogs_row w now sw ls log Hls Hin) as (_ & Hid & _).
    destruct (fetched_owned u st sw Hu Hsw) as [Hs Hown].
    exists (search sw). auto. }
  split; [| split].
  - exists (concat lss). split; [exact Hlogs | now apply List.Forall_forall].
  - rewrite Hsearches. apply Forall2_map_in. intros s Hs. unfold touch.
    destruct (memZ (search_id s) _) eqn:Hm; [| now left].
    right. unfold memZ in Hm. apply existsb_exists in Hm as (i & Hi & Heq).
    apply Z.eqb_eq in Heq. subst i.
    apply in_map_iff in Hi as (sw & Hid & Hsw). apply filter_In in Hsw as [Hsw _].
    destruct (fetched_owned u st sw Hu Hsw) as [Hs0 Hown].
    destruct Hwf as [_ Hnd].
    now rewrite (unique_search_by_id _ s (search sw) Hnd Hs Hs0 (eq_sym Hid)).
  - rewrite Halerts. apply Forall2_map_r. intros a.
    destruct (existsb (fun log => log_savedSearchId log =? alert_savedSearchId a)
                      (concat lss)) eqn:E.
    + right. apply existsb_exists in E as (log & Hlog & Heq). apply Z.eqb_eq in Heq.
      rewrite <- Heq. now apply Hrows.
    + left. apply stampAll_uncovered. intros c. apply acceptedIn_none.
      intros log Hlog Heq.
      assert (existsb (fun log => log_savedSearchId log =? alert_savedSearchId a)
                      (concat lss) = true); [| congruence].
      apply existsb_exists. exists log. split; [exact Hlog | now apply Z.eqb_eq].
Qed.

(** X30. Whatever a caller who is not an administrator sends to the
    delivery endpoint, what it triggers touches only that caller's data.
    An answer is 200, 401 or 403, and only a 200 comes with a run; the
    handler throws only for the body [null], with the store untouched; a
    request for scope all is refused with the store untouched; and every
    row added to the delivery log, every saved search changed and every
    alert changed belongs to a saved search of the caller. *)
Theorem non_admin_run_touches_own_data_only
    (w : World) (sess : DeliveryRoute.Session) (body : DeliveryRoute.RawBody)
    (now : Z) (st : Store) :
  wfStore st ->
  DeliveryRoute.session_role sess <> "ADMIN" ->
  let outcome := fst (DeliveryRoute.POST w (Some sess) body now st) in
  let st' := snd (DeliveryRoute.POST w (Some sess) body now st) in
  match outcome with
  | DeliveryRoute.Answered response =>
      List.In (DeliveryRoute.resp_status response) [200; 401; 403] /\
      (DeliveryRoute.resp_status response <> 200 -> st' = st) /\
      (body = DeliveryRoute.BodyValue (Some "all") ->
       DeliveryRoute.resp_status response <> 200)
  | DeliveryRoute.Thrown => body = DeliveryRoute.BodyNull /\ st' = st
  end /\
  onlyTouches (DeliveryRoute.session_userId sess) st st'.
Proof.
  intros Hwf Hrole. cbv zeta.
  assert (Hsame : onlyTouches (DeliveryRoute.session_userId sess) st st).
  { split; [| split].
    - exists []. rewrite app_nil_r. split; [reflexivity | constructor].
    - apply Forall2_refl_on. now left.
    - apply Forall2_refl_on. now left. }
  assert (Hadmin : DeliveryRoute.isAdmin (Some sess) = false)
    by (cbn; now apply String.eqb_neq).
  unfold DeliveryRoute.POST, DeliveryRoute.sessionUserId. rewrite Hadmin.
  destruct (Js.isEmpty (DeliveryRoute.session_userId sess)) eqn:Hu.
  { cbn [fst snd DeliveryRoute.json DeliveryRoute.resp_status].
    split; [| exact Hsame].
    split; [cbn; tauto |]. split; [reflexivity | intros _; discriminate]. }
  destruct body as [| | requested]; cbn [DeliveryRoute.bodyScope fst snd].
  2: { split; [split; reflexivity | exact Hsame]. }
  all: cbv zeta.
  all: match goal with
       | |- context [DeliveryRoute.resolveScope ?x] =>
           destruct (DeliveryRoute.resolveScope x) eqn:Hscope
       end; cbn [DeliveryRoute.isAll andb negb].
  all: try (cbn [fst snd DeliveryRoute.json DeliveryRoute.resp_status];
            split; [| exact Hsame];
            split; [cbn; tauto |]; split; [reflexivity | intros _; discriminate]).
  all: unfold DeliveryRoute.scopedUserId; cbn [DeliveryRoute.isAll];
    pose proof (run_for_user w self (DeliveryRoute.session_userId sess) now st Hwf Hu)
      as Hrun;
    destruct (runAlertDeliveryJob w self (Some (DeliveryRoute.session_userId sess)) now st)
      as [result st1];
    cbn [fst snd DeliveryRoute.json DeliveryRoute.resp_status] in *;
    (split; [| exact Hrun]);
    (split; [cbn; tauto |]); (split; [congruence |]).
  - discriminate.
  - intros [= ->]. discriminate Hscope.
Qed.

Lemma non_admin_run_touches_own_data_only_witness :
  onlyTouches "u1" Examples.instantStore
    (snd (DeliveryRoute.POST Examples.acceptingWorld (Some candidate)
            (DeliveryRoute.BodyValue None) Examples.tenOClock Examples.instantStore)).
Proof.
  exact (proj2 (non_admin_run_touches_own_data_only Examples.acceptingWorld candidate
                  (DeliveryRoute.BodyValue None) Examples.tenOClock Examples.instantStore
                  instantStore_wf ltac:(discriminate))).
Defined.
End AlertMoreFacts.
